(** * The transcript cleaner of UCSDPodcastTranscriber

    A shallow embedding of [clean_transcript]
    (src/ucsd_podcast_transcriber.py, lines 409-620) and the properties of it
    that the specification states.

    Python strings are sequences of Unicode code points: a string is a
    [list N].  Python integers that serve as indices are [Z].  The statements
    that can raise ([sentences[i]], [most_common(1)[0]], [a / b]) live in a
    small error monad, so "never raises" is a theorem and not a convention.

    The regular expressions of the program are kept as data and run by a
    backtracking matcher with the priority order of Python's [re]. *)

From Stdlib Require Import String Ascii.
From Stdlib Require Import List ZArith NArith Lia Bool.
Import ListNotations.

Set Implicit Arguments.

(* ================================================================== *)
(** * Strings *)

(** A Python [str]: its code points. *)
Abbreviation str := (list N).

Fixpoint bytes (s : string) : list N :=
  match s with
  | EmptyString => []
  | String a t => N_of_ascii a :: bytes t
  end.

(** Literals are written as Rocq strings, which hold UTF-8 bytes; [utf8]
    decodes them into code points. *)
Fixpoint utf8 (bs : list N) (need : nat) (acc : N) : str :=
  match bs with
  | [] => []
  | b :: t =>
      match need with
      | O =>
          if (b <? 128)%N then b :: utf8 t 0 0%N
          else if (b <? 224)%N then utf8 t 1 (b - 192)%N
          else if (b <? 240)%N then utf8 t 2 (b - 224)%N
          else utf8 t 3 (b - 240)%N
      | S k =>
          let acc' := (acc * 64 + (b - 128))%N in
          match k with
          | O => acc' :: utf8 t 0 0%N
          | S _ => utf8 t k acc'
          end
      end
  end.

Definition txt (s : string) : str := utf8 (bytes s) 0 0%N.

Fixpoint str_eqb (a b : str) : bool :=
  match a, b with
  | [], [] => true
  | x :: a', y :: b' => (x =? y)%N && str_eqb a' b'
  | _, _ => false
  end.

(** [len(s)] *)
Definition len {A} (l : list A) : Z := Z.of_nat (length l).

(** [x in collection] for a collection of strings *)
Definition mem (x : str) (l : list str) : bool := existsb (str_eqb x) l.

Fixpoint starts_with (p s : str) : bool :=
  match p, s with
  | [], _ => true
  | x :: p', y :: s' => (x =? y)%N && starts_with p' s'
  | _ :: _, [] => false
  end.

(** [p in s] for strings: [p] occurs in [s] as a contiguous substring. *)
Fixpoint contains (p s : str) : bool :=
  starts_with p s ||
  match s with
  | [] => false
  | _ :: t => contains p t
  end.

(** [sep.join(parts)] *)
Fixpoint join (sep : str) (parts : list str) : str :=
  match parts with
  | [] => []
  | [p] => p
  | p :: rest => p ++ sep ++ join sep rest
  end.

(* ================================================================== *)
(** * Exceptions *)

Inductive exn := IndexError | ZeroDivisionError.

(** The outcome of a statement: a value, a raised exception, or a loop that
    was still running when its step budget ended. *)
Inductive result (A : Type) : Type :=
| Ok (a : A)
| Raise (e : exn)
| OutOfFuel.

Arguments Ok {A} a.
Arguments Raise {A} e.
Arguments OutOfFuel {A}.

Definition bind {A B} (m : result A) (k : A -> result B) : result B :=
  match m with
  | Ok a => k a
  | Raise e => Raise e
  | OutOfFuel => OutOfFuel
  end.

Notation "x <- m ;; k" := (bind m (fun x => k))
  (at level 61, m at next level, right associativity).

(* ================================================================== *)
(** * Python sequences *)

(** [l[i]]: a negative index counts from the end, an index outside
    [-len(l), len(l)) raises IndexError. *)
Definition py_index {A} (l : list A) (i : Z) : result A :=
  let j := if (i <? 0)%Z then (i + len l)%Z else i in
  if (0 <=? j)%Z && (j <? len l)%Z then
    match nth_error l (Z.to_nat j) with
    | Some x => Ok x
    | None => Raise IndexError
    end
  else Raise IndexError.

(** A slice bound is clamped to [0, len(l)], a negative one counted from
    the end first; slices never raise. *)
Definition clamp (n i : Z) : Z :=
  if (i <? 0)%Z then Z.max 0 (i + n) else Z.min i n.

(** [l[a:b]] *)
Definition py_slice {A} (l : list A) (a b : Z) : list A :=
  let a' := clamp (len l) a in
  let b' := clamp (len l) b in
  firstn (Z.to_nat (b' - a')) (skipn (Z.to_nat a') l).

(** [l[a:]] *)
Definition py_slice_from {A} (l : list A) (a : Z) : list A :=
  skipn (Z.to_nat (clamp (len l) a)) l.

(** [range(start, stop, -1)]: start, start-1, ..., stop+1 *)
Definition range_down (start stop : Z) : list Z :=
  map (fun k => (start - Z.of_nat k)%Z) (seq 0 (Z.to_nat (start - stop))).

(** [collections.Counter(l)]: the distinct elements in order of first
    occurrence, each with its number of occurrences. *)
Fixpoint count (x : str) (l : list str) : Z :=
  match l with
  | [] => 0
  | y :: t => ((if str_eqb x y then 1 else 0) + count x t)%Z
  end.

Fixpoint distinct (seen l : list str) : list str :=
  match l with
  | [] => []
  | x :: t => if mem x seen then distinct seen t else x :: distinct (x :: seen) t
  end.

Definition Counter (l : list str) : list (str * Z) :=
  map (fun k => (k, count k l)) (distinct [] l).

(** [max(items, key=itemgetter(1))]: the first item of largest count. *)
Fixpoint max_item (best : str * Z) (items : list (str * Z)) : str * Z :=
  match items with
  | [] => best
  | it :: t => max_item (if (snd best <? snd it)%Z then it else best) t
  end.

(** [counts.most_common(1)]: a list of at most one item. *)
Definition most_common_1 (counts : list (str * Z)) : list (str * Z) :=
  match counts with
  | [] => []
  | it :: t => [max_item it t]
  end.

(* ================================================================== *)
(** * The Unicode character database

    Four things the program takes from Python's Unicode tables, which are
    no part of the repository.  They are parameters of the whole
    development: what is proved for every [unicode] holds for the tables of
    any Python version. *)

Record unicode : Type := {
  (** [\s] of [re], and the characters [str.strip] and [str.split] remove *)
  isspace : N -> bool;
  (** [\w] of [re]: alphanumeric or underscore; decides [\b] *)
  isword : N -> bool;
  (** [str.lower] *)
  lower : str -> str;
  (** [icase lo hi c]: [c] matches the class [[lo-hi]] under re.IGNORECASE *)
  icase : N -> N -> N -> bool
}.

(* ================================================================== *)
(** * Regular expressions *)

(** An item of a character class: a literal, a range, or [\s]. *)
Inductive citem := Lit (c : N) | Rng (lo hi : N) | Sp.

Definition cset : Type := list citem.

(** The fragment of [re] syntax the program uses.  [*] and [+] are only
    ever applied to a character class in the source, so [Star] and [Plus]
    take one. *)
Inductive re :=
| Eps                      (** the empty pattern *)
| Cls (cs : cset)          (** [[...]], a literal character, [\s] *)
| Cat (a b : re)           (** [ab] *)
| Alt (a b : re)           (** [a|b] *)
| Opt (a : re)             (** [a?] *)
| Star (cs : cset)         (** [[...]*] *)
| Plus (cs : cset)         (** [[...]+] *)
| WordB                    (** [\b] *)
| Bol                      (** [^] *)
| Eol                      (** [$] *)
| Behind (cs : cset).      (** [(?<=[...])] *)

(** Building patterns from literals. *)
Definition chr (a : ascii) : re := Cls [Lit (N_of_ascii a)].

Fixpoint lit_of (s : str) : re :=
  match s with
  | [] => Eps
  | [c] => Cls [Lit c]
  | c :: t => Cat (Cls [Lit c]) (lit_of t)
  end.

Definition lit (s : string) : re := lit_of (txt s).

Fixpoint alts (rs : list re) : re :=
  match rs with
  | [] => Eps
  | [r] => r
  | r :: t => Alt r (alts t)
  end.

Fixpoint cat (rs : list re) : re :=
  match rs with
  | [] => Eps
  | [r] => r
  | r :: t => Cat r (cat t)
  end.

(** Position in a subject string: the character before it, if any, and the
    text from it on. *)
Definition cursor : Type := option N * str.

Section Regex.

Variable U : unicode.

Definition in_item (ic : bool) (it : citem) (c : N) : bool :=
  match it with
  | Lit x => if ic then icase U x x c else (c =? x)%N
  | Rng lo hi => if ic then icase U lo hi c else ((lo <=? c) && (c <=? hi))%N
  | Sp => isspace U c
  end.

Definition in_cset (ic : bool) (cs : cset) (c : N) : bool :=
  existsb (fun it => in_item ic it c) cs.

Definition word_at (o : option N) : bool :=
  match o with
  | Some c => isword U c
  | None => false
  end.

(** [\b]: exactly one of the two neighbours is a word character. *)
Definition boundary (c : cursor) : bool :=
  xorb (word_at (fst c)) (word_at (hd_error (snd c))).

(** All ways [[cs]*] can match at a position, longest first. *)
Fixpoint star (ic : bool) (cs : cset) (prev : option N) (s : str)
  : list cursor :=
  match s with
  | x :: t =>
      if in_cset ic cs x then star ic cs (Some x) t ++ [(prev, s)]
      else [(prev, s)]
  | [] => [(prev, [])]
  end.

(** [run ic r c]: the positions at which a match of [r] begun at [c] can
    end, in the order in which Python's backtracking matcher tries them;
    [ic] is re.IGNORECASE. *)
Fixpoint run (ic : bool) (r : re) (c : cursor) : list cursor :=
  match r with
  | Eps => [c]
  | Cls cs =>
      match snd c with
      | x :: t => if in_cset ic cs x then [(Some x, t)] else []
      | [] => []
      end
  | Cat a b => flat_map (run ic b) (run ic a c)
  | Alt a b => run ic a c ++ run ic b c
  | Opt a => run ic a c ++ [c]
  | Star cs => star ic cs (fst c) (snd c)
  | Plus cs =>
      match snd c with
      | x :: t => if in_cset ic cs x then star ic cs (Some x) t else []
      | [] => []
      end
  | WordB => if boundary c then [c] else []
  | Bol => match fst c with None => [c] | Some _ => [] end
  | Eol =>
      match snd c with
      | [] => [c]
      | [x] => if (x =? 10)%N then [c] else []
      | _ => []
      end
  | Behind cs =>
      match fst c with
      | Some x => if in_cset ic cs x then [c] else []
      | None => []
      end
  end.

Definition consumed (c c' : cursor) : nat :=
  (length (snd c) - length (snd c'))%nat.

(** The match the matcher reports at [c]: the first in priority order, or,
    when [adv] is set, the first that is not empty. *)
Definition hit (adv ic : bool) (r : re) (c : cursor) : option nat :=
  match
    find (fun c' => negb adv || (0 <? consumed c c')%nat) (run ic r c)
  with
  | Some c' => Some (consumed c c')
  | None => None
  end.

(** [re.search]: the leftmost position with a match, as
    [(match.start(), length of the match)]. *)
Fixpoint search_from (ic : bool) (r : re) (prev : option N) (s : str)
  (pos : nat) : option (nat * nat) :=
  match hit false ic r (prev, s) with
  | Some n => Some (pos, n)
  | None =>
      match s with
      | [] => None
      | x :: t => search_from ic r (Some x) t (S pos)
      end
  end.

Definition re_search (ic : bool) (r : re) (s : str) : option (nat * nat) :=
  search_from ic r None s 0.

(** The subject string cut into matches and the characters between them,
    as the scanner behind [re.sub], [re.split] and [re.findall] does it:
    leftmost matches that do not overlap; after an empty match the next
    one at the same position has to be non-empty.  [skip] counts the
    characters of the current match still to pass. *)
Inductive tok := Keep (c : N) | Hit (m : str).

Fixpoint scan (ic : bool) (r : re) (prev : option N) (s : str) (skip : nat)
  : list tok :=
  match s with
  | [] =>
      match skip with
      | O =>
          match hit false ic r (prev, []) with
          | Some _ => [Hit []]
          | None => []
          end
      | S _ => []
      end
  | x :: t =>
      match skip with
      | S k => scan ic r (Some x) t k
      | O =>
          match hit false ic r (prev, s) with
          | Some (S n) => Hit (firstn (S n) s) :: scan ic r (Some x) t n
          | Some O =>
              Hit [] ::
              match hit true ic r (prev, s) with
              | Some (S n) => Hit (firstn (S n) s) :: scan ic r (Some x) t n
              | _ => Keep x :: scan ic r (Some x) t 0
              end
          | None => Keep x :: scan ic r (Some x) t 0
          end
      end
  end.

(** [re.sub(r, repl, s)] for a replacement without group references *)
Definition re_sub (ic : bool) (r : re) (repl s : str) : str :=
  flat_map (fun t => match t with Keep c => [c] | Hit _ => repl end)
           (scan ic r None s 0).

Definition cons_hd (c : N) (ps : list str) : list str :=
  match ps with
  | p :: t => (c :: p) :: t
  | [] => [[c]]
  end.

Fixpoint pieces (ts : list tok) : list str :=
  match ts with
  | [] => [[]]
  | Keep c :: t => cons_hd c (pieces t)
  | Hit _ :: t => [] :: pieces t
  end.

(** [re.split(r, s)] for a pattern without capturing groups *)
Definition re_split (ic : bool) (r : re) (s : str) : list str :=
  pieces (scan ic r None s 0).

(** [re.findall(r, s)] for a pattern without capturing groups *)
Definition re_findall (ic : bool) (r : re) (s : str) : list str :=
  flat_map (fun t => match t with Keep _ => [] | Hit m => [m] end)
           (scan ic r None s 0).

(* ------------------------------------------------------------------ *)
(** ** String methods that consult the Unicode tables *)

Fixpoint lstrip (s : str) : str :=
  match s with
  | x :: t => if isspace U x then lstrip t else s
  | [] => []
  end.

Definition rstrip (s : str) : str := rev (lstrip (rev s)).

Definition strip (s : str) : str := rstrip (lstrip s).

(** [s.split()]: the maximal runs of characters that are not whitespace;
    [cur] is the run being read, latest character first. *)
Fixpoint split_ws (s : str) (cur : str) : list str :=
  match s with
  | [] => match cur with [] => [] | _ => [rev cur] end
  | x :: t =>
      if isspace U x then
        match cur with
        | [] => split_ws t []
        | _ => rev cur :: split_ws t []
        end
      else split_ws t (x :: cur)
  end.

End Regex.

(* ================================================================== *)
(** * The pattern sets of [clean_transcript]

    Each pattern is the regular expression of the source, quoted above
    it, in the order of the source's lists. *)

Definition ch (a : ascii) : N := N_of_ascii a.

Definition ws : cset := [Sp].

(** [hallucination_patterns], compiled with re.IGNORECASE *)
Definition accented : cset :=
  (* äöüáéíóúàèìòùâêîôûãõñ *)
  map Lit [228; 246; 252; 225; 233; 237; 243; 250; 224; 232; 236; 242; 249;
           226; 234; 238; 244; 251; 227; 245; 241]%N.

(** [[a-z]] and [[A-Z]] *)
Definition az : cset := [Rng (ch "a") (ch "z")].
Definition AZ : cset := [Rng (ch "A") (ch "Z")].

Definition accented_word : re :=
  (* \b[A-Z]?[a-z]*[äöüáéíóúàèìòùâêîôûãõñ][a-z]*\b *)
  cat [WordB; Opt (Cls AZ); Star az; Cls accented; Star az; WordB].

(** The four script classes *)
Definition hangul : cset := (* [가-힣] *) [Rng 44032 55203].
Definition cjk : cset := (* [一-龯] *) [Rng 19968 40879].
Definition kana : cset := (* [ぁ-んァ-ン] *) [Rng 12353 12435; Rng 12449 12531].
Definition cyrillic : cset := (* [а-яА-Я] *) [Rng 1072 1103; Rng 1040 1071].

Definition script_classes : list cset := [hangul; cjk; kana; cyrillic].

Definition welsh_gibberish : re :=
  (* \b(sy'n|gyms|gyflen|newidda|roedd|gwilia|gyfly|canyan|ayag|teu|aun)\b *)
  cat [WordB;
       alts (map lit ["sy'n"; "gyms"; "gyflen"; "newidda"; "roedd"; "gwilia";
                      "gyfly"; "canyan"; "ayag"; "teu"; "aun"]%string);
       WordB].

Definition iag : re := (* \bIag\b *) cat [WordB; lit "Iag"; WordB].

Definition hallucination_patterns : list re :=
  [ (* [가-힣]+ *)        Plus hangul;
    (* [一-龯]+ *)        Plus cjk;
    (* [ぁ-んァ-ン]+ *)   Plus kana;
    (* [а-яА-Я]+ *)       Plus cyrillic;
    accented_word;
    welsh_gibberish;
    iag ].

(** The sentence separator of [re.split]: [(?<=[.!?])\s+] *)
Definition sentence_break : re :=
  Cat (Behind [Lit (ch "."); Lit (ch "!"); Lit (ch "?")]) (Plus ws).

(** [\b[a-zA-Z]+\b], the word tokens of [is_coherent_english] *)
Definition word_token : re :=
  cat [WordB; Plus [Rng (ch "a") (ch "z"); Rng (ch "A") (ch "Z")]; WordB].

Definition common_words : list str :=
  map txt
    ["the"; "a"; "an"; "is"; "are"; "was"; "were"; "be"; "been";
     "have"; "has"; "had"; "do"; "does"; "did"; "will"; "would";
     "could"; "should"; "may"; "might"; "must"; "shall"; "can";
     "to"; "of"; "in"; "for"; "on"; "with"; "at"; "by"; "from";
     "this"; "that"; "these"; "those"; "it"; "its"; "you"; "your";
     "we"; "our"; "they"; "their"; "i"; "my"; "me"; "he"; "she";
     "and"; "or"; "but"; "if"; "so"; "as"; "what"; "which"; "who";
     "how"; "when"; "where"; "why"; "all"; "each"; "every"; "both";
     "few"; "more"; "most"; "other"; "some"; "such"; "no"; "not";
     "only"; "same"; "than"; "too"; "very"; "just"; "also"; "now";
     "here"; "there"; "then"; "once"; "going"; "want"; "need";
     "like"; "know"; "think"; "see"; "get"; "make"; "take"; "come";
     "right"; "okay"; "well"; "yeah"; "yes"; "no"; "so"; "really";
     "today"; "already"; "use"; "using"; "copy"; "local"; "laptop"]%string.

Definition lecture_start_patterns : list re :=
  [ (* (?:okay|alright|so|well|hey|hi|hello)?,?\s*my friends *)
    cat [Opt (alts (map lit ["okay"; "alright"; "so"; "well"; "hey"; "hi";
                             "hello"]%string));
         Opt (chr ","); Star ws; lit "my friends"];
    (* (?:okay|alright|so|well)?,?\s*today *)
    cat [Opt (alts (map lit ["okay"; "alright"; "so"; "well"]%string));
         Opt (chr ","); Star ws; lit "today"];
    (* welcome\s+(?:to|back|everyone) *)
    cat [lit "welcome"; Plus ws;
         alts (map lit ["to"; "back"; "everyone"]%string)];
    (* (?:good\s+)?(?:morning|afternoon|evening) *)
    cat [Opt (Cat (lit "good") (Plus ws));
         alts (map lit ["morning"; "afternoon"; "evening"]%string)];
    (* let's\s+(?:get\s+started|begin|start|talk|look) *)
    cat [lit "let's"; Plus ws;
         alts [cat [lit "get"; Plus ws; lit "started"]; lit "begin";
               lit "start"; lit "talk"; lit "look"]];
    (* we're\s+going\s+to *)
    cat [lit "we're"; Plus ws; lit "going"; Plus ws; lit "to"];
    (* going\s+to\s+be\s+a *)
    cat [lit "going"; Plus ws; lit "to"; Plus ws; lit "be"; Plus ws; lit "a"];
    (* hello\s+(?:everyone|everybody|class) *)
    cat [lit "hello"; Plus ws;
         alts (map lit ["everyone"; "everybody"; "class"]%string)] ].

(** [^word\.?$] *)
Definition alone (w : string) : re := cat [Bol; lit w; Opt (chr "."); Eol].

Definition chatter_patterns : list re :=
  [ (* ^hey\.?$ *)           alone "hey";
    (* am i allowed to *)    lit "am i allowed to";
    (* can i (?:ask|get) *)  Cat (lit "can i ") (Alt (lit "ask") (lit "get"));
    (* i love to have *)     lit "i love to have";
    (* this is like doing *) lit "this is like doing";
    (* ^okay\.?$ *)          alone "okay";
    (* ^yeah\.?$ *)          alone "yeah";
    (* ^right\.?$ *)         alone "right";
    (* ^sure\.?$ *)          alone "sure" ].

Definition thank_you_variants : list str :=
  map txt
    ["thank you."; "thank you"; "thanks."; "thanks";
     "thank you!"; "thanks!"; "bye."; "bye"; "goodbye.";
     "goodbye"; "see you."; "see you"; "okay."; "okay";
     "alright."; "alright"; "hey."; "hey"; "yeah."; "yeah"]%string.

Definition informal_indicators : list str :=
  map txt
    ["okay"; "alright"; "hey"; "yeah"; "um"; "uh";
     "like"; "i mean"; "you know"; "right"]%string.

(** [\s+], collapsed to one space by the final clean-up *)
Definition ws_run : re := Plus ws.

(** [^[,.\s]+], removed by the final clean-up *)
Definition leading_punct : re :=
  Cat Bol (Plus [Lit (ch ","); Lit (ch "."); Sp]).

(* ================================================================== *)
(** * [clean_transcript] *)

Section Cleaner.

Variable U : unicode.

Local Open Scope Z_scope.

(** First pass: every hallucination pattern in turn deleted from the whole
    text.
<<
    cleaned_text = text
    for pattern in hallucination_patterns:
        cleaned_text = re.sub(pattern, '', cleaned_text, flags=re.IGNORECASE)
>> *)
Definition normalize (text : str) : str :=
  fold_left (fun cleaned_text pattern => re_sub U true pattern [] cleaned_text)
            hallucination_patterns text.

(** [sentences = re.split(r'(?<=[.!?])\s+', cleaned_text)] *)
Definition split_sentences (cleaned_text : str) : list str :=
  re_split U false sentence_break cleaned_text.

(** [a / b >= 0.25] on integers [a], [b].  [/] is true division: it raises
    ZeroDivisionError for [b = 0] and otherwise gives the double nearest to
    the quotient.  0.25 is a double and rounding is monotone, so the test
    is that of the exact quotient (the callers have [a <= 2], where
    quotients below a quarter are far from it). *)
Definition quarter_or_more (a b : Z) : result bool :=
  if b =? 0 then Raise ZeroDivisionError else Ok (b <=? 4 * a).

Definition is_coherent_english (s : str) : result bool :=
  let s := strip U s in
  if (match s with [] => true | _ => false end) || (len s <? 10) then Ok false
  else
    let words := re_findall U false word_token (lower U s) in
    if len words <? 3 then Ok false
    else
      let english_word_count :=
        len (filter (fun w => mem w common_words) words) in
      if english_word_count >=? 3 then Ok true
      else if len words >? 0 then
        q <- quarter_or_more english_word_count (len words) ;;
        Ok q
      else Ok false.

(** The inner loop of the start detector: the first pattern of the list
    that matches somewhere in the sentence gives [match.start()]. *)
Fixpoint first_match (patterns : list re) (sentence_lower : str)
  : option Z :=
  match patterns with
  | [] => None
  | pattern :: rest =>
      match re_search U false pattern sentence_lower with
      | Some (start, _) => Some (Z.of_nat start)
      | None => first_match rest sentence_lower
      end
  end.

(** [for i, sentence in enumerate(sentences)]: [todo] holds the sentences
    from index [i] on. *)
Fixpoint start_loop (sentences : list str) (i : Z) (todo : list str)
  (start_index start_char_offset : Z) : result (Z * Z) :=
  match todo with
  | [] => Ok (start_index, start_char_offset)
  | sentence :: todo' =>
      let sentence_lower := lower U sentence in
      let '(start_index, start_char_offset) :=
        match first_match lecture_start_patterns sentence_lower with
        | Some off => (i, off)
        | None => (start_index, start_char_offset)
        end in
      if start_char_offset >? 0 then Ok (start_index, start_char_offset)
      else
        coherent <- is_coherent_english sentence ;;
        if coherent && (len sentence >? 50) then
          if i + 2 <? len sentences then
            s1 <- py_index sentences (i + 1) ;;
            c1 <- is_coherent_english s1 ;;
            next_coherent <-
              (if c1 then Ok true
               else s2 <- py_index sentences (i + 2) ;;
                    is_coherent_english s2) ;;
            if next_coherent then Ok (i, start_char_offset)
            else start_loop sentences (i + 1) todo'
                            start_index start_char_offset
          else Ok (i, start_char_offset)
        else start_loop sentences (i + 1) todo' start_index start_char_offset
  end.

(** The Start-Boundary Detector: [(start_index, start_char_offset)]. *)
Definition find_start (sentences : list str) : result (Z * Z) :=
  start_loop sentences 0 sentences 0 0.

(** Some chatter pattern is found in the trimmed, lower-cased sentence. *)
Definition is_chatter (sentence : str) : bool :=
  let sentence_lower := lower U (strip U sentence) in
  existsb (fun pattern =>
             match re_search U false pattern sentence_lower with
             | Some _ => true
             | None => false
             end) chatter_patterns.

(** The body of the backward scan, over the indices of [range]. *)
Fixpoint chatter_loop (sentences : list str) (indices : list Z)
  (chatter_start_index : option Z) : result (option Z) :=
  match indices with
  | [] => Ok chatter_start_index
  | i :: rest =>
      s <- py_index sentences i ;;
      chatter_loop sentences rest
        (if is_chatter s then Some i else chatter_start_index)
  end.

(** Phase A of the tail trimmer.
<<
    for i in range(len(sentences) - 1, max(0, len(sentences) - 30), -1):
>> *)
Definition chatter_scan (sentences : list str) : result (option Z) :=
  chatter_loop sentences
    (range_down (len sentences - 1) (Z.max 0 (len sentences - 30))) None.

(** [if chatter_start_index:] -- None and 0 are false. *)
Definition truthy (o : option Z) : bool :=
  match o with
  | Some i => negb (i =? 0)
  | None => false
  end.

(** [end_index] after Phase A *)
Definition chatter_end (sentences : list str) : result Z :=
  chatter_start_index <- chatter_scan sentences ;;
  Ok (match chatter_start_index with
      | Some i => if truthy chatter_start_index then i else len sentences
      | None => len sentences
      end).

(** One test of Phase B: the sentence is dropped. *)
Definition is_filler (last_sentence : str) : bool :=
  if mem last_sentence thank_you_variants then true
  else if len last_sentence <? 15 then true
  else
    let word_count := len (split_ws U last_sentence []) in
    let informal_count :=
      len (filter (fun ind => contains ind last_sentence)
                  informal_indicators) in
    (word_count <? 10) && (informal_count >=? 2).

(** Phase B: [while end_index > start_index: ...]; [fuel] bounds the number
    of times the loop condition is tested. *)
Fixpoint strip_tail (fuel : nat) (sentences : list str)
  (start_index end_index : Z) : result Z :=
  match fuel with
  | O => OutOfFuel
  | S fuel' =>
      if end_index >? start_index then
        s <- py_index sentences (end_index - 1) ;;
        let last_sentence := lower U (strip U s) in
        if is_filler last_sentence
        then strip_tail fuel' sentences start_index (end_index - 1)
        else Ok end_index
      else Ok end_index
  end.

(** [count >= len(remaining) * 0.6] for an integer [count] and
    [3 <= len(remaining) <= 15]: the double [n * 0.6] is 3.0, 6.0 and 9.0
    for n = 5, 10, 15 and lies strictly between the integers around
    3n/5 otherwise, so the test is [5 * count >= 3 * n]. *)
Definition is_most (count n : Z) : bool := 3 * n <=? 5 * count.

(** The body of the repetition check, over the indices of [range]. *)
Fixpoint repetition_loop (sentences : list str) (end_index : Z)
  (indices : list Z) : result Z :=
  match indices with
  | [] => Ok end_index
  | i :: rest =>
      let remaining :=
        map (fun s => lower U (strip U s)) (py_slice sentences i end_index) in
      if len remaining >=? 3 then
        let counts := Counter remaining in
        top <- py_index (most_common_1 counts) 0 ;;
        if is_most (snd top) (len remaining) then Ok i
        else repetition_loop sentences end_index rest
      else repetition_loop sentences end_index rest
  end.

(** The Repetition Collapser.
<<
    if end_index > start_index + 5:
        for i in range(end_index - 1, max(end_index - 15, start_index), -1):
>> *)
Definition collapse (sentences : list str) (start_index end_index : Z)
  : result Z :=
  if end_index >? start_index + 5 then
    repetition_loop sentences end_index
      (range_down (end_index - 1) (Z.max (end_index - 15) start_index))
  else Ok end_index.

(** The Assembler. *)
Definition assemble (sentences : list str)
  (start_index start_char_offset end_index : Z) : str :=
  let cleaned_sentences := py_slice sentences start_index end_index in
  let cleaned_sentences :=
    match cleaned_sentences with
    | first :: rest =>
        if start_char_offset >? 0
        then lstrip U (py_slice_from first start_char_offset) :: rest
        else cleaned_sentences
    | [] => []
    end in
  let cleaned_text := join (txt " ") cleaned_sentences in
  let cleaned_text := strip U (re_sub U false ws_run (txt " ") cleaned_text) in
  re_sub U false leading_punct [] cleaned_text.

(** The sentence range the stages settle on. *)
Record bounds : Type := {
  start_index : Z;
  start_char_offset : Z;
  end_chatter : Z;     (** [end_index] after Phase A *)
  end_trimmed : Z;     (** [end_index] after Phase B *)
  end_index : Z        (** [end_index] after the repetition check *)
}.

Definition find_bounds (sentences : list str) : result bounds :=
  start <- find_start sentences ;;
  e1 <- chatter_end sentences ;;
  e2 <- strip_tail (S (length sentences)) sentences (fst start) e1 ;;
  e3 <- collapse sentences (fst start) e2 ;;
  Ok {| start_index := fst start; start_char_offset := snd start;
        end_chatter := e1; end_trimmed := e2; end_index := e3 |}.

Definition clean_transcript (text : str) : result str :=
  let sentences := split_sentences (normalize text) in
  b <- find_bounds sentences ;;
  Ok (assemble sentences (start_index b) (start_char_offset b) (end_index b)).

End Cleaner.

(* ================================================================== *)
(** * Character tables for Basic Latin and Latin-1

    A [unicode] to compute with.  It is Python's on U+0000-U+00FF; above
    that it knows the whitespace characters and the Cyrillic capitals, and
    takes the letters of the scripts the program names for word
    characters. *)

Definition between (lo hi c : N) : bool := ((lo <=? c) && (c <=? hi))%N.

Definition isspace1 (c : N) : bool :=
  between 9 13 c || between 28 32 c || (c =? 133)%N || (c =? 160)%N ||
  (c =? 5760)%N || between 8192 8202 c || between 8232 8233 c ||
  (c =? 8239)%N || (c =? 8287)%N || (c =? 12288)%N.

Definition isupper1 (c : N) : bool :=
  between 65 90 c || (between 192 222 c && negb (c =? 215)%N) ||
  between 1040 1071 c.

Definition islower1 (c : N) : bool :=
  between 97 122 c || (between 224 254 c && negb (c =? 247)%N) ||
  between 1072 1103 c.

Definition lower1 (c : N) : N := if isupper1 c then (c + 32)%N else c.

Definition upper1 (c : N) : N := if islower1 c then (c - 32)%N else c.

Definition isword1 (c : N) : bool :=
  between 48 57 c || between 65 90 c || (c =? 95)%N || between 97 122 c ||
  (c =? 170)%N || between 178 179 c || (c =? 181)%N || between 185 186 c ||
  between 188 190 c ||
  (between 192 255 c && negb (c =? 215)%N && negb (c =? 247)%N) ||
  between 1040 1103 c || between 12353 12435 c || between 12449 12531 c ||
  between 19968 40879 c || between 44032 55203 c.

Definition icase1 (lo hi c : N) : bool :=
  between lo hi c || between lo hi (lower1 c) || between lo hi (upper1 c).

Definition latin1 : unicode :=
  {| isspace := isspace1; isword := isword1;
     lower := map lower1; icase := icase1 |}.

(* ================================================================== *)
(** * Notions used in the statements *)

(** A pattern that cannot match the empty string. *)
Definition never_empty (U : unicode) (ic : bool) (r : re) : Prop :=
  forall c c', In c' (run U ic r c) -> (length (snd c') < length (snd c))%nat.

(** The characters the scanner leaves outside all matches. *)
Definition kept (ts : list tok) : str :=
  flat_map (fun t => match t with Keep c => [c] | Hit _ => [] end) ts.

(** The number of characters in a list of strings. *)
Fixpoint total (l : list str) : nat :=
  match l with
  | [] => 0
  | s :: t => length s + total t
  end.

(** [sentences[i]] for an index inside the list *)
Definition sentence (ss : list str) (i : Z) : str := nth (Z.to_nat i) ss [].

(** The indices Phase A visits:
    [range(len(sentences) - 1, max(0, len(sentences) - 30), -1)]. *)
Definition in_window (ss : list str) (i : Z) : Prop :=
  (Z.max 0 (len ss - 30) < i <= len ss - 1)%Z.

(** Sentence [i] exists and matches some chatter pattern. *)
Definition chatter_at (U : unicode) (ss : list str) (i : Z) : Prop :=
  (0 <= i < len ss)%Z /\ is_chatter U (sentence ss i) = true.

(** The sentence is one of the filler phrases once trimmed and
    lower-cased. *)
Definition filler_phrase (U : unicode) (s : str) : Prop :=
  mem (lower U (strip U s)) thank_you_variants = true.

(** What the inner loop of the start detector finds in a sentence:
    [match.start()] of the first lecture-start pattern that matches. *)
Definition pattern_hit (U : unicode) (s : str) : option Z :=
  first_match U lecture_start_patterns (lower U s).

(** [is_coherent_english] as a plain predicate *)
Definition coherent (U : unicode) (s : str) : bool :=
  match is_coherent_english U s with
  | Ok b => b
  | _ => false
  end.

(** The fallback test of the start detector at sentence [i]: coherent,
    longer than 50 characters and, when two more sentences follow, one of
    them coherent as well. *)
Definition fallback_ok (U : unicode) (ss : list str) (i : Z) : bool :=
  coherent U (sentence ss i) && (len (sentence ss i) >? 50)%Z &&
  (if (i + 2 <? len ss)%Z
   then coherent U (sentence ss (i + 1)) || coherent U (sentence ss (i + 2))
   else true).

(** Sentence [i] neither matches a lecture-start pattern nor passes the
    fallback test. *)
Definition quiet (U : unicode) (ss : list str) (i : Z) : Prop :=
  pattern_hit U (sentence ss i) = None /\ fallback_ok U ss i = false.

(** The character before the position reached from one after [prev] by
    passing over [l]. *)
Fixpoint after (prev : option N) (l : str) : option N :=
  match l with
  | [] => prev
  | x :: t => after (Some x) t
  end.

(** The word characters at the front of a string *)
Fixpoint word_prefix (U : unicode) (s : str) : str :=
  match s with
  | x :: t => if isword U x then x :: word_prefix U t else []
  | [] => []
  end.

(** The strings [accented_word] can match: at most one character of
    [[A-Z]], characters of [[a-z]], one accented character, characters of
    [[a-z]], all taken under re.IGNORECASE. *)
Definition shaped (U : unicode) (m : str) : Prop :=
  exists u l c l',
    m = u ++ l ++ c :: l' /\
    (u = [] \/ exists x, u = [x] /\ in_cset U true AZ x = true) /\
    Forall (fun x => in_cset U true az x = true) l /\
    in_cset U true accented c = true /\
    Forall (fun x => in_cset U true az x = true) l'.

(** What [accented_word] relies on in the Unicode tables: a character
    that one of its classes accepts under re.IGNORECASE is a word
    character. *)
Definition letters_are_words (U : unicode) : Prop :=
  forall c,
    in_cset U true az c || in_cset U true AZ c || in_cset U true accented c
    = true ->
    isword U c = true.

(** No character of the string belongs to one of the four script classes
    (under re.IGNORECASE). *)
Definition no_script (U : unicode) (s : str) : Prop :=
  Forall (fun k => existsb (fun cs => in_cset U true cs k) script_classes
                   = false) s.

(** The two passes of the normalizer that follow the accented-word pass *)
Definition gibberish_passes (U : unicode) (s : str) : str :=
  re_sub U true iag [] (re_sub U true welsh_gibberish [] s).

(* ================================================================== *)
(** * Further notions: what the scanner and the stages preserve *)

(** The text a token stands for. *)
Definition tok_text (t : tok) : str :=
  match t with
  | Keep c => [c]
  | Hit m => m
  end.

(** [a] is [b] with some characters left out, the order kept. *)
Inductive subseq {A : Type} : list A -> list A -> Prop :=
| subseq_nil : subseq [] []
| subseq_skip x a b : subseq a b -> subseq a (x :: b)
| subseq_take x a b : subseq a b -> subseq (x :: a) (x :: b).

(** [a] occurs in [b] as one contiguous block. *)
Definition infix {A : Type} (a b : list A) : Prop :=
  exists pre post, b = pre ++ a ++ post.

(** The characters of a string that are no whitespace. *)
Definition nonspace (U : unicode) (s : str) : str :=
  filter (fun c => negb (isspace U c)) s.

(** The number of characters of the class at the front of a string. *)
Fixpoint span (U : unicode) (ic : bool) (cs : cset) (s : str) : nat :=
  match s with
  | x :: t => if in_cset U ic cs x then S (span U ic cs t) else 0
  | [] => 0
  end.

(** Whitespace in normal form: the only whitespace character is the
    space, and no two whitespace characters are adjacent. *)
Fixpoint collapsed (U : unicode) (s : str) : Prop :=
  match s with
  | [] => True
  | a :: t =>
      (isspace U a = true ->
       a = 32%N /\
       match t with
       | b :: _ => isspace U b = false
       | [] => True
       end) /\
      collapsed U t
  end.

(** [.], [!] or [?] *)
Definition is_terminal (c : N) : bool :=
  ((c =? ch ".") || (c =? ch "!") || (c =? ch "?"))%N.

(** The sentence ends with terminal punctuation. *)
Definition ends_terminal (s : str) : Prop :=
  exists body c, s = body ++ [c] /\ is_terminal c = true.

(** The sentence does not begin with whitespace. *)
Definition starts_clean (U : unicode) (s : str) : Prop :=
  match s with
  | c :: _ => isspace U c = false
  | [] => True
  end.

(** The class of the final clean-up: [[,.\s]] *)
Definition punct_or_space : cset := [Lit (ch ","); Lit (ch "."); Sp].

(** Every match in the token list is whitespace. *)
Definition ws_hits (U : unicode) (ts : list tok) : Prop :=
  Forall (fun t => match t with
                   | Hit m => Forall (fun c => isspace U c = true) m
                   | Keep _ => True
                   end) ts.

(** The character before a position is terminal punctuation. *)
Definition terminal_at (p : option N) : Prop :=
  match p with
  | Some c => is_terminal c = true
  | None => False
  end.

(** Phase B drops the sentence. *)
Definition droppable (U : unicode) (s : str) : bool :=
  is_filler U (lower U (strip U s)).

(** The window of the repetition check at cut point [i]:
    [[s.strip().lower() for s in sentences[i:end_index]]] *)
Definition window (U : unicode) (ss : list str) (i e : Z) : list str :=
  map (fun s => lower U (strip U s)) (py_slice ss i e).

(** The window holds at least three sentences and one text makes up at
    least 60% of it. *)
Definition looping (U : unicode) (ss : list str) (i e : Z) : Prop :=
  (3 <= len (window U ss i e))%Z /\
  exists phrase,
    In phrase (window U ss i e) /\
    (3 * len (window U ss i e) <= 5 * count phrase (window U ss i e))%Z.

(** The loop of the start detector ends at sentence [i]: a lecture-start
    pattern matches after position 0, or the fallback test passes. *)
Definition stops (U : unicode) (ss : list str) (i : Z) : bool :=
  match pattern_hit U (sentence ss i) with
  | Some off => (off >? 0)%Z
  | None => false
  end || fallback_ok U ss i.

(** The text after the four script passes, the first four of the
    normalizer: the text the accented-word pass works on. *)
Definition script_passes (U : unicode) (s : str) : str :=
  fold_left (fun cleaned_text cs => re_sub U true (Plus cs) [] cleaned_text)
            script_classes s.

(** What the accented-word token relies on in the Unicode tables: a
    character that [[a-z]] or the accent class accepts under
    re.IGNORECASE belongs to none of the four script classes. *)
Definition letters_are_no_script (U : unicode) : Prop :=
  forall c,
    in_cset U true az c || in_cset U true accented c = true ->
    existsb (fun cs => in_cset U true cs c) script_classes = false.

(* ================================================================== *)
(** * Stream URLs *)

(** [is_valid_m3u8_url]: not a JSONP request, and [".m3u8"] occurs. *)
Definition is_valid_m3u8_url (url : str) : bool :=
  if contains (txt "callback=") url &&
     contains (txt "responseFormat=jsonp") url
  then false
  else if contains (txt ".m3u8") url then true
  else false.

(** [clean_m3u8_url].  [rebuild] stands for the round through
    [urlparse], [parse_qs] without the keys [callback], [responseFormat]
    and [_], [urlencode] and [urlunparse]. *)
Definition clean_m3u8_url (rebuild : str -> str) (url : str) : str :=
  if contains (txt "responseFormat=jsonp") url ||
     contains (txt "callback=") url
  then rebuild url
  else url.

(** An entry of the performance log as the loop of [extract_m3u8_url]
    sees it: a [Network.requestWillBeSent] message with its request URL,
    or an entry the loop passes over (another method, or a message whose
    decoding ends in the [JSONDecodeError] or [KeyError] the loop
    catches). *)
Inductive log_entry :=
| RequestWillBeSent (request_url : str)
| Passed.

(** [if m3u8_url:] for a value that is [None] or a string. *)
Definition found (m3u8_url : option str) : bool :=
  match m3u8_url with
  | Some (_ :: _) => true
  | _ => false
  end.

Definition master_names : list str :=
  [txt "master.m3u8"; txt "index.m3u8"].

Definition segment_names : list str :=
  [txt "chunklist"; txt "media"; txt "segment"].

Section StreamCapture.

Variable U : unicode.

(** [any(x in request_url.lower() for x in names)] *)
Definition names_in (names : list str) (request_url : str) : bool :=
  existsb (fun x => contains x (lower U request_url)) names.

(** [for log in logs: ...] over one batch of the performance log; the
    pair is [(m3u8_url, all_m3u8_urls)] when the loop is left. *)
Fixpoint scan_logs (logs : list log_entry) (m3u8_url : option str)
  (all_m3u8_urls : list str) : option str * list str :=
  match logs with
  | [] => (m3u8_url, all_m3u8_urls)
  | Passed :: logs' => scan_logs logs' m3u8_url all_m3u8_urls
  | RequestWillBeSent request_url :: logs' =>
      if contains (txt ".m3u8") request_url then
        if contains (txt "callback=") request_url &&
           contains (txt "responseFormat=jsonp") request_url
        then scan_logs logs' m3u8_url all_m3u8_urls
        else
          let all_m3u8_urls := all_m3u8_urls ++ [request_url] in
          if names_in master_names request_url
          then (Some request_url, all_m3u8_urls)
          else if names_in segment_names request_url
          then scan_logs logs'
                 (if negb (found m3u8_url) then Some request_url
                  else m3u8_url)
                 all_m3u8_urls
          else scan_logs logs' m3u8_url all_m3u8_urls
      else scan_logs logs' m3u8_url all_m3u8_urls
  end.

(** [while time.time() - start_time < timeout: ...]: [batches] holds what
    [driver.get_log] returns at each turn the clock allows. *)
Fixpoint poll (batches : list (list log_entry)) (m3u8_url : option str)
  (all_m3u8_urls : list str) : option str * list str :=
  match batches with
  | [] => (m3u8_url, all_m3u8_urls)
  | logs :: batches' =>
      let '(m3u8_url, all_m3u8_urls) :=
        scan_logs logs m3u8_url all_m3u8_urls in
      if found m3u8_url then (m3u8_url, all_m3u8_urls)
      else poll batches' m3u8_url all_m3u8_urls
  end.

(** The value of [m3u8_url] when the browser is closed; [m3u8_matches]
    is what [re.findall] returns on the page source. *)
Definition stream_url (batches : list (list log_entry))
  (m3u8_matches : list str) : option str :=
  let '(m3u8_url, all_m3u8_urls) := poll batches None [] in
  let m3u8_url :=
    match all_m3u8_urls with
    | first :: _ => if negb (found m3u8_url) then Some first else m3u8_url
    | [] => m3u8_url
    end in
  if negb (found m3u8_url) then
    let valid_matches := filter is_valid_m3u8_url m3u8_matches in
    match valid_matches with
    | first :: _ => Some first
    | [] => m3u8_url
    end
  else m3u8_url.

(** [extract_m3u8_url] once the browser runs: [None] is the
    [ValueError] of a page without a stream. *)
Definition extract_m3u8_url (rebuild : str -> str)
  (batches : list (list log_entry)) (m3u8_matches : list str)
  : option str :=
  let m3u8_url := stream_url batches m3u8_matches in
  if negb (found m3u8_url) then None
  else option_map (clean_m3u8_url rebuild) m3u8_url.

End StreamCapture.

(** The request URLs of a batch, in order. *)
Definition requests (logs : list log_entry) : list str :=
  flat_map (fun e => match e with
                     | RequestWillBeSent u => [u]
                     | Passed => []
                     end) logs.

(** The request URLs of a batch that are stream URLs. *)
Definition candidates (logs : list log_entry) : list str :=
  filter is_valid_m3u8_url (requests logs).

Definition is_master (U : unicode) (url : str) : bool :=
  names_in U master_names url.

Definition is_segment (U : unicode) (url : str) : bool :=
  names_in U segment_names url.

(** The URL names a master playlist or a segment playlist. *)
Definition keyed (U : unicode) (url : str) : bool :=
  is_master U url || is_segment U url.

(* ================================================================== *)
(** * The callers of the cleaner *)

From Stdlib Require QArith.

(** What a call into the outside world gives back: a value, or an
    exception, of which the callers only read [str(e)]. *)
Inductive outcome (A : Type) : Type :=
| Returns (a : A)
| Raises (message : str).

Arguments Returns {A} a.
Arguments Raises {A} message.

(** [str(e)] for the exceptions the cleaner's statements can raise. *)
Definition exn_message (e : exn) : str :=
  match e with
  | IndexError => txt "list index out of range"
  | ZeroDivisionError => txt "division by zero"
  end.

(** A dict with string keys. *)
Definition dict (A : Type) : Type := str -> option A.

(** [d[k] = v] *)
Definition put {A : Type} (k : str) (v : A) (d : dict A) : dict A :=
  fun k' => if str_eqb k' k then Some v else d k'.

(** [transcript[:500] if len(transcript) > 500 else transcript] *)
Definition preview (transcript : str) : str :=
  if (len transcript >? 500)%Z then py_slice transcript 0 500
  else transcript.

(** ** [transcribe_podcast] and what it calls *)

(** The calls that can change the file system, in the order they are
    made: the temporary directory and its clean-up, the browser (which
    installs its driver), the two downloaders, Whisper (which loads its
    model), and the functions of [os] and [open].  A call is recorded
    whether it returns or raises: what it did to the files before it
    raised is not known. *)
Inductive effect :=
| TemporaryDirectory (temp_dir : str)
| Browser (url : str)
| Ffmpeg (m3u8_url output_path : str)
| Ytdlp (url output_dir : str)
| Whisper (audio_path model : str)
| Makedirs (directory : str)
| OpenFile (path : str)
| WriteFile (text path : str)
| RemoveFile (path : str)
| Cleanup (temp_dir : str).


(** The outside world of one call of [transcribe_podcast]: whether the
    three imports and [ffmpeg -version] succeed, [TemporaryDirectory]
    and its clean-up, the browser, the two downloaders and Whisper, the
    clock, and the functions of [os] and [open]. *)
Record cli_world := {
  import_whisper : bool;
  import_selenium : bool;
  import_webdriver_manager : bool;
  ffmpeg_version : bool;
  mkdtemp : outcome str;
  cleanup : str -> outcome unit;
  getcwd : str;
  call_extract_m3u8_url : str -> outcome str;
  download_timestamp : str;
  os_path_join : str -> str -> str;
  call_download_with_ffmpeg : str -> str -> outcome str;
  call_download_with_ytdlp : str -> str -> outcome str;
  call_transcribe_audio : str -> str -> option str -> outcome str;
  cli_timestamp : str;
  os_path_dirname : str -> str;
  os_makedirs : str -> outcome unit;
  open_w : str -> outcome unit;
  write : str -> str -> outcome unit;
  os_remove : str -> outcome unit
}.


(** [download_audio]: what it returns or raises, and the calls it
    made. *)
Definition download_audio (w : cli_world) (url output_dir : str)
  : outcome str * list effect :=
  if contains (txt "podcast.ucsd.edu") url then
    match call_extract_m3u8_url w url with
    | Raises e => (Raises e, [Browser url])
    | Returns m3u8_url =>
        let timestamp := download_timestamp w in
        let output_path :=
          os_path_join w output_dir
            (txt "podcast_" ++ timestamp ++ txt ".mp3") in
        (call_download_with_ffmpeg w m3u8_url output_path,
         [Browser url; Ffmpeg m3u8_url output_path])
    end
  else
    (call_download_with_ytdlp w url output_dir, [Ytdlp url output_dir]).

(** [save_transcript]: [os.makedirs], then [open(output_path, "w")], then
    [f.write(text)] with the closing of the file. *)
Definition save_transcript (w : cli_world) (text output_path : str)
  : outcome str * list effect :=
  let directory :=
    match os_path_dirname w output_path with
    | c :: d => c :: d
    | [] => txt "."
    end in
  match os_makedirs w directory with
  | Raises e => (Raises e, [Makedirs directory])
  | Returns _ =>
      match open_w w output_path with
      | Raises e => (Raises e, [Makedirs directory; OpenFile output_path])
      | Returns _ =>
          match write w output_path text with
          | Raises e =>
              (Raises e,
               [Makedirs directory; OpenFile output_path;
                WriteFile text output_path])
          | Returns _ =>
              (Returns output_path,
               [Makedirs directory; OpenFile output_path;
                WriteFile text output_path])
          end
      end
  end.

Section CommandLine.

Variable U : unicode.



End CommandLine.

(** ** The web backend *)

Module App.

Section Backend.

Variable datetime : Type.

(** [class TranscriptionJob] *)
Record TranscriptionJob := {
  job_id : str;
  url : str;
  model : str;
  output_folder : option str;
  status : str;
  progress : Z;
  eta_minutes : option QArith_base.Q;
  error : option str;
  transcript_path : option str;
  transcript_preview : option str;
  created_at : datetime;
  started_at : option datetime;
  completed_at : option datetime
}.

Definition set_status (v : str) (j : TranscriptionJob) :=
  {| job_id := job_id j; url := url j; model := model j;
     output_folder := output_folder j; status := v; progress := progress j;
     eta_minutes := eta_minutes j; error := error j;
     transcript_path := transcript_path j;
     transcript_preview := transcript_preview j;
     created_at := created_at j; started_at := started_at j;
     completed_at := completed_at j |}.

Definition set_progress (v : Z) (j : TranscriptionJob) :=
  {| job_id := job_id j; url := url j; model := model j;
     output_folder := output_folder j; status := status j; progress := v;
     eta_minutes := eta_minutes j; error := error j;
     transcript_path := transcript_path j;
     transcript_preview := transcript_preview j;
     created_at := created_at j; started_at := started_at j;
     completed_at := completed_at j |}.

Definition set_eta_minutes (v : option QArith_base.Q)
  (j : TranscriptionJob) :=
  {| job_id := job_id j; url := url j; model := model j;
     output_folder := output_folder j; status := status j;
     progress := progress j; eta_minutes := v; error := error j;
     transcript_path := transcript_path j;
     transcript_preview := transcript_preview j;
     created_at := created_at j; started_at := started_at j;
     completed_at := completed_at j |}.

Definition set_error (v : option str) (j : TranscriptionJob) :=
  {| job_id := job_id j; url := url j; model := model j;
     output_folder := output_folder j; status := status j;
     progress := progress j; eta_minutes := eta_minutes j; error := v;
     transcript_path := transcript_path j;
     transcript_preview := transcript_preview j;
     created_at := created_at j; started_at := started_at j;
     completed_at := completed_at j |}.

Definition set_transcript_path (v : option str) (j : TranscriptionJob) :=
  {| job_id := job_id j; url := url j; model := model j;
     output_folder := output_folder j; status := status j;
     progress := progress j; eta_minutes := eta_minutes j; error := error j;
     transcript_path := v;
     transcript_preview := transcript_preview j;
     created_at := created_at j; started_at := started_at j;
     completed_at := completed_at j |}.

Definition set_transcript_preview (v : option str) (j : TranscriptionJob) :=
  {| job_id := job_id j; url := url j; model := model j;
     output_folder := output_folder j; status := status j;
     progress := progress j; eta_minutes := eta_minutes j; error := error j;
     transcript_path := transcript_path j;
     transcript_preview := v;
     created_at := created_at j; started_at := started_at j;
     completed_at := completed_at j |}.

Definition set_started_at (v : option datetime) (j : TranscriptionJob) :=
  {| job_id := job_id j; url := url j; model := model j;
     output_folder := output_folder j; status := status j;
     progress := progress j; eta_minutes := eta_minutes j; error := error j;
     transcript_path := transcript_path j;
     transcript_preview := transcript_preview j;
     created_at := created_at j; started_at := v;
     completed_at := completed_at j |}.

Definition set_completed_at (v : option datetime) (j : TranscriptionJob) :=
  {| job_id := job_id j; url := url j; model := model j;
     output_folder := output_folder j; status := status j;
     progress := progress j; eta_minutes := eta_minutes j; error := error j;
     transcript_path := transcript_path j;
     transcript_preview := transcript_preview j;
     created_at := created_at j; started_at := started_at j;
     completed_at := v |}.

(** The module's two dicts, [jobs] and [transcripts]. *)
Record server := {
  jobs : dict TranscriptionJob;
  transcripts : dict str
}.

(** [estimates] of [estimate_time], minutes per hour of audio. *)
Definition estimates : list (str * QArith_base.Q) :=
  [(txt "tiny", QArith_base.Qmake 25 2);
   (txt "base", QArith_base.Qmake 25 1);
   (txt "small", QArith_base.Qmake 105 2);
   (txt "medium", QArith_base.Qmake 150 1);
   (txt "large", QArith_base.Qmake 300 1)].

(** [estimate_time]: [estimates.get(model, 25)] *)
Definition estimate_time (model : str) : QArith_base.Q :=
  match find (fun kv => str_eqb (fst kv) model) estimates with
  | Some kv => snd kv
  | None => QArith_base.Qmake 25 1
  end.

(** The outside world of one run of a job: the clock, the two steps
    imported from the transcriber, and the file system.
    [path_join a b] is [str(Path(a) / b)]. *)
Record world := {
  now_started : datetime;
  timestamp : str;
  now_completed : datetime;
  download_audio : str -> str -> outcome str;
  transcribe_audio : str -> str -> outcome str;
  mkdir : str -> outcome unit;
  path_join : str -> str -> str;
  save_transcript : str -> str -> outcome unit
}.

Variable U : unicode.

(** [except Exception as e: ...] *)
Definition failed (s : server) (id : str) (job : TranscriptionJob)
  (e : str) : server :=
  let job := set_status (txt "error") job in
  let job := set_error (Some e) job in
  let job := set_progress 0 job in
  {| jobs := put id job (jobs s); transcripts := transcripts s |}.

(** [run_transcription]; the job is the object [jobs] holds, so what is
    assigned to it is seen through [jobs]. *)
Definition run_transcription (w : world) (id : str) (s : server)
  : result server :=
  match jobs s id with
  | None => Ok s
  | Some job =>
      let job := set_started_at (Some (now_started w)) job in
      let job := set_status (txt "capturing") job in
      let job := set_progress 5 job in
      let job := set_status (txt "downloading") job in
      let job := set_progress 10 job in
      let job := set_eta_minutes (Some (estimate_time (model job))) job in
      match download_audio w (url job) (txt "audio_temp") with
      | Raises e => Ok (failed s id job e)
      | Returns audio_path =>
          let job := set_progress 30 job in
          let job := set_status (txt "transcribing") job in
          let job := set_progress 40 job in
          match transcribe_audio w audio_path (model job) with
          | Raises e => Ok (failed s id job e)
          | Returns transcript =>
              let job := set_progress 80 job in
              let job := set_status (txt "cleaning") job in
              let job := set_progress 85 job in
              match clean_transcript U transcript with
              | OutOfFuel => OutOfFuel
              | Raise e => Ok (failed s id job (exn_message e))
              | Ok transcript =>
                  let job := set_progress 90 job in
                  let output_filename :=
                    txt "transcript_" ++ timestamp w ++ txt "_" ++
                    py_slice id 0 8 ++ txt ".txt" in
                  let made :=
                    match output_folder job with
                    | Some (c :: f) =>
                        match mkdir w (c :: f) with
                        | Raises e => Raises e
                        | Returns _ =>
                            Returns (path_join w (c :: f) output_filename)
                        end
                    | _ =>
                        Returns
                          (path_join w (txt "transcripts") output_filename)
                    end in
                  match made with
                  | Raises e => Ok (failed s id job e)
                  | Returns output_path =>
                      match save_transcript w transcript output_path with
                      | Raises e => Ok (failed s id job e)
                      | Returns _ =>
                          let job := set_status (txt "complete") job in
                          let job := set_progress 100 job in
                          let job :=
                            set_eta_minutes
                              (Some (QArith_base.Qmake 0 1)) job in
                          let job :=
                            set_transcript_path (Some output_path) job in
                          let job :=
                            set_transcript_preview
                              (Some (preview transcript)) job in
                          let job :=
                            set_completed_at
                              (Some (now_completed w)) job in
                          Ok {| jobs := put id job (jobs s);
                                transcripts :=
                                  put id transcript (transcripts s) |}
                      end
                  end
              end
          end
      end
  end.

(** The files [api_get_transcript] can see: whether a path exists, and
    what reading it gives. *)
Record files := {
  path_exists : str -> bool;
  read_text : str -> outcome str
}.

(** A JSON object of string fields with its status code. *)
Definition response : Type := list (str * str) * Z.

(** [api_get_transcript]: the response, or the exception that leaves the
    handler, and the dicts afterwards. *)
Definition api_get_transcript (fs : files) (id : str) (s : server)
  : outcome response * server :=
  match jobs s id with
  | None => (Returns ([(txt "error", txt "Job not found")], 404%Z), s)
  | Some job =>
      if negb (str_eqb (status job) (txt "complete")) then
        (Returns ([(txt "error", txt "Transcription not complete yet")],
                  400%Z), s)
      else
        let answer (transcript : str) : response :=
          ([(txt "job_id", id); (txt "transcript", transcript);
            (txt "url", url job); (txt "model", model job)], 200%Z) in
        match transcripts s id with
        | Some (c :: t) => (Returns (answer (c :: t)), s)
        | _ =>
            match transcript_path job with
            | Some (c :: p) =>
                if path_exists fs (c :: p) then
                  match read_text fs (c :: p) with
                  | Raises e => (Raises e, s)
                  | Returns transcript =>
                      (Returns (answer transcript),
                       {| jobs := jobs s;
                          transcripts := put id transcript (transcripts s) |})
                  end
                else
                  (Returns ([(txt "error", txt "Transcript not found")],
                            404%Z), s)
            | _ =>
                (Returns ([(txt "error", txt "Transcript not found")],
                          404%Z), s)
            end
        end
  end.

End Backend.

End App.

(** An exception that ends a run comes from one of the four steps
    outside. *)
Definition step_raised (datetime : Type) (w : App.world datetime)
  (job : App.TranscriptionJob datetime) (e : str) : Prop :=
  App.download_audio w (App.url job) (txt "audio_temp") = Raises e \/
  (exists audio, App.transcribe_audio w audio (App.model job) = Raises e) \/
  (exists folder, App.mkdir w folder = Raises e) \/
  (exists text path, App.save_transcript w text path = Raises e).

(** The run left the job complete: the cache holds the cleaned text of
    what Whisper returned, which is the text that was saved. *)
Definition completed (datetime : Type) (U : unicode)
  (w : App.world datetime) (id : str) (s' : App.server datetime)
  (job job' : App.TranscriptionJob datetime) : Prop :=
  App.status job' = txt "complete" /\ App.progress job' = 100%Z /\
  exists audio raw out path,
    App.download_audio w (App.url job) (txt "audio_temp") = Returns audio /\
    App.transcribe_audio w audio (App.model job) = Returns raw /\
    clean_transcript U raw = Ok out /\
    App.save_transcript w out path = Returns tt /\
    App.transcripts s' id = Some out /\
    App.transcript_path job' = Some path /\
    App.transcript_preview job' = Some (firstn 500 out).

(** The run left the job in error: the cache is as before and the
    message is that of a step outside. *)
Definition gave_up (datetime : Type) (w : App.world datetime) (id : str)
  (s s' : App.server datetime)
  (job job' : App.TranscriptionJob datetime) : Prop :=
  App.status job' = txt "error" /\ App.progress job' = 0%Z /\
  App.transcripts s' id = App.transcripts s id /\
  exists e, App.error job' = Some e /\ step_raised w job e.

(** A job and a world to compute with: the download and Whisper succeed,
    the clock reads 1 and 2. *)
Definition demo_job : App.TranscriptionJob nat :=
  {| App.job_id := txt "0123456789ab";
     App.url := txt "https://podcast.ucsd.edu/watch/wi26/cogs108_b00/6";
     App.model := txt "base";
     App.output_folder := None;
     App.status := txt "queued";
     App.progress := 0%Z;
     App.eta_minutes := None;
     App.error := None;
     App.transcript_path := None;
     App.transcript_preview := None;
     App.created_at := 0%nat;
     App.started_at := None;
     App.completed_at := None |}.

Definition demo_world (heard : str) : App.world nat :=
  {| App.now_started := 1%nat;
     App.timestamp := txt "20260101_120000";
     App.now_completed := 2%nat;
     App.download_audio := fun _ dir => Returns (dir ++ txt "/podcast.mp3");
     App.transcribe_audio := fun _ _ => Returns heard;
     App.mkdir := fun _ => Returns tt;
     App.path_join := fun a b => a ++ txt "/" ++ b;
     App.save_transcript := fun _ _ => Returns tt |}.

Definition demo_server : App.server nat :=
  {| App.jobs := put (txt "0123456789ab") demo_job (fun _ => None);
     App.transcripts := fun _ => None |}.

(** A file system without files. *)
Definition no_files : App.files :=
  {| App.path_exists := fun _ => false;
     App.read_text := fun _ => Raises (txt "No such file or directory") |}.

(** The dicts after the run of [demo_job], and the job as it was left. *)
Definition demo_done (heard : str) : App.server nat :=
  match App.run_transcription latin1 (demo_world heard)
          (txt "0123456789ab") demo_server with
  | Ok s' => s'
  | _ => demo_server
  end.

Definition demo_done_job (heard : str) : App.TranscriptionJob nat :=
  match App.jobs (demo_done heard) (txt "0123456789ab") with
  | Some job => job
  | None => demo_job
  end.
(* ================================================================== *)
(** * The matcher only moves forward *)

Section RegexFacts.

Variable U : unicode.

Lemma star_shorter ic cs s : forall prev c',
  In c' (star U ic cs prev s) -> (length (snd c') <= length s)%nat.
Proof.
  induction s as [|x t IH]; intros prev c' H; simpl in H.
  - destruct H as [<-|[]]. simpl. lia.
  - destruct (in_cset U ic cs x).
    + apply in_app_or in H. destruct H as [H|[<-|[]]].
      * apply IH in H. simpl. lia.
      * simpl. lia.
    + destruct H as [<-|[]]. simpl. lia.
Qed.

Lemma run_shorter ic r : forall c c',
  In c' (run U ic r c) -> (length (snd c') <= length (snd c))%nat.
Proof.
  induction r; intros c c' H; simpl in H.
  - destruct H as [<-|[]]. lia.
  - destruct c as [p [|x t]]; simpl in *; [contradiction|].
    destruct (in_cset U ic cs x); [|contradiction].
    destruct H as [<-|[]]. simpl. lia.
  - apply in_flat_map in H. destruct H as [m [Ha Hb]].
    apply IHr1 in Ha. apply IHr2 in Hb. lia.
  - apply in_app_or in H. destruct H; auto.
  - apply in_app_or in H. destruct H as [H|[<-|[]]]; auto.
  - now apply star_shorter in H.
  - destruct c as [p [|x t]]; simpl in *; [contradiction|].
    destruct (in_cset U ic cs x); [|contradiction].
    apply star_shorter in H. lia.
  - destruct (boundary U c); [|contradiction]. destruct H as [<-|[]]. lia.
  - destruct (fst c); [contradiction|]. destruct H as [<-|[]]. lia.
  - destruct c as [p [|x [|y t]]]; simpl in *.
    + destruct H as [<-|[]]. simpl. lia.
    + destruct (x =? 10)%N; [|contradiction]. destruct H as [<-|[]]. simpl. lia.
    + contradiction.
  - destruct (fst c); [|contradiction].
    destruct (in_cset U ic cs n); [|contradiction]. destruct H as [<-|[]]. lia.
Qed.

Lemma plus_never_empty ic cs : never_empty U ic (Plus cs).
Proof.
  intros [p [|x t]] c' H; simpl in *; [contradiction|].
  destruct (in_cset U ic cs x); [|contradiction].
  apply star_shorter in H. lia.
Qed.

Lemma cat_never_empty_r ic a b : never_empty U ic b -> never_empty U ic (Cat a b).
Proof.
  intros Hb c c' H. simpl in H. apply in_flat_map in H.
  destruct H as [m [Ha Hm]]. apply run_shorter in Ha. apply Hb in Hm. lia.
Qed.

Lemma hit_in adv ic r c n :
  hit U adv ic r c = Some n ->
  exists c', In c' (run U ic r c) /\ n = consumed c c'.
Proof.
  unfold hit. destruct (find _ _) as [c'|] eqn:E; [|discriminate].
  intros [= <-]. apply find_some in E. exists c'. tauto.
Qed.

Lemma hit_positive adv ic r c n :
  never_empty U ic r -> hit U adv ic r c = Some n -> (0 < n)%nat.
Proof.
  intros Hr H. apply hit_in in H. destruct H as [c' [Hin ->]].
  apply Hr in Hin. unfold consumed. lia.
Qed.

Lemma hit_bounded adv ic r c n :
  hit U adv ic r c = Some n -> (n <= length (snd c))%nat.
Proof.
  intros H. apply hit_in in H. destruct H as [c' [_ ->]].
  unfold consumed. lia.
Qed.

(** ** The scanner *)

Lemma scan_here ic r prev x t :
  scan U ic r prev (x :: t) 0 =
  match hit U false ic r (prev, x :: t) with
  | Some (S n) => Hit (firstn (S n) (x :: t)) :: scan U ic r (Some x) t n
  | Some O =>
      Hit [] ::
      match hit U true ic r (prev, x :: t) with
      | Some (S n) => Hit (firstn (S n) (x :: t)) :: scan U ic r (Some x) t n
      | _ => Keep x :: scan U ic r (Some x) t 0
      end
  | None => Keep x :: scan U ic r (Some x) t 0
  end.
Proof. reflexivity. Qed.

Lemma scan_skip ic r prev x t k :
  scan U ic r prev (x :: t) (S k) = scan U ic r (Some x) t k.
Proof. reflexivity. Qed.

Lemma scan_end ic r prev :
  scan U ic r prev [] 0 =
  match hit U false ic r (prev, []) with
  | Some _ => [Hit []]
  | None => []
  end.
Proof. reflexivity. Qed.

Lemma kept_shorter ic r s : forall prev skip,
  (length (kept (scan U ic r prev s skip)) <= length s - skip)%nat.
Proof.
  induction s as [|x t IH]; intros prev skip.
  - destruct skip; [rewrite scan_end; destruct (hit _ _ _ _ _)|]; simpl; lia.
  - destruct skip as [|k].
    + rewrite scan_here.
      destruct (hit U false ic r (prev, x :: t)) as [[|n]|].
      * destruct (hit U true ic r (prev, x :: t)) as [[|n]|]; cbn [kept flat_map app length];
          try (specialize (IH (Some x) 0%nat); unfold kept in IH; lia).
        specialize (IH (Some x) n). unfold kept in IH. lia.
      * specialize (IH (Some x) n). cbn [kept flat_map app length]. unfold kept in IH. lia.
      * specialize (IH (Some x) 0%nat). cbn [kept flat_map app length]. unfold kept in IH. lia.
    + rewrite scan_skip. specialize (IH (Some x) k). simpl. lia.
Qed.

Lemma scan_shorter ic r s : never_empty U ic r -> forall prev skip,
  (length (scan U ic r prev s skip) <= length s - skip)%nat.
Proof.
  intros Hr. induction s as [|x t IH]; intros prev skip.
  - destruct skip; [|simpl; lia]. rewrite scan_end.
    destruct (hit U false ic r (prev, [])) eqn:E; [|simpl; lia].
    apply hit_positive in E as E1; auto. apply hit_bounded in E. simpl in E. lia.
  - destruct skip as [|k].
    + rewrite scan_here.
      destruct (hit U false ic r (prev, x :: t)) as [[|n]|] eqn:E.
      * apply hit_positive in E; auto. lia.
      * specialize (IH (Some x) n). cbn [length]. lia.
      * specialize (IH (Some x) 0%nat). cbn [length]. lia.
    + rewrite scan_skip. specialize (IH (Some x) k). simpl. lia.
Qed.

Lemma re_sub_delete_shorter ic r s :
  (length (re_sub U ic r [] s) <= length s)%nat.
Proof.
  unfold re_sub. pose proof (kept_shorter ic r s None 0) as H.
  unfold kept in H. lia.
Qed.

Lemma re_sub_char_shorter ic r x s :
  never_empty U ic r -> (length (re_sub U ic r [x] s) <= length s)%nat.
Proof.
  intros Hr. unfold re_sub.
  pose proof (scan_shorter s Hr None 0) as H.
  assert (E : forall ts, length (flat_map
            (fun t => match t with Keep c => [c] | Hit _ => [x] end) ts)
            = length ts).
  { induction ts as [|[c|m] ts IH]; simpl; auto. }
  rewrite E. lia.
Qed.

End RegexFacts.

(* ================================================================== *)
(** * Python sequences *)

Section Sequences.

Local Open Scope Z_scope.

Lemma py_index_ok {A} (l : list A) i :
  0 <= i < len l ->
  exists x, py_index l i = Ok x /\ nth_error l (Z.to_nat i) = Some x.
Proof.
  intros H. unfold py_index.
  replace (i <? 0) with false by (symmetry; apply Z.ltb_ge; lia).
  replace (0 <=? i) with true by (symmetry; apply Z.leb_le; lia).
  replace (i <? len l) with true by (symmetry; apply Z.ltb_lt; lia).
  simpl. destruct (nth_error l (Z.to_nat i)) as [x|] eqn:E.
  - exists x. auto.
  - apply nth_error_None in E. unfold len in H. lia.
Qed.

Lemma range_down_in a b i : In i (range_down a b) <-> b < i <= a.
Proof.
  unfold range_down. rewrite in_map_iff. split.
  - intros [k [<- Hk]]. apply in_seq in Hk. lia.
  - intros H. exists (Z.to_nat (a - i)). split; [lia|].
    apply in_seq. lia.
Qed.

Lemma total_app a b : total (a ++ b) = (total a + total b)%nat.
Proof. induction a; simpl; lia. Qed.

Lemma total_firstn n : forall l, (total (firstn n l) <= total l)%nat.
Proof.
  induction n; intros [|s t]; simpl; try lia. specialize (IHn t). lia.
Qed.

Lemma total_skipn n : forall l, (total (skipn n l) <= total l)%nat.
Proof.
  induction n; intros [|s t]; simpl; try lia. specialize (IHn t). lia.
Qed.

Lemma py_slice_total (l : list str) a b :
  (total (py_slice l a b) <= total l)%nat.
Proof.
  unfold py_slice. etransitivity; [apply total_firstn|apply total_skipn].
Qed.

Lemma py_slice_length {A} (l : list A) a b :
  (length (py_slice l a b) <= length l)%nat.
Proof.
  unfold py_slice. rewrite length_firstn, length_skipn. lia.
Qed.

Lemma py_slice_empty {A} (l : list A) a b :
  0 <= b <= a -> py_slice l a b = [].
Proof.
  intros H. unfold py_slice.
  assert (E : Z.to_nat (clamp (len l) b - clamp (len l) a) = 0%nat).
  { unfold clamp, len.
    destruct (a <? 0) eqn:Ea, (b <? 0) eqn:Eb;
      rewrite ?Z.ltb_lt, ?Z.ltb_ge in *; lia. }
  rewrite E. reflexivity.
Qed.

Lemma py_slice_from_shorter {A} (l : list A) a :
  (length (py_slice_from l a) <= length l)%nat.
Proof. unfold py_slice_from. rewrite length_skipn. lia. Qed.

Lemma join_length sep l :
  length (join sep l) = (total l + length sep * (length l - 1))%nat.
Proof.
  induction l as [|p [|q t] IH].
  - simpl. lia.
  - simpl. lia.
  - change (join sep (p :: q :: t)) with (p ++ sep ++ join sep (q :: t)).
    rewrite !length_app, IH. simpl. lia.
Qed.

Lemma pieces_nonempty ts : (1 <= length (pieces ts))%nat.
Proof.
  induction ts as [|[c|m] ts IH]; simpl; try lia.
  destruct (pieces ts); simpl in *; lia.
Qed.

(** The sentences and the separators between them account for every
    token of the scan. *)
Lemma pieces_measure ts :
  (total (pieces ts) + (length (pieces ts) - 1) = length ts)%nat.
Proof.
  induction ts as [|[c|m] ts IH]; simpl; auto.
  - pose proof (pieces_nonempty ts).
    destruct (pieces ts); simpl in *; lia.
  - pose proof (pieces_nonempty ts). lia.
Qed.

Lemma Counter_nonempty l : l <> [] -> Counter l <> [].
Proof.
  destruct l as [|x t]; [congruence|]. intros _. unfold Counter. simpl. congruence.
Qed.

Lemma most_common_ok l :
  l <> [] -> exists top, py_index (most_common_1 (Counter l)) 0 = Ok top.
Proof.
  intros H. apply Counter_nonempty in H.
  destruct (Counter l) as [|it t]; [congruence|].
  exists (max_item it t). reflexivity.
Qed.

End Sequences.

(* ================================================================== *)
(** * String methods *)

Section StringFacts.

Variable U : unicode.

Lemma lstrip_shorter s : (length (lstrip U s) <= length s)%nat.
Proof.
  induction s as [|x t IH]; simpl; auto. destruct (isspace U x); simpl; lia.
Qed.

Lemma strip_shorter s : (length (strip U s) <= length s)%nat.
Proof.
  unfold strip, rstrip. rewrite length_rev.
  etransitivity; [apply lstrip_shorter|]. rewrite length_rev.
  apply lstrip_shorter.
Qed.

End StringFacts.

(* ================================================================== *)
(** * No statement of [clean_transcript] raises *)

Section Totality.

Variable U : unicode.

Local Open Scope Z_scope.

Lemma len_cons {A} (x : A) l : len (x :: l) = 1 + len l.
Proof. unfold len. simpl length. lia. Qed.

Lemma len_nonneg {A} (l : list A) : 0 <= len l.
Proof. unfold len. lia. Qed.

(** The division is reached with at least three words. *)
Lemma is_coherent_ok s : exists b, is_coherent_english U s = Ok b.
Proof.
  unfold is_coherent_english.
  destruct (_ || _); [eauto|].
  destruct (len _ <? 3); [eauto|].
  destruct (_ >=? 3); [eauto|].
  destruct (len _ >? 0) eqn:E; [|eauto].
  unfold quarter_or_more.
  destruct (len _ =? 0) eqn:E0.
  - apply Z.eqb_eq in E0. rewrite E0 in E. discriminate.
  - simpl. eauto.
Qed.

Lemma start_loop_ok ss : forall todo i si off,
  0 <= i -> len ss = i + len todo -> 0 <= si <= len ss ->
  exists si' off',
    start_loop U ss i todo si off = Ok (si', off') /\ 0 <= si' <= len ss.
Proof.
  induction todo as [|sentence todo IH]; intros i si off Hi Hlen Hsi.
  - simpl. eauto.
  - rewrite len_cons in Hlen. pose proof (len_nonneg todo) as Hn.
    cbn [start_loop].
    assert (Hnext : forall si0 off0, 0 <= si0 <= len ss ->
              exists si' off',
                start_loop U ss (i + 1) todo si0 off0 = Ok (si', off') /\
                0 <= si' <= len ss).
    { intros. apply IH; lia. }
    assert (Hbody : forall si0 off0, 0 <= si0 <= len ss ->
      exists si' off',
        (if off0 >? 0 then Ok (si0, off0)
         else
           coherent <- is_coherent_english U sentence ;;
           if coherent && (len sentence >? 50) then
             if i + 2 <? len ss then
               s1 <- py_index ss (i + 1) ;;
               c1 <- is_coherent_english U s1 ;;
               next_coherent <-
                 (if c1 then Ok true
                  else s2 <- py_index ss (i + 2) ;;
                       is_coherent_english U s2) ;;
               if next_coherent then Ok (i, off0)
               else start_loop U ss (i + 1) todo si0 off0
             else Ok (i, off0)
           else start_loop U ss (i + 1) todo si0 off0)
        = Ok (si', off') /\ 0 <= si' <= len ss).
    { intros si0 off0 H0.
      destruct (off0 >? 0); [eauto|].
      destruct (is_coherent_ok sentence) as [b ->]. cbn [bind].
      destruct (b && _); [|auto].
      destruct (i + 2 <? len ss) eqn:E2.
      - apply Z.ltb_lt in E2.
        destruct (@py_index_ok _ ss (i + 1)) as [s1 [-> _]]; [lia|].
        cbn [bind]. destruct (is_coherent_ok s1) as [c1 ->]. cbn [bind].
        destruct c1; cbn [bind].
        + exists i, off0. split; [reflexivity|lia].
        + destruct (@py_index_ok _ ss (i + 2)) as [s2 [-> _]]; [lia|].
          cbn [bind]. destruct (is_coherent_ok s2) as [c2 ->]. cbn [bind].
          destruct c2; [|auto]. exists i, off0. split; [reflexivity|lia].
      - exists i, off0. split; [reflexivity|lia]. }
    destruct (first_match U lecture_start_patterns (lower U sentence)).
    + apply Hbody. lia.
    + apply Hbody. lia.
Qed.

Lemma find_start_ok ss :
  exists si off, find_start U ss = Ok (si, off) /\ 0 <= si <= len ss.
Proof.
  apply start_loop_ok; pose proof (len_nonneg ss); lia.
Qed.

Lemma chatter_loop_ok ss : forall idxs c,
  (forall i, In i idxs -> 0 <= i < len ss) ->
  exists r, chatter_loop U ss idxs c = Ok r /\
            (r = c \/ exists i, r = Some i /\ In i idxs).
Proof.
  induction idxs as [|i rest IH]; intros c H.
  - simpl. eauto.
  - cbn [chatter_loop].
    destruct (@py_index_ok _ ss i) as [s [-> _]]; [apply H; left; auto|].
    cbn [bind].
    destruct (IH (if is_chatter U s then Some i else c)) as [r [-> Hr]].
    { intros j Hj. apply H. right. auto. }
    exists r. split; [reflexivity|].
    destruct Hr as [->|[j [-> Hj]]].
    + destruct (is_chatter U s); [right; exists i; simpl; auto|auto].
    + right. exists j. simpl. auto.
Qed.

Lemma chatter_end_ok ss :
  exists e, chatter_end U ss = Ok e /\ 0 <= e <= len ss.
Proof.
  unfold chatter_end, chatter_scan.
  destruct (chatter_loop_ok ss
              (range_down (len ss - 1) (Z.max 0 (len ss - 30))) None)
    as [r [-> Hr]].
  { intros i Hi. apply range_down_in in Hi. lia. }
  cbn [bind]. pose proof (len_nonneg ss).
  destruct Hr as [->|[i [-> Hi]]].
  - eexists. split; [reflexivity|lia].
  - apply range_down_in in Hi. unfold truthy.
    destruct (i =? 0); simpl; eexists; (split; [reflexivity|lia]).
Qed.

(** The budget of Phase B is never used up: the loop condition is tested
    at most [end_index - start_index + 1] times. *)
Lemma strip_tail_ok ss si : 0 <= si -> forall fuel e,
  e <= len ss -> (Z.to_nat (e - si) < fuel)%nat ->
  exists e', strip_tail U fuel ss si e = Ok e' /\ Z.min si e <= e' <= e.
Proof.
  intros Hsi. induction fuel as [|fuel IH]; intros e He Hfuel; [lia|].
  cbn [strip_tail]. destruct (e >? si) eqn:E.
  - apply Z.gtb_lt in E.
    destruct (@py_index_ok _ ss (e - 1)) as [s [-> _]]; [lia|]. cbn [bind].
    destruct (is_filler U _).
    + destruct (IH (e - 1)) as [e' [-> He']]; [lia|lia|].
      exists e'. split; [reflexivity|lia].
    + exists e. split; [reflexivity|lia].
  - exists e. split; [reflexivity|].
    assert (e <= si) by (destruct (Z.gtb_spec e si); [discriminate|lia]). lia.
Qed.

Lemma repetition_loop_ok ss e : forall idxs,
  exists e', repetition_loop U ss e idxs = Ok e' /\ (e' = e \/ In e' idxs).
Proof.
  induction idxs as [|i rest IH]; cbn [repetition_loop].
  - eauto.
  - destruct IH as [e' [IH Hin]].
    destruct (len _ >=? 3) eqn:E.
    + destruct (most_common_ok
                  (l := map (fun s => lower U (strip U s)) (py_slice ss i e)))
        as [top ->].
      { intros E0. rewrite E0 in E. discriminate. }
      cbn [bind]. destruct (is_most _ _).
      * exists i. simpl. auto.
      * exists e'. simpl. tauto.
    + exists e'. simpl. tauto.
Qed.

Lemma collapse_ok ss si e :
  exists e', collapse U ss si e = Ok e' /\
             (e' = e \/ Z.max (e - 15) si < e' <= e - 1).
Proof.
  unfold collapse. destruct (e >? si + 5); [|eauto].
  destruct (repetition_loop_ok ss e
              (range_down (e - 1) (Z.max (e - 15) si))) as [e' [-> H]].
  exists e'. split; [reflexivity|].
  destruct H as [->|H]; [auto|]. apply range_down_in in H. auto.
Qed.

(** The repetition check compares against [n * 0.6] for windows of 3 to
    14 sentences only, where [is_most] is the floating-point test. *)
Lemma remaining_small ss si e i :
  0 <= si -> In i (range_down (e - 1) (Z.max (e - 15) si)) ->
  len (map (fun s => lower U (strip U s)) (py_slice ss i e)) <= 14.
Proof.
  intros Hsi Hi. apply range_down_in in Hi.
  unfold len, py_slice. rewrite length_map, length_firstn.
  unfold clamp, len.
  destruct (i <? 0) eqn:Ei, (e <? 0) eqn:Ee;
    rewrite ?Z.ltb_lt, ?Z.ltb_ge in *; lia.
Qed.

(** Where the indices end up.  They stay inside the sentence list, and
    Phase B and the repetition check never move [end_index] below
    [start_index]; Phase A is not held back by [start_index]. *)
Lemma find_bounds_ok ss :
  exists b, find_bounds U ss = Ok b /\
    0 <= start_index b <= len ss /\
    0 <= end_chatter b <= len ss /\
    Z.min (start_index b) (end_chatter b) <= end_trimmed b <= end_chatter b /\
    (end_index b = end_trimmed b \/
     start_index b < end_index b < end_trimmed b).
Proof.
  unfold find_bounds.
  destruct (find_start_ok ss) as [si [off [-> Hsi]]]. cbn [bind fst snd].
  destruct (chatter_end_ok ss) as [e1 [-> He1]]. cbn [bind].
  destruct (@strip_tail_ok ss si (proj1 Hsi) (S (length ss)) e1)
    as [e2 [-> He2]]; [lia|unfold len in *; lia|]. cbn [bind].
  destruct (collapse_ok ss si e2) as [e3 [-> He3]]. cbn [bind].
  eexists. split; [reflexivity|]. simpl. repeat split; try lia.
Qed.

End Totality.

(* ================================================================== *)
(** * The output is no longer than the normalized text *)

Section Length.

Variable U : unicode.

Lemma sentence_break_never_empty : never_empty U false sentence_break.
Proof. apply cat_never_empty_r, plus_never_empty. Qed.

Lemma ws_run_never_empty : never_empty U false ws_run.
Proof. apply plus_never_empty. Qed.

(** Joined again with single spaces, the sentences are as long as the
    scan of the text they were split from. *)
Lemma split_sentences_measure s :
  (total (split_sentences U s) + (length (split_sentences U s) - 1)
   <= length s)%nat.
Proof.
  unfold split_sentences, re_split. rewrite pieces_measure.
  pose proof (scan_shorter s sentence_break_never_empty None 0). lia.
Qed.

Lemma assemble_shorter ss si off ei :
  (length (assemble U ss si off ei) <= total ss + (length ss - 1))%nat.
Proof.
  unfold assemble.
  etransitivity; [apply re_sub_delete_shorter|].
  etransitivity; [apply strip_shorter|].
  etransitivity; [apply re_sub_char_shorter, ws_run_never_empty|].
  rewrite join_length. cbn [txt bytes utf8 length N.ltb N.compare].
  pose proof (py_slice_total ss si ei) as Ht.
  pose proof (py_slice_length ss si ei) as Hl.
  destruct (py_slice ss si ei) as [|first rest]; [simpl; lia|].
  destruct (off >? 0)%Z; [|simpl in *; lia].
  pose proof (lstrip_shorter U (py_slice_from first off)).
  pose proof (py_slice_from_shorter first off).
  simpl in *. lia.
Qed.

Lemma normalize_shorter text : (length (normalize U text) <= length text)%nat.
Proof.
  unfold normalize. generalize hallucination_patterns.
  intros ps. revert text. induction ps as [|p ps IH]; intros text; simpl.
  - lia.
  - etransitivity; [apply IH|]. apply re_sub_delete_shorter.
Qed.

End Length.

(** C1 -- Totality of the cleaning engine: for every input string
    (empty, whitespace-only and entirely-filler ones included)
    [clean_transcript] returns a string.  Every sentence index, the lookup
    [most_common(1)[0]] and the division of [is_coherent_english] are
    modelled as statements that can raise, and the budget of the [while]
    loop can run out; the result is [Ok] all the same, whatever the
    Unicode tables. *)
Theorem clean_transcript_total (U : unicode) (text : str) :
  exists out, clean_transcript U text = Ok out.
Proof.
  unfold clean_transcript.
  destruct (find_bounds_ok U (split_sentences U (normalize U text)))
    as [b [-> _]].
  cbn [bind]. eauto.
Qed.

(** The degenerate inputs the specification names. *)
Example clean_transcript_degenerate :
  clean_transcript latin1 [] = Ok [] /\
  clean_transcript latin1 (txt "   ") = Ok [] /\
  clean_transcript latin1 (txt "Thank you. Thank you.") = Ok [].
Proof. repeat split; vm_compute; reflexivity. Qed.

(** What both the length bound and the second pass rest on. *)
Lemma clean_transcript_bounded (U : unicode) (text : str) :
  exists out, clean_transcript U text = Ok out /\
              (length out <= length (normalize U text))%nat.
Proof.
  unfold clean_transcript.
  destruct (find_bounds_ok U (split_sentences U (normalize U text)))
    as [b [-> _]].
  cbn [bind]. eexists. split; [reflexivity|].
  etransitivity; [apply assemble_shorter|]. apply split_sentences_measure.
Qed.

(** C2 -- Output length bound: for every input string the string that
    [clean_transcript] returns is at most as long as the normalized text,
    the input after all hallucination-pattern deletions. *)
Theorem clean_transcript_length (U : unicode) (text : str) :
  exists out, clean_transcript U text = Ok out /\
              (length out <= length (normalize U text))%nat.
Proof.
  destruct (clean_transcript_bounded U text) as [out [H Hlen]].
  exists out. split; [exact H|exact Hlen].
Qed.

(** C3 -- Worked example of the specification, on the Latin-1 tables:
    the CJK run is deleted by the normalizer, the start boundary falls
    inside the first sentence (offset 27, in front of "today"), the three
    trailing "Thank you." sentences are stripped by Phase B (from 5
    sentences to 2), and the output is the string the specification
    gives. *)
Theorem clean_transcript_worked_example :
  normalize latin1
    (txt "大家好 Hello everyone, welcome to today's lecture on graphs and trees, this is going to be a great class. We will cover traversal algorithms. Thank you. Thank you. Thank you.")
  = txt " Hello everyone, welcome to today's lecture on graphs and trees, this is going to be a great class. We will cover traversal algorithms. Thank you. Thank you. Thank you." /\
  find_bounds latin1
    [txt " Hello everyone, welcome to today's lecture on graphs and trees, this is going to be a great class.";
     txt "We will cover traversal algorithms.";
     txt "Thank you."; txt "Thank you."; txt "Thank you."]
  = Ok {| start_index := 0; start_char_offset := 27; end_chatter := 5;
          end_trimmed := 2; end_index := 2 |} /\
  clean_transcript latin1
    (txt "大家好 Hello everyone, welcome to today's lecture on graphs and trees, this is going to be a great class. We will cover traversal algorithms. Thank you. Thank you. Thank you.")
  = Ok (txt "today's lecture on graphs and trees, this is going to be a great class. We will cover traversal algorithms.").
Proof. repeat split; vm_compute; reflexivity. Qed.

(* ================================================================== *)
(** * Phase A keeps the earliest chatter hit *)

Section Chatter.

Variable U : unicode.

Local Open Scope Z_scope.

Lemma range_down_cons a b : b < a -> range_down a b = a :: range_down (a - 1) b.
Proof.
  intros H. unfold range_down.
  replace (Z.to_nat (a - b)) with (S (Z.to_nat (a - 1 - b))) by lia.
  cbn [seq map]. f_equal; [lia|].
  rewrite <- seq_shift, map_map. apply map_ext. intros k. lia.
Qed.

Lemma range_down_nil a b : a <= b -> range_down a b = [].
Proof.
  intros H. unfold range_down. replace (Z.to_nat (a - b)) with 0%nat by lia.
  reflexivity.
Qed.

Lemma py_index_sentence ss i :
  0 <= i < len ss -> py_index ss i = Ok (sentence ss i).
Proof.
  intros H. destruct (py_index_ok ss H) as [x [-> E]].
  unfold sentence. now rewrite (nth_error_nth _ _ _ E).
Qed.

(** The scan over [range(a, b, -1)]: the hit of lowest index replaces the
    value the loop began with; without a hit that value remains. *)
Lemma chatter_loop_range ss : forall n a b c,
  n = Z.to_nat (a - b) -> 0 <= b -> a < len ss ->
  exists r, chatter_loop U ss (range_down a b) c = Ok r /\
    ((r = c /\ forall j, b < j <= a -> ~ chatter_at U ss j) \/
     (exists i, r = Some i /\ b < i <= a /\ chatter_at U ss i /\
                forall j, b < j <= a -> chatter_at U ss j -> i <= j)).
Proof.
  induction n as [|n IH]; intros a b c Hn Hb Ha.
  - rewrite range_down_nil by lia. exists c. split; [reflexivity|].
    left. split; [reflexivity|]. intros j Hj. lia.
  - rewrite range_down_cons by lia. cbn [chatter_loop].
    rewrite py_index_sentence by lia. cbn [bind].
    destruct (IH (a - 1) b
                (if is_chatter U (sentence ss a) then Some a else c))
      as [r [-> Hr]]; [lia|lia|lia|].
    exists r. split; [reflexivity|].
    destruct Hr as [[-> Hnone]|[i [-> [Hi [Hc Hmin]]]]].
    + destruct (is_chatter U (sentence ss a)) eqn:E.
      * right. exists a. repeat split; try lia; auto.
        intros j Hj Hcj. destruct (Z.eq_dec j a) as [->|Hne]; [lia|].
        exfalso. apply (Hnone j); [lia|auto].
      * left. split; [reflexivity|]. intros j Hj [_ Hcj].
        destruct (Z.eq_dec j a) as [->|Hne]; [congruence|].
        apply (Hnone j); [lia|]. split; [lia|auto].
    + right. exists i. repeat split; try lia; try apply Hc.
      intros j Hj Hcj. destruct (Z.eq_dec j a) as [->|Hne]; [lia|].
      apply Hmin; [lia|auto].
Qed.

End Chatter.

(** C7 -- Earliest chatter hit kept: Phase A goes through its whole
    backward window, also after a hit, and [chatter_start_index] ends as
    the smallest index among the sentences of the window whose trimmed,
    lower-cased text matches some chatter pattern; it stays [None] when
    the window holds no such sentence. *)
Theorem chatter_scan_earliest (U : unicode) (ss : list str) :
  exists r, chatter_scan U ss = Ok r /\
    match r with
    | Some i =>
        in_window ss i /\ chatter_at U ss i /\
        forall j, in_window ss j -> chatter_at U ss j -> (i <= j)%Z
    | None => forall j, in_window ss j -> ~ chatter_at U ss j
    end.
Proof.
  unfold chatter_scan, in_window.
  destruct (@chatter_loop_range U ss _ (len ss - 1)%Z
              (Z.max 0 (len ss - 30)) None eq_refl) as [r [-> Hr]]; [lia|lia|].
  exists r. split; [reflexivity|].
  destruct Hr as [[-> Hnone]|[i [-> H]]]; [exact Hnone|exact H].
Qed.

(** The scan does not stop at the first hit from the end: with chatter
    at indices 3 and 1 it reports 1. *)
Example chatter_scan_passes_first_hit :
  chatter_scan latin1
    [txt "Trees are graphs."; txt "Okay."; txt "Every tree has a root.";
     txt "Yeah."] = Ok (Some 1%Z).
Proof. vm_compute. reflexivity. Qed.

(* ================================================================== *)
(** * A transcript of filler phrases *)

Section Filler.

Variable U : unicode.

Local Open Scope Z_scope.

Lemma filler_phrase_is_filler s :
  filler_phrase U s -> is_filler U (lower U (strip U s)) = true.
Proof. unfold filler_phrase, is_filler. now intros ->. Qed.

Lemma Forall_sentence ss (P : str -> Prop) i :
  Forall P ss -> 0 <= i < len ss -> P (sentence ss i).
Proof.
  intros H Hi. rewrite Forall_forall in H. apply H. unfold sentence.
  apply nth_In. unfold len in Hi. lia.
Qed.

(** Phase B runs all the way down to [start_index] when every sentence is
    a filler phrase. *)
Lemma strip_tail_all_filler ss si :
  Forall (filler_phrase U) ss -> 0 <= si -> forall fuel e,
  e <= len ss -> (Z.to_nat (e - si) < fuel)%nat ->
  strip_tail U fuel ss si e = Ok (Z.min si e).
Proof.
  intros Hall Hsi. induction fuel as [|fuel IH]; intros e He Hfuel; [lia|].
  cbn [strip_tail]. destruct (e >? si) eqn:E.
  - apply Z.gtb_lt in E. rewrite py_index_sentence by lia. cbn [bind].
    rewrite filler_phrase_is_filler by (apply Forall_sentence; [auto|lia]).
    rewrite IH by lia. f_equal. lia.
  - assert (e <= si) by (destruct (Z.gtb_spec e si); [discriminate|lia]).
    f_equal. lia.
Qed.

Lemma filler_phrases_check ss :
  forallb (fun s => mem (lower U (strip U s)) thank_you_variants) ss = true ->
  Forall (filler_phrase U) ss.
Proof.
  intros H. apply Forall_forall. intros s Hs.
  rewrite forallb_forall in H. apply H, Hs.
Qed.

Lemma assemble_empty_range ss si off e :
  0 <= e <= si -> assemble U ss si off e = [].
Proof.
  intros H. unfold assemble. rewrite py_slice_empty by lia. reflexivity.
Qed.

End Filler.

(** C8 -- Filler-only input yields empty output: when the segmentation of
    the normalized input consists only of sentences whose trimmed,
    lower-cased text is a filler phrase, Phase B strips every sentence
    down to [start_index], the kept range is empty and [clean_transcript]
    returns the empty string. *)
Theorem filler_only_gives_empty (U : unicode) (text : str) :
  Forall (filler_phrase U) (split_sentences U (normalize U text)) ->
  exists b,
    find_bounds U (split_sentences U (normalize U text)) = Ok b /\
    (end_index b <= start_index b)%Z /\
    clean_transcript U text = Ok [].
Proof.
  intros Hall. unfold clean_transcript, find_bounds.
  set (ss := split_sentences U (normalize U text)) in *.
  destruct (find_start_ok U ss) as [si [off [-> Hsi]]]. cbn [bind fst snd].
  destruct (chatter_end_ok U ss) as [e1 [-> He1]]. cbn [bind].
  rewrite strip_tail_all_filler; auto; try lia;
    [|unfold len in *; lia]. cbn [bind].
  unfold collapse.
  replace (Z.min si e1 >? si + 5)%Z with false
    by (symmetry; rewrite Z.gtb_ltb; apply Z.ltb_ge; lia).
  cbn [bind]. eexists. split; [reflexivity|]. cbn [end_index start_index start_char_offset].
  split; [lia|]. rewrite assemble_empty_range by lia. reflexivity.
Qed.

(** [filler_only_gives_empty] at "Thank you. Okay. Bye." *)
Lemma filler_only_witness :
  Forall (filler_phrase latin1)
    (split_sentences latin1 (normalize latin1 (txt "Thank you. Okay. Bye."))) /\
  exists b,
    find_bounds latin1
      (split_sentences latin1 (normalize latin1 (txt "Thank you. Okay. Bye.")))
      = Ok b /\
    (end_index b <= start_index b)%Z /\
    clean_transcript latin1 (txt "Thank you. Okay. Bye.") = Ok [].
Proof.
  assert (H : Forall (filler_phrase latin1)
    (split_sentences latin1 (normalize latin1 (txt "Thank you. Okay. Bye.")))).
  { apply filler_phrases_check. vm_compute. reflexivity. }
  split; [exact H|]. apply (@filler_only_gives_empty latin1 _ H).
Defined.

(* ================================================================== *)
(** * The Start-Boundary Detector *)

Section StartBoundary.

Variable U : unicode.

Local Open Scope Z_scope.

Lemma is_coherent_coherent s : is_coherent_english U s = Ok (coherent U s).
Proof.
  unfold coherent. destruct (is_coherent_ok U s) as [b ->]. reflexivity.
Qed.

Lemma skipn_sentence ss i :
  0 <= i < len ss ->
  skipn (Z.to_nat i) ss = sentence ss i :: skipn (Z.to_nat (i + 1)) ss.
Proof.
  intros H. unfold sentence, len in *.
  replace (Z.to_nat (i + 1)) with (S (Z.to_nat i)) by lia.
  assert (Hn : (Z.to_nat i < length ss)%nat) by lia.
  revert Hn. generalize (Z.to_nat i). clear H.
  induction ss as [|s ss IH]; intros n Hn; simpl in Hn; [lia|].
  destruct n as [|n]; [reflexivity|]. simpl. apply IH. lia.
Qed.

(** One turn of the loop over the sentences, at index [i]. *)
Lemma start_loop_step ss i si off :
  0 <= i < len ss ->
  start_loop U ss i (skipn (Z.to_nat i) ss) si off =
  let '(si', off') :=
    match pattern_hit U (sentence ss i) with
    | Some o => (i, o)
    | None => (si, off)
    end in
  if off' >? 0 then Ok (si', off')
  else if fallback_ok U ss i then Ok (i, off')
  else start_loop U ss (i + 1) (skipn (Z.to_nat (i + 1)) ss) si' off'.
Proof.
  intros Hi. rewrite skipn_sentence by lia. cbn [start_loop].
  unfold pattern_hit, fallback_ok.
  destruct (first_match U lecture_start_patterns (lower U (sentence ss i)))
    as [o|];
    (match goal with |- context [?x >? 0] => destruct (x >? 0) end;
     [reflexivity|];
     rewrite is_coherent_coherent; cbn [bind];
     destruct (coherent U (sentence ss i) && (len (sentence ss i) >? 50));
     [|reflexivity]; cbn [andb];
     destruct (i + 2 <? len ss) eqn:E2; [|reflexivity];
     apply Z.ltb_lt in E2;
     rewrite py_index_sentence by lia; cbn [bind];
     rewrite is_coherent_coherent; cbn [bind];
     destruct (coherent U (sentence ss (i + 1))); cbn [bind orb];
     [reflexivity|];
     rewrite py_index_sentence by lia; cbn [bind];
     rewrite is_coherent_coherent; cbn [bind]; reflexivity).
Qed.

(** Quiet sentences leave the loop's variables alone. *)
Lemma start_loop_quiet ss i : forall n k,
  n = Z.to_nat (i - k) -> 0 <= k <= i -> i <= len ss ->
  (forall j, k <= j < i -> quiet U ss j) ->
  start_loop U ss k (skipn (Z.to_nat k) ss) 0 0 =
  start_loop U ss i (skipn (Z.to_nat i) ss) 0 0.
Proof.
  induction n as [|n IH]; intros k Hn Hk Hi Hq.
  - replace k with i by lia. reflexivity.
  - rewrite start_loop_step by lia.
    destruct (Hq k) as [-> ->]; [lia|]. cbn [Z.gtb Z.compare].
    apply IH; try lia. intros j Hj. apply Hq. lia.
Qed.

Lemma find_start_skips_quiet ss i :
  0 <= i <= len ss ->
  (forall j, 0 <= j < i -> quiet U ss j) ->
  find_start U ss = start_loop U ss i (skipn (Z.to_nat i) ss) 0 0.
Proof.
  intros Hi Hq. unfold find_start.
  change ss with (skipn (Z.to_nat 0) ss) at 2.
  apply (@start_loop_quiet ss i _ 0 eq_refl); auto; lia.
Qed.

(** A pattern match at a positive offset, in the first sentence that is
    not quiet, fixes both values: the scan stops there. *)
Lemma positive_match_decides ss i off :
  0 <= i < len ss ->
  (forall j, 0 <= j < i -> quiet U ss j) ->
  pattern_hit U (sentence ss i) = Some off -> 0 < off ->
  find_start U ss = Ok (i, off).
Proof.
  intros Hi Hq Hp Hoff. rewrite (@find_start_skips_quiet ss i) by (auto; lia).
  rewrite start_loop_step by lia. rewrite Hp.
  replace (off >? 0) with true by (symmetry; apply Z.gtb_lt; lia).
  reflexivity.
Qed.

End StartBoundary.

(** C4 -- Range invariant, at an input where the code breaks it.  The
    window of Phase A is [range(len - 1, max(0, len - 30), -1)] and takes
    no account of [start_index]: here the lecture starts at sentence 2,
    the chatter hit is sentence 1, and [end_index] drops to 1, below
    [start_index]; nothing of the lecture is returned. *)
Theorem chatter_scan_ignores_start_index :
  exists b,
    find_bounds latin1
      (split_sentences latin1 (normalize latin1
         (txt "Testing. Okay. So welcome to the lecture on graph theory.")))
    = Ok b /\
    start_index b = 2%Z /\ end_chatter b = 1%Z /\
    (end_chatter b < start_index b)%Z /\
    clean_transcript latin1
      (txt "Testing. Okay. So welcome to the lecture on graph theory.")
    = Ok [].
Proof.
  eexists. split; [vm_compute; reflexivity|].
  repeat split; vm_compute; reflexivity.
Qed.

(** C5 -- First match wins, at an input where the code does not stop.
    The scan leaves the loop on [start_char_offset > 0]; a match at
    position 0 sets [start_index] and the scan goes on.  Sentence 0
    matches "today" at position 0, sentence 1 matches "hello everyone"
    at position 3, and the later sentence replaces both values. *)
Theorem zero_offset_match_is_overridden :
  split_sentences latin1 (normalize latin1
    (txt "Today we will talk about graphs. So hello everyone and welcome."))
  = [txt "Today we will talk about graphs.";
     txt "So hello everyone and welcome."] /\
  pattern_hit latin1 (txt "Today we will talk about graphs.") = Some 0%Z /\
  find_start latin1
    [txt "Today we will talk about graphs.";
     txt "So hello everyone and welcome."] = Ok (1%Z, 3%Z) /\
  clean_transcript latin1
    (txt "Today we will talk about graphs. So hello everyone and welcome.")
  = Ok (txt "hello everyone and welcome.").
Proof. repeat split; vm_compute; reflexivity. Qed.

(** C6, as stated, fails: the fallback is tested inside the scan, and here
    it fixes [start_index = 1] although sentence 2 matches the pattern
    "welcome to" (at position 3), which never gets its turn. *)
Lemma fallback_preempts_later_pattern :
  split_sentences latin1 (normalize latin1
    (txt "Mic check. The homework from last week is due on Friday and it is on the website. So welcome to the class."))
  = [txt "Mic check.";
     txt "The homework from last week is due on Friday and it is on the website.";
     txt "So welcome to the class."] /\
  pattern_hit latin1 (txt "So welcome to the class.") = Some 3%Z /\
  pattern_hit latin1
    (txt "The homework from last week is due on Friday and it is on the website.")
  = None /\
  find_start latin1
    [txt "Mic check.";
     txt "The homework from last week is due on Friday and it is on the website.";
     txt "So welcome to the class."] = Ok (1%Z, 0%Z).
Proof. repeat split; vm_compute; reflexivity. Qed.

(** C6, amended -- Fallback gating: the fallback is tested sentence by
    sentence inside the scan, after the patterns of the same sentence, so
    the first sentence that is not quiet decides.  When sentence [i]
    passes the fallback test and matches no pattern, and no earlier
    sentence matches a pattern or passes the test, [start_index = i] and
    [start_char_offset = 0], whatever later sentences match; when instead
    sentence [i] holds a pattern match at a positive position, that match
    gives both values. *)
Theorem fallback_decides_when_first (U : unicode) (ss : list str) (i : Z) :
  (0 <= i < len ss)%Z ->
  (forall j, (0 <= j < i)%Z -> quiet U ss j) ->
  (pattern_hit U (sentence ss i) = None -> fallback_ok U ss i = true ->
   find_start U ss = Ok (i, 0%Z)) /\
  (forall off, pattern_hit U (sentence ss i) = Some off -> (0 < off)%Z ->
   find_start U ss = Ok (i, off)).
Proof.
  intros Hi Hq. split.
  - intros Hp Hf. rewrite (@find_start_skips_quiet U ss i) by (auto; lia).
    rewrite start_loop_step by lia. rewrite Hp, Hf. reflexivity.
  - intros off Hp Hoff. now apply positive_match_decides.
Qed.

(** [fallback_decides_when_first] at the three sentences above, where
    the fallback fires at index 1. *)
Lemma fallback_decides_witness :
  (0 <= 1 < len [txt "Mic check.";
     txt "The homework from last week is due on Friday and it is on the website.";
     txt "So welcome to the class."])%Z /\
  (forall j, (0 <= j < 1)%Z ->
     quiet latin1 [txt "Mic check.";
       txt "The homework from last week is due on Friday and it is on the website.";
       txt "So welcome to the class."] j) /\
  find_start latin1 [txt "Mic check.";
     txt "The homework from last week is due on Friday and it is on the website.";
     txt "So welcome to the class."] = Ok (1%Z, 0%Z).
Proof.
  assert (H1 : (0 <= 1 < len [txt "Mic check.";
     txt "The homework from last week is due on Friday and it is on the website.";
     txt "So welcome to the class."])%Z) by (vm_compute; split; congruence).
  assert (H2 : forall j, (0 <= j < 1)%Z ->
     quiet latin1 [txt "Mic check.";
       txt "The homework from last week is due on Friday and it is on the website.";
       txt "So welcome to the class."] j).
  { intros j Hj. replace j with 0%Z by lia. split; vm_compute; reflexivity. }
  split; [exact H1|]. split; [exact H2|].
  apply (proj1 (@fallback_decides_when_first latin1 _ 1%Z H1 H2));
    vm_compute; reflexivity.
Defined.

(* ================================================================== *)
(** * Cleaning twice *)

(** C9, as stated, fails: the first pass cuts the sentence down to
    "good morning.", which the second pass drops as shorter than 15
    characters. *)
Lemma clean_transcript_not_idempotent :
  clean_transcript latin1 (txt "Can everybody hear me, good morning.")
  = Ok (txt "good morning.") /\
  clean_transcript latin1 (txt "good morning.") = Ok [].
Proof. split; vm_compute; reflexivity. Qed.

(** C9, amended -- Cleaning twice: both passes return, and the second
    returns a string no longer than the first; it may be shorter. *)
Theorem clean_twice_no_longer (U : unicode) (text : str) :
  exists once twice,
    clean_transcript U text = Ok once /\
    clean_transcript U once = Ok twice /\
    (length twice <= length once)%nat.
Proof.
  destruct (clean_transcript_bounded U text) as [once [H1 _]].
  destruct (clean_transcript_bounded U once) as [twice [H2 Hlen]].
  exists once, twice. repeat split; auto.
  etransitivity; [exact Hlen|]. apply normalize_shorter.
Qed.

(* ================================================================== *)
(** * The accented-word pass of the normalizer *)

Section AccentedWord.

Variable U : unicode.

Lemma after_app p a b : after p (a ++ b) = after (after p a) b.
Proof. revert p. induction a as [|x a IH]; intros p; simpl; auto. Qed.

Lemma star_self ic cs p s : In (p, s) (star U ic cs p s).
Proof.
  destruct s as [|x t]; simpl; [auto|].
  destruct (in_cset U ic cs x); [apply in_or_app; right|]; simpl; auto.
Qed.

Lemma in_star ic cs s : forall p c',
  In c' (star U ic cs p s) <->
  exists l, s = l ++ snd c' /\
            Forall (fun x => in_cset U ic cs x = true) l /\
            fst c' = after p l.
Proof.
  induction s as [|x t IH]; intros p c'; split.
  - simpl. intros [<-|[]]. exists []. simpl. auto.
  - intros [l [Hs [Hl Hf]]]. destruct l; [|discriminate].
    simpl in *. left. destruct c'; simpl in *; subst; auto.
  - simpl. destruct (in_cset U ic cs x) eqn:E.
    + intros H. apply in_app_or in H. destruct H as [H|[<-|[]]].
      * apply IH in H. destruct H as [l [Hs [Hl Hf]]].
        exists (x :: l). simpl. rewrite <- Hs. auto.
      * exists []. simpl. auto.
    + intros [<-|[]]. exists []. simpl. auto.
  - intros [l [Hs [Hl Hf]]]. destruct l as [|y l].
    + destruct c' as [q r]. simpl in Hs, Hf. subst. apply star_self.
    + simpl in Hs. injection Hs as <- Ht. inversion Hl; subst.
      cbn [star]. rewrite H1. apply in_or_app. left. apply IH.
      exists l. auto.
Qed.

Lemma in_run_cat ic a b c c' :
  In c' (run U ic (Cat a b) c) <->
  exists m, In m (run U ic a c) /\ In c' (run U ic b m).
Proof. simpl. apply in_flat_map. Qed.

Lemma in_run_cls ic cs c c' :
  In c' (run U ic (Cls cs) c) <->
  exists x, snd c = x :: snd c' /\ in_cset U ic cs x = true /\
            fst c' = Some x.
Proof.
  destruct c as [p [|x t]]; simpl.
  - split; [intros []|intros [x [H _]]; discriminate].
  - destruct (in_cset U ic cs x) eqn:E; split.
    + intros [<-|[]]. exists x. auto.
    + intros [y [[= <- Ht] [_ Hf]]]. left.
      destruct c'; simpl in *; subst; auto.
    + intros [].
    + intros [y [[= <- Ht] [Hy _]]]. congruence.
Qed.

Lemma in_run_wordb ic c c' :
  In c' (run U ic WordB c) <-> boundary U c = true /\ c' = c.
Proof.
  simpl. destruct (boundary U c); simpl; split.
  - intros [<-|[]]. auto.
  - intros [_ ->]. auto.
  - intros [].
  - intros [H _]. discriminate.
Qed.

Lemma hit_false_head ic r c :
  hit U false ic r c =
  match run U ic r c with
  | c' :: _ => Some (consumed c c')
  | [] => None
  end.
Proof. unfold hit. destruct (run U ic r c); reflexivity. Qed.

(** ** What a match of [accented_word] looks like *)

Lemma accented_word_sound p s c' :
  In c' (run U true accented_word (p, s)) ->
  exists m, s = m ++ snd c' /\ fst c' = after p m /\ shaped U m /\
            boundary U (p, s) = true /\ boundary U c' = true.
Proof.
  unfold accented_word. cbn [cat].
  intros H.
  apply in_run_cat in H. destruct H as [c1 [H1 H]].
  apply in_run_wordb in H1. destruct H1 as [Hb ->].
  apply in_run_cat in H. destruct H as [c2 [H2 H]].
  apply in_run_cat in H. destruct H as [c3 [H3 H]].
  apply in_run_cat in H. destruct H as [c4 [H4 H]].
  apply in_run_cat in H. destruct H as [c5 [H5 H]].
  apply in_run_wordb in H. destruct H as [Hb' ->].
  cbn [run] in H3, H5. apply in_star in H3, H5.
  destruct H3 as [l [Hs3 [Hl Hf3]]]. destruct H5 as [l' [Hs5 [Hl' Hf5]]].
  apply in_run_cls in H4. destruct H4 as [c [Hs4 [Hc Hf4]]].
  assert (Hu : exists u, s = u ++ snd c2 /\ fst c2 = after p u /\
                (u = [] \/ exists x, u = [x] /\ in_cset U true AZ x = true)).
  { cbn [run] in H2. apply in_app_or in H2. destruct H2 as [H2|[<-|[]]].
    - apply in_run_cls in H2. destruct H2 as [x [Hs [Hx Hf]]].
      exists [x]. simpl in *. repeat split; eauto.
    - exists []. simpl. auto. }
  destruct Hu as [u [Hs2 [Hf2 Hu]]].
  exists (u ++ l ++ c :: l'). repeat split; auto.
  - rewrite Hs2, Hs3, Hs4, Hs5. rewrite <- !app_assoc. simpl.
    reflexivity.
  - rewrite Hf5, Hf4. rewrite !after_app. simpl. reflexivity.
  - exists u, l, c, l'. auto.
Qed.

Lemma accented_word_complete p m rest :
  shaped U m ->
  boundary U (p, m ++ rest) = true ->
  boundary U (after p m, rest) = true ->
  In (after p m, rest) (run U true accented_word (p, m ++ rest)).
Proof.
  intros [u [l [c [l' [-> [Hu [Hl [Hc Hl']]]]]]]] Hb Hb'.
  unfold accented_word. cbn [cat].
  apply in_run_cat. exists (p, (u ++ l ++ c :: l') ++ rest).
  split; [apply in_run_wordb; auto|].
  apply in_run_cat. exists (after p u, (l ++ c :: l') ++ rest). split.
  { cbn [run]. apply in_or_app. destruct Hu as [->|[x [-> Hx]]].
    - right. simpl. auto.
    - left. apply in_run_cls. exists x. simpl. auto. }
  apply in_run_cat. exists (after (after p u) l, (c :: l') ++ rest). split.
  { cbn [run fst snd]. apply in_star. exists l. simpl.
    rewrite <- app_assoc. auto. }
  apply in_run_cat. exists (Some c, l' ++ rest). split.
  { apply in_run_cls. exists c. simpl. auto. }
  apply in_run_cat. exists (after (Some c) l', rest). split.
  { cbn [run fst snd]. apply in_star. exists l'. simpl. auto. }
  apply in_run_wordb. rewrite !after_app in *. simpl in *. auto.
Qed.

End AccentedWord.

Section AccentedWordPass.

Variable U : unicode.

Hypothesis HW : letters_are_words U.

Let wordy (m : str) : Prop := Forall (fun x => isword U x = true) m.

Lemma class_words cs m :
  (cs = az \/ cs = AZ \/ cs = accented) ->
  Forall (fun x => in_cset U true cs x = true) m -> wordy m.
Proof.
  intros Hcs H. unfold wordy. rewrite Forall_forall in *. intros x Hx.
  apply H in Hx. apply HW.
  destruct Hcs as [-> | [-> | ->]]; rewrite Hx; rewrite ?orb_true_r; reflexivity.
Qed.

Lemma shaped_words m : shaped U m -> wordy m /\ m <> [].
Proof.
  intros [u [l [c [l' [-> [Hu [Hl [Hc Hl']]]]]]]]. split.
  - unfold wordy.
    apply Forall_app; split; [|apply Forall_app; split; [|constructor]].
    + destruct Hu as [->|[x [-> Hx]]]; [constructor|].
      apply (@class_words AZ); auto.
    + apply (@class_words az); auto.
    + apply HW. rewrite Hc. apply orb_true_r.
    + apply (@class_words az); auto.
  - destruct u, l; discriminate.
Qed.

Lemma word_prefix_app m rest :
  wordy m -> word_at U (hd_error rest) = false ->
  word_prefix U (m ++ rest) = m.
Proof.
  intros Hm Hr. induction Hm as [|x m Hx Hm IH]; simpl.
  - destruct rest as [|y rest]; simpl in *; [reflexivity|]. now rewrite Hr.
  - rewrite Hx, IH. reflexivity.
Qed.

Lemma word_prefix_split s :
  exists rest, s = word_prefix U s ++ rest /\
               word_at U (hd_error rest) = false.
Proof.
  induction s as [|x t [rest [E Hr]]]; simpl.
  - exists []. auto.
  - destruct (isword U x) eqn:Ex.
    + exists rest. simpl. rewrite <- E. auto.
    + exists (x :: t). simpl. auto.
Qed.

Lemma word_prefix_words s : wordy (word_prefix U s).
Proof.
  induction s as [|x t IH]; simpl; [constructor|].
  destruct (isword U x) eqn:Ex; constructor; auto.
Qed.

Lemma word_after m : forall p,
  m <> [] -> wordy m -> word_at U (after p m) = true.
Proof.
  induction m as [|x m IH]; intros p Hne Hm; [congruence|].
  inversion Hm; subst. destruct m as [|y m]; [simpl; auto|].
  change (after p (x :: y :: m)) with (after (Some x) (y :: m)).
  apply IH; [discriminate|auto].
Qed.

Lemma word_head m rest :
  m <> [] -> wordy m -> word_at U (hd_error (m ++ rest)) = true.
Proof.
  intros Hne Hm. destruct m; [congruence|]. inversion Hm; subst. auto.
Qed.

(** A match of [accented_word] is the whole run of word characters at
    its position. *)
Lemma hit_sound p s n :
  hit U false true accented_word (p, s) = Some n ->
  word_at U p = false /\ shaped U (word_prefix U s) /\
  n = length (word_prefix U s).
Proof.
  intros H. apply hit_in in H. destruct H as [c' [Hin ->]].
  apply accented_word_sound in Hin.
  destruct Hin as [m [Hs [Hf [Hm [Hb Hb']]]]].
  destruct (shaped_words Hm) as [Hw Hne].
  unfold boundary in Hb, Hb'. cbn [fst snd] in Hb.
  rewrite Hf, (word_after p Hne Hw) in Hb'.
  rewrite Hs, (word_head _ Hne Hw) in Hb.
  assert (Hr : word_at U (hd_error (snd c')) = false)
    by (destruct (word_at U (hd_error (snd c'))); [discriminate|auto]).
  assert (Hp : word_at U p = false)
    by (destruct (word_at U p); [discriminate|auto]).
  rewrite Hs, (word_prefix_app _ Hw Hr).
  repeat split; auto.
  unfold consumed. cbn [snd]. rewrite length_app. lia.
Qed.

Lemma hit_complete p s :
  word_at U p = false -> shaped U (word_prefix U s) ->
  hit U false true accented_word (p, s) = Some (length (word_prefix U s)).
Proof.
  intros Hp Hm. destruct (shaped_words Hm) as [Hw Hne].
  destruct (word_prefix_split s) as [rest [Hs Hr]].
  assert (Hin : In (after p (word_prefix U s), rest)
                   (run U true accented_word (p, s))).
  { rewrite Hs at 2. apply accented_word_complete; auto.
    - rewrite <- Hs. unfold boundary. cbn [fst snd].
      rewrite Hs, (word_head _ Hne Hw), Hp. reflexivity.
    - unfold boundary. cbn [fst snd].
      rewrite (word_after p Hne Hw), Hr. reflexivity. }
  destruct (hit U false true accented_word (p, s)) as [n|] eqn:E.
  - apply hit_sound in E. destruct E as [_ [_ ->]]. reflexivity.
  - rewrite hit_false_head in E.
    destruct (run U true accented_word (p, s)); [destruct Hin|discriminate].
Qed.

(** The match at a position depends on the text through the run of word
    characters there only. *)
Lemma hit_local p s1 s2 :
  word_prefix U s1 = word_prefix U s2 ->
  hit U false true accented_word (p, s1) =
  hit U false true accented_word (p, s2).
Proof.
  intros E.
  destruct (hit U false true accented_word (p, s1)) as [n|] eqn:E1.
  - apply hit_sound in E1. destruct E1 as [Hp [Hm ->]].
    rewrite E in *. symmetry. now apply hit_complete.
  - destruct (hit U false true accented_word (p, s2)) as [n|] eqn:E2; auto.
    apply hit_sound in E2. destruct E2 as [Hp [Hm _]].
    rewrite <- E in Hm. rewrite (@hit_complete p s1 Hp Hm) in E1. discriminate.
Qed.

Lemma hit_outside_word p s :
  word_prefix U s = [] -> hit U false true accented_word (p, s) = None.
Proof.
  intros E. destruct (hit U false true accented_word (p, s)) eqn:E1; auto.
  apply hit_sound in E1. destruct E1 as [_ [Hm _]].
  apply shaped_words in Hm. rewrite E in Hm. destruct Hm. congruence.
Qed.

Lemma accented_word_never_empty : never_empty U true accented_word.
Proof.
  intros [p s] c' H. apply accented_word_sound in H.
  destruct H as [m [Hs [_ [Hm _]]]]. apply shaped_words in Hm.
  destruct Hm as [_ Hne]. cbn [snd]. rewrite Hs, length_app.
  destruct m; [congruence|]. simpl. lia.
Qed.

(** ** The scan around an accented word *)

Lemma word_prefix_inside xs : forall p ext,
  xs <> [] -> word_at U (after p xs) = false ->
  word_prefix U (xs ++ ext) = word_prefix U xs /\
  (length (word_prefix U xs) < length xs)%nat.
Proof.
  induction xs as [|x xs IH]; intros p ext Hne Ha; [congruence|].
  simpl. destruct (isword U x) eqn:Ex; [|simpl; split; [auto|lia]].
  destruct xs as [|y xs].
  - simpl in Ha. congruence.
  - destruct (IH (Some x) ext) as [E L]; [discriminate|auto|].
    rewrite E. split; [reflexivity|]. simpl in *. lia.
Qed.

Lemma scan_pass ic r m : forall p rest,
  scan U ic r p (m ++ rest) (length m) = scan U ic r (after p m) rest 0.
Proof.
  induction m as [|x m IH]; intros p rest; [reflexivity|].
  simpl app. simpl length. rewrite scan_skip. apply IH.
Qed.

Lemma scan_outside_word q y :
  word_at U (hd_error y) = false ->
  scan U true accented_word q y 0 = scan U true accented_word None y 0.
Proof.
  intros Hy. destruct y as [|y0 y].
  - rewrite !scan_end, !hit_outside_word; auto.
  - assert (E : word_prefix U (y0 :: y) = [])
      by (simpl in *; now rewrite Hy).
    rewrite !scan_here, !hit_outside_word; auto.
Qed.

Variables (w y : str).

Hypothesis Hw : shaped U w.

Hypothesis Hy : word_at U (hd_error y) = false.

Lemma scan_at_word p :
  word_at U p = false ->
  kept (scan U true accented_word p (w ++ y) 0) =
  kept (scan U true accented_word None y 0).
Proof.
  intros Hp. destruct (shaped_words Hw) as [Hww Hne].
  assert (E : hit U false true accented_word (p, w ++ y) = Some (length w)).
  { rewrite <- (word_prefix_app _ Hww Hy) at 2.
    apply hit_complete; auto. now rewrite (word_prefix_app _ Hww Hy). }
  destruct w as [|x m] eqn:Ew; [congruence|].
  simpl app in *. rewrite scan_here, E. simpl length.
  cbn [kept flat_map app]. fold (kept (scan U true accented_word (Some x) (m ++ y) (length m))).
  rewrite scan_pass. now rewrite scan_outside_word.
Qed.

Lemma scan_before_word xs : forall p skip,
  word_at U (after p xs) = false ->
  (skip < length xs)%nat \/ skip = 0%nat ->
  kept (scan U true accented_word p (xs ++ w ++ y) skip) =
  kept (scan U true accented_word p xs skip) ++
  kept (scan U true accented_word None y 0).
Proof.
  induction xs as [|x xs IH]; intros p skip Ha Hskip.
  - assert (skip = 0%nat) as -> by (simpl in Hskip; lia).
    change ([] ++ w ++ y) with (w ++ y). simpl in Ha.
    rewrite scan_at_word by auto.
    rewrite scan_end, hit_outside_word by reflexivity. reflexivity.
  - change ((x :: xs) ++ w ++ y) with (x :: (xs ++ w ++ y)).
    destruct skip as [|k].
    + rewrite !scan_here.
      destruct (@word_prefix_inside (x :: xs) p (w ++ y)) as [E L];
        [discriminate|auto|].
      pose proof (@hit_local p _ _ E) as Eloc.
      change ((x :: xs) ++ w ++ y) with (x :: xs ++ w ++ y) in Eloc.
      rewrite Eloc.
      destruct (hit U false true accented_word (p, x :: xs)) as [[|n]|] eqn:Eh.
      * apply hit_positive in Eh; [lia|apply accented_word_never_empty].
      * apply hit_sound in Eh. destruct Eh as [_ [_ En]].
        cbn [kept flat_map app].
        apply (IH (Some x) n); [auto|].
        assert (length (x :: xs) = S (length xs)) by reflexivity. lia.
      * cbn [kept flat_map app]. f_equal.
        apply (IH (Some x) 0%nat); auto.
    + rewrite !scan_skip. apply IH; [auto|]. simpl in Hskip. lia.
Qed.

End AccentedWordPass.

(** ** The Latin-1 tables are as [accented_word] needs them *)

Ltac to_props :=
  repeat rewrite ?orb_true_iff, ?andb_true_iff, ?negb_true_iff,
    ?N.leb_le, ?N.eqb_eq, ?N.eqb_neq in *.

Lemma between_spec lo hi c : between lo hi c = true <-> (lo <= c <= hi)%N.
Proof. unfold between. to_props. reflexivity. Qed.

Lemma isupper1_spec c :
  isupper1 c = true ->
  (65 <= c <= 90 \/ (192 <= c <= 222 /\ c <> 215) \/ 1040 <= c <= 1071)%N.
Proof. unfold isupper1, between. to_props. tauto. Qed.

Lemma islower1_spec c :
  islower1 c = true ->
  (97 <= c <= 122 \/ (224 <= c <= 254 /\ c <> 247) \/ 1072 <= c <= 1103)%N.
Proof. unfold islower1, between. to_props. tauto. Qed.

(** Under IGNORECASE a class accepts a character, its lower-case or its
    upper-case form. *)
Lemma icase1_spec lo hi c :
  icase1 lo hi c = true ->
  (lo <= c <= hi)%N \/
  (isupper1 c = true /\ lo <= c + 32 <= hi)%N \/
  (islower1 c = true /\ lo <= c - 32 <= hi)%N.
Proof.
  unfold icase1, lower1, upper1. rewrite !orb_true_iff, !between_spec.
  destruct (isupper1 c), (islower1 c); intuition auto.
Qed.

Lemma isword1_latin_letter c :
  (65 <= c <= 90 \/ 97 <= c <= 122 \/
   (192 <= c <= 255 /\ c <> 215 /\ c <> 247))%N -> isword1 c = true.
Proof.
  intros H. unfold isword1.
  assert (E : between 65 90 c || between 97 122 c ||
              between 192 255 c && negb (c =? 215)%N && negb (c =? 247)%N
              = true).
  { unfold between. to_props. lia. }
  apply orb_true_iff in E. destruct E as [E|E].
  - apply orb_true_iff in E. destruct E as [E|E]; rewrite E;
      rewrite ?orb_true_r; reflexivity.
  - rewrite E. rewrite ?orb_true_r. reflexivity.
Qed.

Lemma icase1_letter lo hi c :
  ((lo = 97 /\ hi = 122) \/ (lo = 65 /\ hi = 90) \/
   (lo = hi /\ 224 <= lo <= 255 /\ lo <> 247))%N ->
  icase1 lo hi c = true -> isword1 c = true.
Proof.
  intros Hr H. apply isword1_latin_letter. apply icase1_spec in H.
  destruct H as [H|[[Hu H]|[Hl H]]].
  - lia.
  - apply isupper1_spec in Hu. lia.
  - apply islower1_spec in Hl. lia.
Qed.

Lemma latin1_letters_are_words : letters_are_words latin1.
Proof.
  intros c H. cbn [latin1 isword].
  apply orb_true_iff in H. destruct H as [H|H];
    [apply orb_true_iff in H; destruct H as [H|H]|];
    unfold in_cset in H; apply existsb_exists in H;
    destruct H as [it [Hin H]].
  - destruct Hin as [<-|[]]. apply (icase1_letter (lo := 97) (hi := 122));
      [lia|exact H].
  - destruct Hin as [<-|[]]. apply (icase1_letter (lo := 65) (hi := 90));
      [lia|exact H].
  - unfold accented in Hin. apply in_map_iff in Hin.
    destruct Hin as [x [<- Hx]]. cbn [in_item latin1 icase] in H.
    apply (icase1_letter (lo := x) (hi := x)); [|exact H].
    right. right. simpl in Hx.
    repeat (destruct Hx as [<-|Hx]; [lia|]). destruct Hx.
Qed.

(** ** The passes before the accented-word pass *)

Section ScriptPasses.

Variable U : unicode.

Lemma scan_plus_absent ic cs s : forall p,
  Forall (fun k => in_cset U ic cs k = false) s ->
  scan U ic (Plus cs) p s 0 = map Keep s.
Proof.
  induction s as [|x t IH]; intros p H.
  - reflexivity.
  - inversion H as [|? ? Hx Ht]; subst. rewrite scan_here.
    unfold hit. cbn [run snd]. rewrite Hx. cbn [find map]. now rewrite IH.
Qed.

Lemma kept_map_Keep s : kept (map Keep s) = s.
Proof. induction s as [|x t IH]; simpl; [auto|now rewrite IH]. Qed.

Lemma re_sub_plus_absent ic cs s :
  Forall (fun k => in_cset U ic cs k = false) s ->
  re_sub U ic (Plus cs) [] s = s.
Proof.
  intros H. change (re_sub U ic (Plus cs) [] s)
    with (kept (scan U ic (Plus cs) None s 0)).
  rewrite scan_plus_absent by auto. apply kept_map_Keep.
Qed.

Lemma no_script_class s cs :
  no_script U s -> In cs script_classes ->
  Forall (fun k => in_cset U true cs k = false) s.
Proof.
  unfold no_script. rewrite !Forall_forall. intros H Hcs k Hk.
  specialize (H k Hk).
  destruct (in_cset U true cs k) eqn:E; [|reflexivity].
  rewrite <- H. symmetry. apply existsb_exists. exists cs. auto.
Qed.

End ScriptPasses.

Lemma Forall_check {A} (f : A -> bool) (b : bool) l :
  forallb (fun k => Bool.eqb (f k) b) l = true ->
  Forall (fun k => f k = b) l.
Proof.
  intros H. apply Forall_forall. intros k Hk.
  rewrite forallb_forall in H. apply Bool.eqb_prop. auto.
Qed.

(** C10, as stated, fails: a word with two accented characters has no
    match of [\b[A-Z]?[a-z]*[...][a-z]*\b], which allows one, and goes
    through the normalizer and the whole cleaner unchanged. *)
Lemma two_accents_survive :
  normalize latin1 (txt "résumé") = txt "résumé" /\
  clean_transcript latin1
    (txt "Please send your résumé to the office before the end of the week.")
  = Ok (txt "Please send your résumé to the office before the end of the week.").
Proof. split; vm_compute; reflexivity. Qed.


(* ================================================================== *)
(** * More on the scanner *)

Section ScannerFacts.

Variable U : unicode.

Lemma subseq_refl {A} (l : list A) : subseq l l.
Proof. induction l; [apply subseq_nil|apply subseq_take; auto]. Qed.

Lemma subseq_trans {A} (a b c : list A) :
  subseq a b -> subseq b c -> subseq a c.
Proof.
  intros Hab Hbc. revert a Hab.
  induction Hbc as [|x b c Hbc IH|x b c Hbc IH]; intros a Hab.
  - exact Hab.
  - constructor. auto.
  - inversion Hab; subst.
    + constructor. auto.
    + apply subseq_take. auto.
Qed.

Lemma subseq_nil_l {A} (l : list A) : subseq [] l.
Proof. induction l; [apply subseq_nil|apply subseq_skip; auto]. Qed.

Lemma subseq_app {A} (a b c d : list A) :
  subseq a b -> subseq c d -> subseq (a ++ c) (b ++ d).
Proof.
  induction 1; simpl; intros; auto;
    [apply subseq_skip|apply subseq_take]; auto.
Qed.

Lemma subseq_skipn {A} n (l : list A) : subseq (skipn n l) l.
Proof.
  revert l. induction n; intros [|x l]; simpl; try apply subseq_refl.
  apply subseq_skip. auto.
Qed.

Lemma subseq_firstn {A} n (l : list A) : subseq (firstn n l) l.
Proof.
  revert l. induction n; intros [|x l]; simpl; try apply subseq_nil_l.
  apply subseq_take. auto.
Qed.

Lemma subseq_In {A} (a b : list A) x : subseq a b -> In x a -> In x b.
Proof. induction 1; simpl; intros; auto. destruct H0; auto. Qed.

Lemma subseq_filter {A} (f : A -> bool) l : subseq (filter f l) l.
Proof.
  induction l as [|x l IH]; simpl; [constructor|].
  destruct (f x); [apply subseq_take|apply subseq_skip]; auto.
Qed.

Lemma subseq_rev {A} (a b : list A) : subseq a b -> subseq (rev a) (rev b).
Proof.
  induction 1; simpl.
  - constructor.
  - rewrite <- (app_nil_r (rev a)). apply subseq_app; auto.
    apply subseq_nil_l.
  - apply subseq_app; auto. apply subseq_refl.
Qed.

(** What the scanner keeps is the text with the matches left out. *)
Lemma kept_subseq ic r s : forall p skip,
  subseq (kept (scan U ic r p s skip)) s.
Proof.
  induction s as [|x t IH]; intros p skip.
  - destruct skip; [rewrite scan_end; destruct (hit _ _ _ _ _)|];
      simpl; constructor.
  - destruct skip as [|k].
    + rewrite scan_here.
      destruct (hit U false ic r (p, x :: t)) as [[|n]|].
      * destruct (hit U true ic r (p, x :: t)) as [[|n]|];
          cbn [kept flat_map app];
          [apply subseq_take|apply subseq_skip|apply subseq_take]; apply IH.
      * cbn [kept flat_map app]. apply subseq_skip. apply IH.
      * cbn [kept flat_map app]. apply subseq_take. apply IH.
    + rewrite scan_skip. apply subseq_skip. apply IH.
Qed.

(** Matches and kept characters together give the text back. *)
Lemma scan_text ic r s : forall p skip,
  flat_map tok_text (scan U ic r p s skip) = skipn skip s.
Proof.
  induction s as [|x t IH]; intros p skip.
  - destruct skip; [rewrite scan_end; destruct (hit _ _ _ _ _)|]; reflexivity.
  - destruct skip as [|k].
    + rewrite scan_here.
      destruct (hit U false ic r (p, x :: t)) as [[|n]|] eqn:E.
      * destruct (hit U true ic r (p, x :: t)) as [[|n]|] eqn:E';
          cbn [flat_map tok_text app]; rewrite IH;
          try reflexivity.
        cbn [firstn skipn app]. f_equal. f_equal. apply firstn_skipn.
      * cbn [flat_map tok_text app]. rewrite IH.
        cbn [firstn skipn app]. f_equal. apply firstn_skipn.
      * cbn [flat_map tok_text app]. rewrite IH. reflexivity.
    + rewrite scan_skip. apply IH.
Qed.

(** Every match the scanner reports is one the matcher found. *)
Lemma scan_hits ic r (P : str -> Prop) s : forall p skip,
  P [] ->
  (forall c c', In c' (run U ic r c) -> P (firstn (consumed c c') (snd c))) ->
  Forall (fun t => match t with Hit m => P m | Keep _ => True end)
         (scan U ic r p s skip).
Proof.
  intros p skip H0 H. revert p skip.
  induction s as [|x t IH]; intros p skip.
  - destruct skip; [rewrite scan_end; destruct (hit _ _ _ _ _)|];
      repeat constructor; auto.
  - destruct skip as [|k].
    + rewrite scan_here.
      assert (Hh : forall adv n, hit U adv ic r (p, x :: t) = Some n ->
                     P (firstn n (x :: t))).
      { intros adv n E. apply hit_in in E. destruct E as [c' [Hin ->]].
        apply (H _ _ Hin). }
      destruct (hit U false ic r (p, x :: t)) as [[|n]|] eqn:E.
      * destruct (hit U true ic r (p, x :: t)) as [[|n]|] eqn:E';
          repeat constructor; auto.
        apply (Hh true _ E').
      * constructor; [apply (Hh false _ E)|auto].
      * constructor; auto.
    + rewrite scan_skip. auto.
Qed.

End ScannerFacts.

(* ================================================================== *)
(** * Repeated character classes *)

Section PlusFacts.

Variable U : unicode.

Lemma span_le ic cs s : (span U ic cs s <= length s)%nat.
Proof.
  induction s as [|x t IH]; simpl; [lia|].
  destruct (in_cset U ic cs x); simpl; lia.
Qed.

Lemma span_run ic cs l rest :
  Forall (fun x => in_cset U ic cs x = true) l ->
  (length l <= span U ic cs (l ++ rest))%nat.
Proof.
  induction 1 as [|x l Hx Hl IH]; simpl; [lia|]. rewrite Hx. lia.
Qed.

Lemma span_firstn ic cs s :
  Forall (fun x => in_cset U ic cs x = true) (firstn (span U ic cs s) s).
Proof.
  induction s as [|x t IH]; simpl; [constructor|].
  destruct (in_cset U ic cs x) eqn:E; simpl; constructor; auto.
Qed.

Lemma span_skipn ic cs s :
  match skipn (span U ic cs s) s with
  | x :: _ => in_cset U ic cs x = false
  | [] => True
  end.
Proof.
  induction s as [|x t IH]; simpl; [auto|].
  destruct (in_cset U ic cs x) eqn:E; simpl; auto.
Qed.

(** The first way [[cs]*] matches is the longest. *)
Lemma star_head ic cs s : forall p,
  exists rest,
    star U ic cs p s =
    (after p (firstn (span U ic cs s) s), skipn (span U ic cs s) s) :: rest.
Proof.
  induction s as [|x t IH]; intros p; simpl.
  - eexists. reflexivity.
  - destruct (in_cset U ic cs x).
    + destruct (IH (Some x)) as [rest ->]. simpl. eexists. reflexivity.
    + simpl. eexists. reflexivity.
Qed.

(** [[cs]+] at a position: the whole run of class characters there. *)
Lemma hit_plus ic cs p s :
  hit U false ic (Plus cs) (p, s) =
  match s with
  | x :: t =>
      if in_cset U ic cs x then Some (S (span U ic cs t)) else None
  | [] => None
  end.
Proof.
  rewrite hit_false_head. cbn [run snd].
  destruct s as [|x t]; [reflexivity|].
  destruct (in_cset U ic cs x); [|reflexivity].
  destruct (star_head ic cs t (Some x)) as [rest ->].
  unfold consumed. cbn [snd length]. f_equal.
  rewrite length_skipn. pose proof (span_le ic cs t). lia.
Qed.

(** Deleting [[cs]+] deletes exactly the characters of the class. *)
Lemma kept_scan_plus ic cs s : forall p k,
  (k <= span U ic cs s)%nat ->
  kept (scan U ic (Plus cs) p s k) =
  filter (fun c => negb (in_cset U ic cs c)) s.
Proof.
  induction s as [|x t IH]; intros p k Hk.
  - simpl in Hk. assert (k = 0%nat) as -> by lia.
    rewrite scan_end, hit_plus. reflexivity.
  - simpl in Hk. destruct k as [|k].
    + rewrite scan_here, hit_plus. cbn [filter].
      destruct (in_cset U ic cs x) eqn:E; cbn [negb kept flat_map app].
      * apply (IH (Some x)). lia.
      * f_equal. apply (IH (Some x)). lia.
    + rewrite scan_skip. cbn [filter].
      destruct (in_cset U ic cs x) eqn:E; [|lia]. cbn [negb].
      apply IH. lia.
Qed.

Lemma re_sub_plus_filter ic cs s :
  re_sub U ic (Plus cs) [] s = filter (fun c => negb (in_cset U ic cs c)) s.
Proof.
  change (re_sub U ic (Plus cs) [] s)
    with (kept (scan U ic (Plus cs) None s 0)).
  apply kept_scan_plus. lia.
Qed.

Lemma re_sub_delete_subseq ic r s : subseq (re_sub U ic r [] s) s.
Proof.
  change (re_sub U ic r [] s) with (kept (scan U ic r None s 0)).
  apply kept_subseq.
Qed.

Lemma fold_delete_subseq ps : forall s,
  subseq (fold_left (fun t p => re_sub U true p [] t) ps s) s.
Proof.
  induction ps as [|p ps IH]; intros s; simpl.
  - apply subseq_refl.
  - eapply subseq_trans; [apply IH|apply re_sub_delete_subseq].
Qed.

Lemma normalize_subseq text : subseq (normalize U text) text.
Proof. apply fold_delete_subseq. Qed.

(** After the pass for a script class and whatever passes follow, no
    character of the class is left. *)
Lemma fold_delete_after_plus cs ps s c :
  In c (fold_left (fun t p => re_sub U true p [] t) (Plus cs :: ps) s) ->
  in_cset U true cs c = false.
Proof.
  simpl. intros H.
  apply (@subseq_In _ _ _ c (fold_delete_subseq ps _)) in H.
  rewrite re_sub_plus_filter in H. apply filter_In in H.
  destruct H as [_ H]. now apply negb_true_iff in H.
Qed.

Lemma normalize_no_script_char text c cs :
  In c (normalize U text) -> In cs script_classes ->
  in_cset U true cs c = false.
Proof.
  unfold normalize, hallucination_patterns. intros H Hcs.
  destruct Hcs as [<-|[<-|[<-|[<-|[]]]]].
  - exact (@fold_delete_after_plus hangul
             [Plus cjk; Plus kana; Plus cyrillic; accented_word;
              welsh_gibberish; iag] text c H).
  - exact (@fold_delete_after_plus cjk
             [Plus kana; Plus cyrillic; accented_word; welsh_gibberish; iag]
             (re_sub U true (Plus hangul) [] text) c H).
  - exact (@fold_delete_after_plus kana
             [Plus cyrillic; accented_word; welsh_gibberish; iag]
             (re_sub U true (Plus cjk) []
                (re_sub U true (Plus hangul) [] text)) c H).
  - exact (@fold_delete_after_plus cyrillic
             [accented_word; welsh_gibberish; iag]
             (re_sub U true (Plus kana) []
                (re_sub U true (Plus cjk) []
                   (re_sub U true (Plus hangul) [] text))) c H).
Qed.

End PlusFacts.

(* ================================================================== *)
(** * The final clean-up of the assembler *)

Section CleanUp.

Variable U : unicode.

Lemma in_ws x : in_cset U false ws x = isspace U x.
Proof. unfold in_cset, ws. simpl. apply orb_false_r. Qed.

(** ** Trimming *)

Lemma lstrip_starts_clean s : starts_clean U (lstrip U s).
Proof.
  induction s as [|x t IH]; simpl; auto.
  destruct (isspace U x) eqn:E; simpl; auto.
Qed.

Lemma lstrip_suffix s :
  exists pre, s = pre ++ lstrip U s /\
              Forall (fun c => isspace U c = true) pre.
Proof.
  induction s as [|x t [pre [E Hpre]]]; simpl.
  - exists []. auto.
  - destruct (isspace U x) eqn:Ex.
    + exists (x :: pre). simpl. rewrite <- E. auto.
    + exists []. auto.
Qed.

Lemma lstrip_snoc l c :
  isspace U c = false -> lstrip U (l ++ [c]) = lstrip U l ++ [c].
Proof.
  intros Hc. induction l as [|x l IH]; simpl.
  - now rewrite Hc.
  - destruct (isspace U x); auto.
Qed.

Lemma rstrip_prefix s :
  exists post, s = rstrip U s ++ post /\
               Forall (fun c => isspace U c = true) post.
Proof.
  unfold rstrip. destruct (lstrip_suffix (rev s)) as [pre [E Hpre]].
  exists (rev pre). split.
  - rewrite <- rev_app_distr, <- E. symmetry. apply rev_involutive.
  - apply Forall_rev. exact Hpre.
Qed.

Lemma rstrip_ends_clean s : starts_clean U (rev (rstrip U s)).
Proof. unfold rstrip. rewrite rev_involutive. apply lstrip_starts_clean. Qed.

Lemma rstrip_starts_clean s : starts_clean U s -> starts_clean U (rstrip U s).
Proof.
  destruct s as [|c s]; [intros _; reflexivity|]. simpl. intros Hc.
  unfold rstrip. simpl rev. rewrite (@lstrip_snoc (rev s) c Hc).
  rewrite rev_app_distr. simpl. exact Hc.
Qed.

Lemma strip_clean s :
  starts_clean U (strip U s) /\ starts_clean U (rev (strip U s)).
Proof.
  unfold strip. split.
  - apply rstrip_starts_clean, lstrip_starts_clean.
  - apply rstrip_ends_clean.
Qed.

Lemma strip_infix s :
  exists pre post, s = pre ++ strip U s ++ post /\
    Forall (fun c => isspace U c = true) pre /\
    Forall (fun c => isspace U c = true) post.
Proof.
  unfold strip. destruct (lstrip_suffix s) as [pre [E Hpre]].
  destruct (rstrip_prefix (lstrip U s)) as [post [E' Hpost]].
  exists pre, post. repeat split; auto. now rewrite <- E', <- E.
Qed.

(** ** Whitespace in normal form *)

Lemma collapsed_app_r a b : collapsed U (a ++ b) -> collapsed U b.
Proof. induction a as [|x a IH]; simpl; [auto|]. intros [_ H]. auto. Qed.

Lemma collapsed_app_l a b : collapsed U (a ++ b) -> collapsed U a.
Proof.
  induction a as [|x a IH]; simpl; [auto|]. intros [Hx H]. split; auto.
  intros Hs. destruct (Hx Hs) as [-> Hn]. split; [reflexivity|].
  destruct a; simpl in *; auto.
Qed.

Lemma collapsed_skipn n s : collapsed U s -> collapsed U (skipn n s).
Proof.
  intros H. rewrite <- (firstn_skipn n s) in H.
  now apply collapsed_app_r in H.
Qed.

(** [re.sub(r'\s+', ' ', s)]: every run of whitespace becomes one
    space. *)
Lemma squeeze_scan s : forall p k,
  k = 0%nat \/ k = span U false ws s ->
  collapsed U (flat_map (fun t => match t with
                                  | Keep c => [c]
                                  | Hit _ => [32%N]
                                  end)
                        (scan U false (Plus ws) p s k)) /\
  (k = span U false ws s ->
   starts_clean U (flat_map (fun t => match t with
                                      | Keep c => [c]
                                      | Hit _ => [32%N]
                                      end)
                            (scan U false (Plus ws) p s k))).
Proof.
  induction s as [|x t IH]; intros p k Hk.
  - assert (k = 0%nat) as -> by (simpl in Hk; lia).
    rewrite scan_end, hit_plus. simpl. auto.
  - cbn [span] in Hk |- *. destruct k as [|k].
    + rewrite scan_here, hit_plus.
      destruct (in_cset U false ws x) eqn:E; cbn [flat_map app].
      * destruct (IH (Some x) (span U false ws t)) as [Hc Hs]; [auto|].
        split; [|intros; discriminate].
        cbn [collapsed]. split; [|exact Hc].
        intros _. split; [reflexivity|]. specialize (Hs eq_refl).
        destruct (flat_map _ _); auto.
      * destruct (IH (Some x) 0%nat) as [Hc _]; [auto|].
        rewrite in_ws in E. split.
        -- cbn [collapsed]. split; [|exact Hc]. intros Hx. congruence.
        -- intros _. simpl. exact E.
    + rewrite scan_skip.
      destruct (in_cset U false ws x) eqn:E; [|destruct Hk; lia].
      assert (k = span U false ws t) by (destruct Hk; lia).
      destruct (IH (Some x) k) as [Hc Hs]; [auto|]. split; auto.
Qed.

Lemma squeeze_collapsed s :
  collapsed U (re_sub U false ws_run (txt " ") s).
Proof.
  change (txt " ") with [32%N]. unfold re_sub, ws_run.
  apply (@squeeze_scan s None 0%nat). auto.
Qed.

End CleanUp.

Section LeadingPunctuation.

Variable U : unicode.

(** [^] only holds at the start of the text. *)
Lemma hit_anchored_inside adv q s :
  hit U adv false leading_punct (Some q, s) = None.
Proof. reflexivity. Qed.

Lemma hit_anchored_start s :
  hit U false false leading_punct (None, s) =
  hit U false false (Plus punct_or_space) (None, s).
Proof.
  rewrite !hit_false_head. unfold leading_punct. cbn [run fst flat_map].
  rewrite app_nil_r. reflexivity.
Qed.

Lemma scan_anchored s : forall q,
  scan U false leading_punct (Some q) s 0 = map Keep s.
Proof.
  induction s as [|x t IH]; intros q.
  - rewrite scan_end, hit_anchored_inside. reflexivity.
  - rewrite scan_here, hit_anchored_inside, IH. reflexivity.
Qed.

Lemma after_Some l : forall x, exists q, after (Some x) l = Some q.
Proof. induction l as [|y l IH]; intros x; simpl; eauto. Qed.

(** [re.sub(r'^[,.\s]+', '', s)] cuts the run of commas, periods and
    whitespace at the start of the text and nothing else. *)
Lemma re_sub_leading s :
  re_sub U false leading_punct [] s =
  skipn (span U false punct_or_space s) s.
Proof.
  change (re_sub U false leading_punct [] s)
    with (kept (scan U false leading_punct None s 0)).
  destruct s as [|x t].
  - rewrite scan_end, hit_anchored_start, hit_plus. reflexivity.
  - rewrite scan_here, hit_anchored_start, hit_plus. cbn [span].
    destruct (in_cset U false punct_or_space x).
    + cbn [kept flat_map app skipn].
      pose proof (span_le U false punct_or_space t) as Hle.
      rewrite <- (firstn_skipn (span U false punct_or_space t) t) at 1.
      replace (span U false punct_or_space t)
        with (length (firstn (span U false punct_or_space t) t)) at 3
        by (rewrite length_firstn; lia).
      rewrite scan_pass.
      destruct (after_Some (firstn (span U false punct_or_space t) t) x)
        as [q ->].
      rewrite scan_anchored. apply kept_map_Keep.
    + rewrite scan_anchored. cbn [kept flat_map app skipn]. f_equal.
      apply kept_map_Keep.
Qed.

Lemma ends_clean_skipn n l :
  starts_clean U (rev l) -> starts_clean U (rev (skipn n l)).
Proof.
  intros H. rewrite <- (firstn_skipn n l), rev_app_distr in H.
  destruct (rev (skipn n l)); simpl in *; auto.
Qed.

(** The shape of what the assembler returns. *)
Lemma assemble_form ss si off ei :
  exists n joined,
    assemble U ss si off ei =
    skipn n (strip U (re_sub U false ws_run (txt " ") joined)) /\
    match skipn n (strip U (re_sub U false ws_run (txt " ") joined)) with
    | c :: _ => in_cset U false punct_or_space c = false
    | [] => True
    end.
Proof.
  unfold assemble. rewrite re_sub_leading.
  eexists. eexists. split; [reflexivity|]. apply span_skipn.
Qed.

End LeadingPunctuation.

(** X1 -- The returned transcript is trimmed: it does not begin with a
    comma, a period or whitespace, and it does not end with
    whitespace. *)
Theorem clean_transcript_trimmed (U : unicode) (text : str) :
  exists out,
    clean_transcript U text = Ok out /\
    starts_clean U out /\ starts_clean U (rev out) /\
    (forall c rest, out = c :: rest -> c <> ch "," /\ c <> ch ".").
Proof.
  unfold clean_transcript.
  destruct (find_bounds_ok U (split_sentences U (normalize U text)))
    as [b [-> _]].
  cbn [bind]. eexists. split; [reflexivity|].
  destruct (assemble_form U (split_sentences U (normalize U text))
              (start_index b) (start_char_offset b) (end_index b))
    as [n [joined [-> Hhead]]].
  set (sq := re_sub U false ws_run (txt " ") joined) in *.
  split; [|split].
  - destruct (skipn n (strip U sq)) as [|c rest]; [exact I|].
    simpl. unfold in_cset, punct_or_space in Hhead. simpl in Hhead.
    apply orb_false_iff in Hhead. destruct Hhead as [_ Hhead].
    apply orb_false_iff in Hhead. destruct Hhead as [_ Hhead].
    apply orb_false_iff in Hhead. tauto.
  - apply ends_clean_skipn. apply strip_clean.
  - intros c rest E. rewrite E in Hhead.
    unfold in_cset, punct_or_space in Hhead. simpl in Hhead.
    apply orb_false_iff in Hhead. destruct Hhead as [H1 Hhead].
    apply orb_false_iff in Hhead. destruct Hhead as [H2 _].
    apply N.eqb_neq in H1, H2. auto.
Qed.

(** X2 -- Whitespace is collapsed in the returned transcript: a
    whitespace character in it is a space, and no two whitespace
    characters stand next to each other. *)
Theorem clean_transcript_collapsed (U : unicode) (text : str) :
  exists out, clean_transcript U text = Ok out /\ collapsed U out.
Proof.
  unfold clean_transcript.
  destruct (find_bounds_ok U (split_sentences U (normalize U text)))
    as [b [-> _]].
  cbn [bind]. eexists. split; [reflexivity|].
  destruct (assemble_form U (split_sentences U (normalize U text))
              (start_index b) (start_char_offset b) (end_index b))
    as [n [joined [-> _]]].
  apply collapsed_skipn.
  pose proof (squeeze_collapsed U joined) as Hc.
  destruct (strip_infix U (re_sub U false ws_run (txt " ") joined))
    as [pre [post [E _]]].
  rewrite E in Hc. apply collapsed_app_r in Hc. now apply collapsed_app_l in Hc.
Qed.

(* ================================================================== *)
(** * Nothing is made up: the output against the normalized text *)

Section Provenance.

Variable U : unicode.

Lemma infix_refl {A} (l : list A) : infix l l.
Proof. exists [], []. simpl. now rewrite app_nil_r. Qed.

Lemma infix_trans {A} (a b c : list A) : infix a b -> infix b c -> infix a c.
Proof.
  intros [p1 [q1 ->]] [p2 [q2 ->]]. exists (p2 ++ p1), (q1 ++ q2).
  now rewrite <- !app_assoc.
Qed.

Lemma infix_suffix {A} (a pre : list A) : infix a (pre ++ a).
Proof. exists pre, []. now rewrite app_nil_r. Qed.

Lemma infix_subseq {A} (a b : list A) : infix a b -> subseq a b.
Proof.
  intros [pre [post ->]].
  rewrite <- (app_nil_l a) at 1. apply subseq_app; [apply subseq_nil_l|].
  rewrite <- (app_nil_r a) at 1. apply subseq_app;
    [apply subseq_refl|apply subseq_nil_l].
Qed.

Lemma nonspace_app a b : nonspace U (a ++ b) = nonspace U a ++ nonspace U b.
Proof. apply filter_app. Qed.

Lemma nonspace_ws l :
  Forall (fun c => isspace U c = true) l -> nonspace U l = [].
Proof.
  induction 1 as [|x l Hx Hl IH]; simpl; [auto|]. now rewrite Hx.
Qed.

Lemma nonspace_skipn n s :
  exists pre, nonspace U s = pre ++ nonspace U (skipn n s).
Proof.
  exists (nonspace U (firstn n s)).
  now rewrite <- nonspace_app, firstn_skipn.
Qed.

Lemma nonspace_lstrip s : nonspace U (lstrip U s) = nonspace U s.
Proof.
  destruct (lstrip_suffix U s) as [pre [E Hpre]].
  rewrite E at 2. now rewrite nonspace_app, (nonspace_ws Hpre).
Qed.

Lemma nonspace_strip s : nonspace U (strip U s) = nonspace U s.
Proof.
  destruct (strip_infix U s) as [pre [post [E [Hpre Hpost]]]].
  rewrite E at 2.
  now rewrite !nonspace_app, (nonspace_ws Hpre), (nonspace_ws Hpost),
    app_nil_r.
Qed.

(** ** Matches of [\s+] are whitespace *)

Lemma plus_ws_text c c' :
  In c' (run U false (Plus ws) c) ->
  Forall (fun x => isspace U x = true) (firstn (consumed c c') (snd c)).
Proof.
  destruct c as [p [|x t]]; cbn [run snd]; [intros []|].
  destruct (in_cset U false ws x) eqn:E; [|intros []].
  intros H. apply in_star in H. destruct H as [l [Ht [Hl _]]].
  destruct c' as [q rest]. cbn [snd] in *. subst t.
  unfold consumed. cbn [snd].
  replace (length (x :: l ++ rest) - length rest)%nat
    with (S (length l)) by (cbn [length]; rewrite length_app; lia).
  cbn [firstn]. rewrite firstn_app, firstn_all, Nat.sub_diag. simpl.
  rewrite app_nil_r. constructor.
  - now rewrite <- in_ws.
  - eapply Forall_impl; [|exact Hl]. intros a Ha. now rewrite <- in_ws.
Qed.

Lemma ws_run_hits s p k : ws_hits U (scan U false ws_run p s k).
Proof.
  apply scan_hits; [constructor|]. intros c c'. apply plus_ws_text.
Qed.

Lemma sentence_break_hits s p k : ws_hits U (scan U false sentence_break p s k).
Proof.
  apply scan_hits; [constructor|]. intros c c' H.
  unfold sentence_break in H. apply in_run_cat in H.
  destruct H as [m [Hm H]]. cbn [run] in Hm.
  destruct (fst c) as [q|]; [|destruct Hm].
  destruct (in_cset U false _ q); [|destruct Hm].
  destruct Hm as [<-|[]]. now apply plus_ws_text.
Qed.

Lemma nonspace_pieces ts :
  ws_hits U ts ->
  nonspace U (flat_map tok_text ts) = concat (map (nonspace U) (pieces ts)).
Proof.
  induction 1 as [|[c|m] ts Ht Hts IH]; cbn [flat_map tok_text pieces].
  - reflexivity.
  - pose proof (pieces_nonempty ts) as Hne. rewrite nonspace_app, IH.
    destruct (pieces ts) as [|p ps]; [simpl in Hne; lia|].
    cbn [cons_hd map concat]. change (c :: p) with ([c] ++ p).
    now rewrite nonspace_app, app_assoc.
  - rewrite nonspace_app, (nonspace_ws Ht), IH. reflexivity.
Qed.

(** The sentences hold every character of the text that is no
    whitespace, in order. *)
Lemma split_nonspace s :
  nonspace U s = concat (map (nonspace U) (split_sentences U s)).
Proof.
  unfold split_sentences, re_split.
  rewrite <- nonspace_pieces by apply sentence_break_hits.
  now rewrite scan_text.
Qed.

Hypothesis space_is_space : isspace U 32 = true.

Lemma squeeze_nonspace s :
  nonspace U (re_sub U false ws_run (txt " ") s) = nonspace U s.
Proof.
  change (txt " ") with [32%N]. unfold re_sub.
  rewrite <- (scan_text U false ws_run s None 0) at 2.
  pose proof (ws_run_hits s None 0) as H. cbn [skipn].
  induction H as [|[c|m] ts Ht Hts IH]; cbn [flat_map tok_text].
  - reflexivity.
  - rewrite !nonspace_app, IH. reflexivity.
  - rewrite !nonspace_app, IH, (nonspace_ws Ht). simpl.
    now rewrite space_is_space.
Qed.

Lemma join_nonspace l :
  nonspace U (join (txt " ") l) = concat (map (nonspace U) l).
Proof.
  change (txt " ") with [32%N].
  induction l as [|p [|q t] IH].
  - reflexivity.
  - simpl. now rewrite app_nil_r.
  - change (join [32%N] (p :: q :: t)) with (p ++ [32%N] ++ join [32%N] (q :: t)).
    rewrite !nonspace_app, IH. simpl. now rewrite space_is_space.
Qed.

Lemma concat_slice_infix (l : list str) a b :
  infix (concat (map (nonspace U) (py_slice l a b)))
        (concat (map (nonspace U) l)).
Proof.
  unfold py_slice.
  set (m := Z.to_nat (clamp (len l) a)).
  set (n := Z.to_nat (clamp (len l) b - clamp (len l) a)).
  exists (concat (map (nonspace U) (firstn m l))),
         (concat (map (nonspace U) (skipn n (skipn m l)))).
  rewrite <- !concat_app, <- !map_app.
  now rewrite (firstn_skipn n), (firstn_skipn m).
Qed.

(** What the assembler returns, whitespace aside, is one block of the
    sentences' characters. *)
Lemma assemble_nonspace ss si off ei :
  infix (nonspace U (assemble U ss si off ei))
        (concat (map (nonspace U) ss)).
Proof.
  unfold assemble. rewrite re_sub_leading.
  eapply infix_trans; [|apply (concat_slice_infix ss si ei)].
  match goal with |- infix (nonspace U (skipn ?n ?l)) _ =>
    apply infix_trans with (nonspace U l);
    [destruct (nonspace_skipn n l) as [pre E]; rewrite E;
     apply infix_suffix|]
  end.
  rewrite nonspace_strip, squeeze_nonspace, join_nonspace.
  destruct (py_slice ss si ei) as [|first rest]; [apply infix_refl|].
  destruct (off >? 0)%Z; [|apply infix_refl].
  cbn [map concat]. rewrite nonspace_lstrip. unfold py_slice_from.
  destruct (nonspace_skipn (Z.to_nat (clamp (len first) off)) first)
    as [pre ->].
  rewrite <- app_assoc. apply infix_suffix.
Qed.

End Provenance.

(** X3 -- No synthesized content: whitespace aside, the characters of the
    returned transcript are one contiguous block of the characters of
    the normalized text, in their order.  (The spaces of the transcript
    are put in by the assembler; the space has to be a whitespace
    character of the tables.) *)
Theorem clean_transcript_contiguous (U : unicode) (text : str) :
  isspace U 32 = true ->
  exists out,
    clean_transcript U text = Ok out /\
    infix (nonspace U out) (nonspace U (normalize U text)).
Proof.
  intros H32. unfold clean_transcript.
  destruct (find_bounds_ok U (split_sentences U (normalize U text)))
    as [b [-> _]].
  cbn [bind]. eexists. split; [reflexivity|].
  rewrite (split_nonspace U (normalize U text)).
  now apply assemble_nonspace.
Qed.

(** [clean_transcript_contiguous] on the Latin-1 tables. *)
Lemma clean_transcript_contiguous_witness :
  isspace latin1 32 = true /\
  exists out,
    clean_transcript latin1
      (txt "Testing one two. So welcome to the class on graph theory. Thank you.")
    = Ok out /\
    infix (nonspace latin1 out)
      (nonspace latin1 (normalize latin1
        (txt "Testing one two. So welcome to the class on graph theory. Thank you."))).
Proof.
  split; [reflexivity|].
  apply (@clean_transcript_contiguous latin1 _ eq_refl).
Defined.

(** X4 -- The normalizer only deletes: the normalized text is the input
    with characters left out, none added, moved or changed. *)
Theorem normalize_only_deletes (U : unicode) (text : str) :
  subseq (normalize U text) text.
Proof.
  unfold normalize. generalize hallucination_patterns. intros ps.
  revert text. induction ps as [|p ps IH]; intros text; simpl.
  - apply subseq_refl.
  - eapply subseq_trans; [apply IH|apply re_sub_delete_subseq].
Qed.

Section ScriptFree.

Variable U : unicode.

Lemma collapsed_In s c :
  collapsed U s -> In c s -> isspace U c = true -> c = 32%N.
Proof.
  induction s as [|a t IH]; simpl; [tauto|].
  intros [Ha Ht] [<-|Hin] Hc; auto. now destruct (Ha Hc).
Qed.

Lemma assemble_collapsed ss si off ei : collapsed U (assemble U ss si off ei).
Proof.
  unfold assemble. rewrite re_sub_leading. apply collapsed_skipn.
  match goal with |- collapsed U (strip U ?sq) =>
    pose proof (squeeze_collapsed U
                  (join (txt " ")
                     match py_slice ss si ei with
                     | [] => []
                     | first :: rest =>
                         if (off >? 0)%Z
                         then lstrip U (py_slice_from first off) :: rest
                         else py_slice ss si ei
                     end)) as Hc;
    destruct (strip_infix U sq) as [pre [post [E _]]]
  end.
  rewrite E in Hc. apply collapsed_app_r in Hc. now apply collapsed_app_l in Hc.
Qed.

Lemma infix_In {A} (a b : list A) x : infix a b -> In x a -> In x b.
Proof.
  intros [pre [post ->]] H. apply in_or_app. right. apply in_or_app. auto.
Qed.

End ScriptFree.

(** X5 -- No character of the four scripts survives: the normalized text
    holds no character that the Hangul, CJK, kana or Cyrillic class
    matches (under re.IGNORECASE), and neither does the returned
    transcript, whose only other characters are the spaces the assembler
    puts in. *)
Theorem no_script_character_survives (U : unicode) (text : str) :
  isspace U 32 = true ->
  (forall c cs, In c (normalize U text) -> In cs script_classes ->
                in_cset U true cs c = false) /\
  exists out,
    clean_transcript U text = Ok out /\
    forall c cs, In c out -> In cs script_classes ->
                 c = 32%N \/ in_cset U true cs c = false.
Proof.
  intros H32. split.
  - intros c cs. apply normalize_no_script_char.
  - unfold clean_transcript.
    destruct (find_bounds_ok U (split_sentences U (normalize U text)))
      as [b [-> _]].
    cbn [bind]. eexists. split; [reflexivity|].
    intros c cs Hc Hcs.
    destruct (isspace U c) eqn:Ec.
    + left. eapply collapsed_In; [apply assemble_collapsed|exact Hc|exact Ec].
    + right. apply (@normalize_no_script_char U text c cs); [|exact Hcs].
      assert (Hn : In c (nonspace U (normalize U text))).
      { rewrite (split_nonspace U (normalize U text)).
        eapply infix_In; [apply (assemble_nonspace U H32)|].
        apply filter_In. split; [exact Hc|]. now rewrite Ec. }
      apply filter_In in Hn. tauto.
Qed.

(** [no_script_character_survives] on the Latin-1 tables, for a text
    with Cyrillic, Hangul and kana. *)
Lemma no_script_character_survives_witness :
  isspace latin1 32 = true /\
  (forall c cs,
     In c (normalize latin1
             (txt "Привет 안녕 こんにちは. So welcome to the class on graph theory.")) ->
     In cs script_classes -> in_cset latin1 true cs c = false) /\
  exists out,
    clean_transcript latin1
      (txt "Привет 안녕 こんにちは. So welcome to the class on graph theory.")
    = Ok out /\
    forall c cs, In c out -> In cs script_classes ->
                 c = 32%N \/ in_cset latin1 true cs c = false.
Proof.
  split; [reflexivity|].
  apply (@no_script_character_survives latin1 _ eq_refl).
Defined.

(* ================================================================== *)
(** * The shape of the sentences *)

Section Segmenter.

Variable U : unicode.

Lemma in_terminal q :
  in_cset U false [Lit (ch "."); Lit (ch "!"); Lit (ch "?")] q = is_terminal q.
Proof.
  unfold in_cset, is_terminal. simpl.
  now rewrite orb_false_r, orb_assoc.
Qed.

Lemma hit_sentence_break p s :
  hit U false false sentence_break (p, s) =
  match p with
  | Some q =>
      if is_terminal q then hit U false false (Plus ws) (p, s) else None
  | None => None
  end.
Proof.
  rewrite !hit_false_head. unfold sentence_break. cbn [run fst].
  destruct p as [q|]; [|reflexivity].
  rewrite in_terminal. destruct (is_terminal q); [|reflexivity].
  cbn [flat_map]. now rewrite app_nil_r.
Qed.

Lemma after_last l : forall p,
  (l = [] /\ after p l = p) \/
  (exists body c, l = body ++ [c] /\ after p l = Some c).
Proof.
  induction l as [|x l IH]; intros p; [left; auto|right].
  destruct (IH (Some x)) as [[-> E]|[body [c [-> E]]]].
  - exists [], x. auto.
  - exists (x :: body), c. auto.
Qed.

Lemma terminal_after x l :
  terminal_at (after (Some x) l) -> ends_terminal (x :: l).
Proof.
  intros H. destruct (after_last l (Some x)) as [[-> E]|[body [c [-> E]]]];
    rewrite E in H.
  - exists [], x. auto.
  - exists (x :: body), c. auto.
Qed.

Lemma terminal_after_none l : terminal_at (after None l) -> ends_terminal l.
Proof.
  destruct l as [|x l]; [intros []|]. apply terminal_after.
Qed.

(** The sentences of what is left to scan.  [fresh] says that the
    position lies in or right behind a separator, so that the first
    sentence begins here; otherwise it began earlier and [p] is its last
    character so far. *)
Lemma pieces_break s : forall p k (fresh : bool),
  (if fresh then k = span U false ws s else k = 0%nat) ->
  exists first others,
    pieces (scan U false sentence_break p s k) = first :: others /\
    Forall (starts_clean U) others /\
    Forall ends_terminal (removelast others) /\
    (others <> [] ->
     if fresh then ends_terminal first else terminal_at (after p first)) /\
    (fresh = true -> starts_clean U first).
Proof.
  induction s as [|x t IH]; intros p k fresh Hk.
  - assert (k = 0%nat) as -> by (destruct fresh; simpl in Hk; lia).
    rewrite scan_end, hit_sentence_break.
    assert (E : match p with
                | Some q => if is_terminal q
                            then hit U false false (Plus ws) (p, [])
                            else None
                | None => None
                end = None).
    { destruct p as [q|]; [|reflexivity].
      destruct (is_terminal q); [apply hit_plus|reflexivity]. }
    rewrite E. exists [], []. simpl. repeat split; auto; congruence.
  - destruct k as [|k].
    + rewrite scan_here, hit_sentence_break, hit_plus.
      destruct fresh.
      * (* the sentence starts at [x], which is no whitespace *)
        cbn [span] in Hk.
        destruct (in_cset U false ws x) eqn:Ex; [discriminate|].
        assert (E : match p with
                    | Some q => if is_terminal q then @None nat else None
                    | None => None
                    end = None)
          by (destruct p as [q|]; [destruct (is_terminal q)|]; reflexivity).
        rewrite E.
        destruct (IH (Some x) 0%nat false eq_refl)
          as [f [o [Ep [Hs [He [Hf _]]]]]].
        cbn [pieces]. rewrite Ep. exists (x :: f), o.
        repeat split; auto.
        -- intros Ho. apply terminal_after. auto.
        -- intros _. simpl. now rewrite <- in_ws.
      * destruct p as [q|].
        -- destruct (is_terminal q) eqn:Eq.
           ++ destruct (in_cset U false ws x) eqn:Ex.
              ** (* a separator starts here *)
                 destruct (IH (Some x) (span U false ws t) true eq_refl)
                   as [f [o [Ep [Hs [He [Hf Hc]]]]]].
                 cbn [pieces]. rewrite Ep. exists [], (f :: o).
                 repeat split; auto.
                 --- destruct o as [|o1 o2]; [constructor|].
                     cbn [removelast]. constructor; [|exact He].
                     apply Hf. discriminate.
              ** destruct (IH (Some x) 0%nat false eq_refl)
                   as [f [o [Ep [Hs [He [Hf _]]]]]].
                 cbn [pieces]. rewrite Ep. exists (x :: f), o.
                 repeat split; auto. intros. discriminate.
           ++ destruct (IH (Some x) 0%nat false eq_refl)
                as [f [o [Ep [Hs [He [Hf _]]]]]].
              cbn [pieces]. rewrite Ep. exists (x :: f), o.
              repeat split; auto. intros. discriminate.
        -- destruct (IH (Some x) 0%nat false eq_refl)
             as [f [o [Ep [Hs [He [Hf _]]]]]].
           cbn [pieces]. rewrite Ep. exists (x :: f), o.
           repeat split; auto. intros. discriminate.
    + destruct fresh; [|discriminate]. cbn [span] in Hk.
      destruct (in_cset U false ws x) eqn:Ex; [|discriminate].
      rewrite scan_skip. apply (IH (Some x) k true). lia.
Qed.

End Segmenter.

(** X6 -- The shape of the sentences [re.split] gives: every sentence but
    the last ends with [.], [!] or [?], and every sentence but the first
    begins with a character that is no whitespace (or is empty, which
    only the last one can be). *)
Theorem split_sentences_shape (U : unicode) (s : str) :
  Forall ends_terminal (removelast (split_sentences U s)) /\
  Forall (starts_clean U) (tl (split_sentences U s)).
Proof.
  unfold split_sentences, re_split.
  destruct (@pieces_break U s None 0%nat false eq_refl)
    as [f [o [-> [Hs [He [Hf _]]]]]].
  split; [|exact Hs].
  destruct o as [|o1 o2]; [constructor|].
  cbn [removelast]. constructor; [|exact He].
  apply terminal_after_none. apply Hf. discriminate.
Qed.

(* ================================================================== *)
(** * Where the boundaries lie *)

Section Boundaries.

Variable U : unicode.

Local Open Scope Z_scope.

Lemma search_from_bound ic r s : forall p pos a n,
  search_from U ic r p s pos = Some (a, n) ->
  (pos <= a <= pos + length s)%nat.
Proof.
  induction s as [|x t IH]; intros p pos a n; cbn [search_from].
  - destruct (hit U false ic r (p, [])); [|discriminate].
    intros [= <- _]. simpl. lia.
  - destruct (hit U false ic r (p, x :: t)).
    + intros [= <- _]. simpl. lia.
    + intros H. apply IH in H. simpl. lia.
Qed.

Lemma first_match_bound ps s off :
  first_match U ps s = Some off -> 0 <= off <= len s.
Proof.
  induction ps as [|r ps IH]; cbn [first_match]; [discriminate|].
  destruct (re_search U false r s) as [[a n]|] eqn:E; [|exact IH].
  intros [= <-]. apply search_from_bound in E. unfold len. lia.
Qed.

Lemma skipn_len {A} (l : list A) : skipn (Z.to_nat (len l)) l = [].
Proof. unfold len. rewrite Nat2Z.id. apply skipn_all. Qed.

(** What the scan from sentence [i] on returns when it starts with
    offset 0. *)
Lemma start_loop_offset ss : forall n i si,
  n = Z.to_nat (len ss - i) -> 0 <= i <= len ss ->
  exists si' off,
    start_loop U ss i (skipn (Z.to_nat i) ss) si 0 = Ok (si', off) /\
    ((off = 0 /\ (si' = si \/ i <= si' < len ss)) \/
     (0 < off /\ i <= si' < len ss /\
      pattern_hit U (sentence ss si') = Some off)).
Proof.
  induction n as [|n IH]; intros i si Hn Hi.
  - assert (i = len ss) as -> by lia. rewrite skipn_len.
    exists si, 0. split; [reflexivity|]. left. auto.
  - rewrite start_loop_step by lia.
    destruct (pattern_hit U (sentence ss i)) as [o|] eqn:Ep.
    + pose proof (first_match_bound _ _ Ep) as Ho.
      destruct (o >? 0) eqn:Eo.
      * exists i, o. split; [reflexivity|]. right.
        apply Z.gtb_lt in Eo. repeat split; auto; lia.
      * assert (o = 0) as -> by
          (destruct (Z.gtb_spec o 0); [discriminate|lia]).
        destruct (fallback_ok U ss i).
        -- exists i, 0. split; [reflexivity|]. left. split; [auto|]. right. lia.
        -- destruct (IH (i + 1) i) as [si' [off [-> H]]]; [lia|lia|].
           exists si', off. split; [reflexivity|].
           destruct H as [[-> [->|H]]|[H1 [H2 H3]]].
           ++ left. split; [auto|]. right. lia.
           ++ left. split; [auto|]. right. lia.
           ++ right. repeat split; auto; lia.
    + cbn [Z.gtb Z.compare].
      destruct (fallback_ok U ss i).
      * exists i, 0. split; [reflexivity|]. left. split; [auto|]. right. lia.
      * destruct (IH (i + 1) si) as [si' [off [-> H]]]; [lia|lia|].
        exists si', off. split; [reflexivity|].
        destruct H as [[-> [->|H]]|[H1 [H2 H3]]].
        -- left. auto.
        -- left. split; [auto|]. right. lia.
        -- right. repeat split; auto; lia.
Qed.

(** Phase B stops at the first sentence from the end that it does not
    drop. *)
Lemma strip_tail_post ss si : 0 <= si -> forall fuel e,
  e <= len ss -> (Z.to_nat (e - si) < fuel)%nat ->
  exists e',
    strip_tail U fuel ss si e = Ok e' /\ Z.min si e <= e' <= e /\
    (forall j, e' <= j < e -> droppable U (sentence ss j) = true) /\
    (si < e' -> droppable U (sentence ss (e' - 1)) = false).
Proof.
  intros Hsi. induction fuel as [|fuel IH]; intros e He Hfuel; [lia|].
  cbn [strip_tail]. destruct (e >? si) eqn:E.
  - apply Z.gtb_lt in E. rewrite py_index_sentence by lia. cbn [bind].
    fold (droppable U (sentence ss (e - 1))).
    destruct (droppable U (sentence ss (e - 1))) eqn:Ed.
    + destruct (IH (e - 1)) as [e' [-> [Hr [Hd Hl]]]]; [lia|lia|].
      exists e'. split; [reflexivity|]. split; [lia|]. split; [|exact Hl].
      intros j Hj. destruct (Z.eq_dec j (e - 1)) as [->|Hne]; [exact Ed|].
      apply Hd. lia.
    + exists e. split; [reflexivity|]. split; [lia|]. split.
      * intros j Hj. lia.
      * intros _. exact Ed.
  - assert (e <= si) by (destruct (Z.gtb_spec e si); [discriminate|lia]).
    exists e. split; [reflexivity|]. split; [lia|]. split; intros; lia.
Qed.

End Boundaries.

(** X7 -- Validity of the start boundary: [start_index] is the index of a
    sentence, and [start_char_offset] is a position in [sentence.lower()],
    the string the patterns are searched in; when it is positive, it is
    the position at which the first matching lecture-start pattern
    matches there.  [lower] need not keep the length of a string, so the
    offset is a position in the sentence itself only when lower-casing
    keeps the length of that sentence. *)
Theorem start_boundary_valid (U : unicode) (s : str) :
  exists si off,
    find_start U (split_sentences U s) = Ok (si, off) /\
    (0 <= si < len (split_sentences U s))%Z /\
    (0 <= off <= len (lower U (sentence (split_sentences U s) si)))%Z /\
    (len (lower U (sentence (split_sentences U s) si)) =
     len (sentence (split_sentences U s) si) ->
     (off <= len (sentence (split_sentences U s) si))%Z) /\
    ((0 < off)%Z ->
     pattern_hit U (sentence (split_sentences U s) si) = Some off).
Proof.
  set (ss := split_sentences U s).
  assert (Hne : (1 <= len ss)%Z).
  { unfold ss, split_sentences, re_split, len.
    pose proof (pieces_nonempty (scan U false sentence_break None s 0)). lia. }
  destruct (@start_loop_offset U ss _ 0%Z 0%Z eq_refl) as [si [off [E H]]];
    [lia|].
  exists si, off. split; [exact E|].
  destruct H as [[-> H]|[H1 [H2 H3]]].
  - pose proof (len_nonneg (lower U (sentence ss si))).
    pose proof (len_nonneg (sentence ss si)).
    split; [lia|]. split; [lia|]. split; [lia|lia].
  - apply first_match_bound in H3 as Hb.
    split; [lia|]. split; [lia|]. split; [intros El; lia|auto].
Qed.

(** X8 -- What Phase B leaves: every sentence it drops (those from the
    new [end_index] up to the one Phase A left) passes one of its three
    filler tests, and when the kept range is not empty its last sentence
    passes none of them. *)
Theorem tail_trim_is_exact (U : unicode) (ss : list str) :
  exists b,
    find_bounds U ss = Ok b /\
    (forall j, (end_trimmed b <= j < end_chatter b)%Z ->
               droppable U (sentence ss j) = true) /\
    ((start_index b < end_trimmed b)%Z ->
     droppable U (sentence ss (end_trimmed b - 1)) = false).
Proof.
  unfold find_bounds.
  destruct (find_start_ok U ss) as [si [off [-> Hsi]]]. cbn [bind fst snd].
  destruct (chatter_end_ok U ss) as [e1 [-> He1]]. cbn [bind].
  destruct (@strip_tail_post U ss si (proj1 Hsi) (S (length ss)) e1)
    as [e2 [-> [Hr [Hd Hl]]]]; [lia|unfold len in *; lia|]. cbn [bind].
  destruct (collapse_ok U ss si e2) as [e3 [-> He3]]. cbn [bind].
  eexists. split; [reflexivity|]. simpl. split; auto.
Qed.

(* ================================================================== *)
(** * The repetition check *)

Section Repetition.

Variable U : unicode.

Local Open Scope Z_scope.

Lemma str_eqb_eq a : forall b, str_eqb a b = true <-> a = b.
Proof.
  induction a as [|x a IH]; intros [|y b]; simpl; split; try congruence; auto.
  - intros H. apply andb_true_iff in H. destruct H as [H1 H2].
    apply N.eqb_eq in H1. apply IH in H2. congruence.
  - intros [= -> ->]. apply andb_true_iff. split; [apply N.eqb_refl|].
    now apply IH.
Qed.

Lemma mem_In x l : mem x l = true <-> In x l.
Proof.
  unfold mem. rewrite existsb_exists. split.
  - intros [y [Hy E]]. apply str_eqb_eq in E. now subst.
  - intros H. exists x. split; [auto|]. now apply str_eqb_eq.
Qed.

Lemma distinct_In x l : forall seen,
  In x (distinct seen l) <-> In x l /\ ~ In x seen.
Proof.
  induction l as [|y l IH]; intros seen; simpl; [tauto|].
  destruct (mem y seen) eqn:E.
  - apply mem_In in E. rewrite IH. split.
    + tauto.
    + intros [[->|H] Hn]; tauto.
  - assert (Hy : ~ In y seen) by (rewrite <- mem_In; congruence).
    simpl. rewrite IH. simpl. split.
    + intros [->|[H Hn]]; tauto.
    + intros [[->|H] Hn]; [auto|].
      destruct (list_eq_dec N.eq_dec y x) as [->|Hne]; tauto.
Qed.

Lemma count_nonneg x l : 0 <= count x l.
Proof.
  induction l as [|y l IH]; simpl; [lia|]. destruct (str_eqb x y); lia.
Qed.

(** A [Counter] holds every element with its number of occurrences. *)
Lemma Counter_spec l k n :
  In (k, n) (Counter l) <-> In k l /\ n = count k l.
Proof.
  unfold Counter. rewrite in_map_iff. split.
  - intros [x [[= -> <-] H]]. apply distinct_In in H. tauto.
  - intros [H ->]. exists k. split; [reflexivity|].
    apply distinct_In. simpl. tauto.
Qed.

Lemma max_item_spec items : forall best,
  In (max_item best items) (best :: items) /\
  forall it, In it (best :: items) -> snd it <= snd (max_item best items).
Proof.
  induction items as [|x items IH]; intros best; cbn [max_item].
  - split; [left; auto|]. intros it [<-|[]]. lia.
  - destruct (IH (if snd best <? snd x then x else best)) as [Hin Hmax].
    split.
    + destruct Hin as [E|Hin]; [|right; right; auto].
      rewrite <- E. destruct (snd best <? snd x); simpl; auto.
    + intros it [E|[E|Hit]].
      * subst it. etransitivity; [|apply Hmax; left; reflexivity].
        destruct (Z.ltb_spec (snd best) (snd x)); lia.
      * subst it. etransitivity; [|apply Hmax; left; reflexivity].
        destruct (Z.ltb_spec (snd best) (snd x)); lia.
      * apply Hmax. right. auto.
Qed.

(** [Counter(l).most_common(1)[0]] is an element of [l] that occurs most
    often, with its number of occurrences. *)
Lemma most_common_spec l :
  l <> [] ->
  exists top,
    py_index (most_common_1 (Counter l)) 0 = Ok top /\
    In (fst top) l /\ snd top = count (fst top) l /\
    forall x, In x l -> count x l <= snd top.
Proof.
  intros Hne. pose proof (Counter_nonempty Hne) as Hc.
  destruct (Counter l) as [|it items] eqn:E; [congruence|].
  exists (max_item it items). split; [reflexivity|].
  destruct (max_item_spec items it) as [Hin Hmax]. rewrite <- E in Hin, Hmax.
  destruct (max_item it items) as [k n]. apply Counter_spec in Hin.
  cbn [fst snd]. split; [tauto|]. split; [tauto|].
  intros x Hx. apply (Hmax (x, count x l)). apply Counter_spec. auto.
Qed.

(** One turn of the loop of the repetition check. *)
Lemma repetition_step ss e i rest :
  (repetition_loop U ss e (i :: rest) = Ok i /\ looping U ss i e) \/
  (repetition_loop U ss e (i :: rest) = repetition_loop U ss e rest /\
   ~ looping U ss i e).
Proof.
  cbn [repetition_loop]. fold (window U ss i e). unfold looping.
  destruct (len (window U ss i e) >=? 3) eqn:E.
  - apply Z.geb_le in E.
    destruct (@most_common_spec (window U ss i e))
      as [top [-> [Hin [Hn Hmax]]]].
    { intros E0. rewrite E0 in E. unfold len in E. simpl in E. lia. }
    cbn [bind]. unfold is_most.
    destruct (3 * len (window U ss i e) <=? 5 * snd top) eqn:Et.
    + left. split; [reflexivity|]. split; [lia|].
      exists (fst top). apply Z.leb_le in Et. split; [auto|lia].
    + right. split; [reflexivity|]. intros [_ [phrase [Hp Hc]]].
      apply Z.leb_gt in Et. specialize (Hmax phrase Hp). lia.
  - right. split; [reflexivity|]. intros [H _].
    destruct (Z.geb_spec (len (window U ss i e)) 3); [discriminate|lia].
Qed.

(** Over [range(a, b, -1)] the check cuts at the first index, coming
    from [a], whose window loops. *)
Lemma repetition_loop_range ss e : forall n a b,
  n = Z.to_nat (a - b) ->
  exists e',
    repetition_loop U ss e (range_down a b) = Ok e' /\
    ((e' = e /\ forall j, b < j <= a -> ~ looping U ss j e) \/
     (b < e' <= a /\ looping U ss e' e /\
      forall j, e' < j <= a -> ~ looping U ss j e)).
Proof.
  induction n as [|n IH]; intros a b Hn.
  - rewrite range_down_nil by lia. exists e. split; [reflexivity|].
    left. split; [reflexivity|]. intros j Hj. lia.
  - rewrite range_down_cons by lia.
    destruct (repetition_step ss e a (range_down (a - 1) b))
      as [[-> Hl]|[-> Hl]].
    + exists a. split; [reflexivity|]. right. split; [lia|]. split; [auto|].
      intros j Hj. lia.
    + destruct (IH (a - 1) b) as [e' [-> H]]; [lia|].
      exists e'. split; [reflexivity|].
      destruct H as [[-> Hnone]|[Hr [Hl' Hnone]]].
      * left. split; [reflexivity|]. intros j Hj.
        destruct (Z.eq_dec j a) as [->|Hne]; [auto|]. apply Hnone. lia.
      * right. split; [lia|]. split; [auto|]. intros j Hj.
        destruct (Z.eq_dec j a) as [->|Hne]; [auto|]. apply Hnone. lia.
Qed.

End Repetition.

(** X9 -- What the Repetition Collapser does: with more than five kept
    sentences it cuts at the cut point nearest to the end, among the last
    14, whose window of trimmed, lower-cased sentences holds at least
    three sentences of which one text makes up at least 60%; without
    such a cut point, or with five kept sentences or fewer, it leaves
    [end_index] alone. *)
Theorem collapse_cuts_at_last_loop (U : unicode) (ss : list str) (si e : Z) :
  exists e',
    collapse U ss si e = Ok e' /\
    ((e' = e /\
      ((e <= si + 5)%Z \/
       forall j, (Z.max (e - 15) si < j <= e - 1)%Z -> ~ looping U ss j e)) \/
     ((si + 5 < e)%Z /\ (Z.max (e - 15) si < e' <= e - 1)%Z /\
      looping U ss e' e /\
      forall j, (e' < j <= e - 1)%Z -> ~ looping U ss j e)).
Proof.
  unfold collapse. destruct (e >? si + 5)%Z eqn:E.
  - apply Z.gtb_lt in E.
    destruct (@repetition_loop_range U ss e _ (e - 1)%Z
                (Z.max (e - 15) si) eq_refl) as [e' [-> H]].
    exists e'. split; [reflexivity|].
    destruct H as [[-> Hnone]|[Hr [Hl Hnone]]].
    + left. split; [reflexivity|]. right. exact Hnone.
    + right. split; [lia|]. split; [lia|]. split; [exact Hl|exact Hnone].
  - exists e. split; [reflexivity|]. left. split; [reflexivity|]. left.
    destruct (Z.gtb_spec e (si + 5)); [discriminate|lia].
Qed.

(** X10 -- The reach of Phase A: the chatter scan takes away at most the
    last 29 sentences and never the first one. *)
Theorem chatter_scan_reach (U : unicode) (ss : list str) :
  exists e,
    chatter_end U ss = Ok e /\
    (Z.min (len ss) (Z.max 1 (len ss - 29)) <= e <= len ss)%Z.
Proof.
  unfold chatter_end, chatter_scan.
  destruct (chatter_loop_ok U ss
              (range_down (len ss - 1) (Z.max 0 (len ss - 30))) None)
    as [r [-> Hr]].
  { intros i Hi. apply range_down_in in Hi. lia. }
  cbn [bind]. pose proof (len_nonneg ss).
  destruct Hr as [->|[i [-> Hi]]].
  - eexists. split; [reflexivity|lia].
  - apply range_down_in in Hi. unfold truthy.
    destruct (i =? 0)%Z; simpl; eexists; (split; [reflexivity|lia]).
Qed.

(* ================================================================== *)
(** * Where the start detector stops *)

Section StartScan.

Variable U : unicode.

Local Open Scope Z_scope.

(** Sentences that do not stop the loop only move [start_index]. *)
Lemma start_loop_prefix ss i : forall n k si,
  n = Z.to_nat (i - k) -> 0 <= k <= i -> i <= len ss ->
  (forall j, k <= j < i -> stops U ss j = false) ->
  exists si',
    start_loop U ss k (skipn (Z.to_nat k) ss) si 0 =
    start_loop U ss i (skipn (Z.to_nat i) ss) si' 0.
Proof.
  induction n as [|n IH]; intros k si Hn Hk Hi Hq.
  - replace k with i by lia. eauto.
  - rewrite start_loop_step by lia.
    pose proof (Hq k ltac:(lia)) as Hs. unfold stops in Hs.
    apply orb_false_iff in Hs. destruct Hs as [Hp Hf]. rewrite Hf.
    destruct (pattern_hit U (sentence ss k)) as [o|] eqn:Ep.
    + rewrite Hp.
      assert (o = 0) as ->.
      { pose proof (first_match_bound _ _ _ Ep).
        destruct (Z.gtb_spec o 0); [discriminate|lia]. }
      apply IH; try lia. intros j Hj. apply Hq. lia.
    + cbn [Z.gtb Z.compare]. apply IH; try lia. intros j Hj. apply Hq. lia.
Qed.

(** When no sentence stops the loop, the last match at position 0 is the
    start. *)
Lemma start_loop_exhausted ss : forall n i si,
  n = Z.to_nat (len ss - i) -> 0 <= i <= len ss ->
  (forall j, i <= j < len ss -> stops U ss j = false) ->
  exists si',
    start_loop U ss i (skipn (Z.to_nat i) ss) si 0 = Ok (si', 0) /\
    ((si' = si /\
      forall j, i <= j < len ss -> pattern_hit U (sentence ss j) = None) \/
     (i <= si' < len ss /\ pattern_hit U (sentence ss si') = Some 0 /\
      forall j, si' < j < len ss -> pattern_hit U (sentence ss j) = None)).
Proof.
  induction n as [|n IH]; intros i si Hn Hi Hq.
  - assert (i = len ss) as -> by lia. rewrite skipn_len.
    exists si. split; [reflexivity|]. left. split; [reflexivity|].
    intros j Hj. lia.
  - rewrite start_loop_step by lia.
    pose proof (Hq i ltac:(lia)) as Hs. unfold stops in Hs.
    apply orb_false_iff in Hs. destruct Hs as [Hp Hf]. rewrite Hf.
    destruct (pattern_hit U (sentence ss i)) as [o|] eqn:Ep.
    + rewrite Hp.
      assert (o = 0) as ->.
      { pose proof (first_match_bound _ _ _ Ep).
        destruct (Z.gtb_spec o 0); [discriminate|lia]. }
      destruct (IH (i + 1) i) as [si' [-> H]]; try lia.
      { intros j Hj. apply Hq. lia. }
      exists si'. split; [reflexivity|]. right.
      destruct H as [[-> Hnone]|[Hr [Hp' Hnone]]].
      * split; [lia|]. split; [exact Ep|]. intros j Hj. apply Hnone. lia.
      * split; [lia|]. split; [exact Hp'|exact Hnone].
    + cbn [Z.gtb Z.compare].
      destruct (IH (i + 1) si) as [si' [-> H]]; try lia.
      { intros j Hj. apply Hq. lia. }
      exists si'. split; [reflexivity|].
      destruct H as [[-> Hnone]|[Hr [Hp' Hnone]]].
      * left. split; [reflexivity|]. intros j Hj.
        destruct (Z.eq_dec j i) as [->|Hne]; [exact Ep|]. apply Hnone. lia.
      * right. split; [lia|]. split; [exact Hp'|exact Hnone].
Qed.

End StartScan.

(** X11 -- The start detector stops at the first sentence in which a
    lecture-start pattern matches after position 0 or which passes the
    fallback test; matches at position 0 in earlier sentences do not
    count.  The offset is the one of the match in that sentence, 0
    without a match. *)
Theorem start_is_first_stop (U : unicode) (ss : list str) (i : Z) :
  (0 <= i < len ss)%Z ->
  stops U ss i = true ->
  (forall j, (0 <= j < i)%Z -> stops U ss j = false) ->
  find_start U ss =
  Ok (i, match pattern_hit U (sentence ss i) with
         | Some off => off
         | None => 0%Z
         end).
Proof.
  intros Hi Hs Hq. unfold find_start.
  change ss with (skipn (Z.to_nat 0) ss) at 2.
  destruct (@start_loop_prefix U ss i _ 0%Z 0%Z eq_refl) as [si' ->];
    try lia; [exact Hq|].
  rewrite start_loop_step by lia. unfold stops in Hs.
  destruct (pattern_hit U (sentence ss i)) as [o|].
  - destruct (o >? 0)%Z eqn:Eo; [reflexivity|].
    simpl in Hs. rewrite Hs. reflexivity.
  - simpl in Hs. rewrite Hs. reflexivity.
Qed.

Lemma start_is_first_stop_witness :
  find_start latin1
    [txt "Testing one two."; txt "So welcome to the class on graphs."] =
  Ok (1%Z, 3%Z).
Proof.
  apply (@start_is_first_stop latin1
           [txt "Testing one two."; txt "So welcome to the class on graphs."]
           1%Z).
  - vm_compute. split; [discriminate|reflexivity].
  - vm_compute. reflexivity.
  - intros j Hj. assert (j = 0%Z) as -> by lia. vm_compute. reflexivity.
Defined.

(** X12 -- When no sentence stops the start detector, the offset is 0 and
    the start is the last sentence in which a lecture-start pattern
    matches (at position 0); without any match it is sentence 0. *)
Theorem start_falls_to_last_match (U : unicode) (ss : list str) :
  (forall j, (0 <= j < len ss)%Z -> stops U ss j = false) ->
  exists si,
    find_start U ss = Ok (si, 0%Z) /\
    (forall j, (si < j < len ss)%Z ->
               pattern_hit U (sentence ss j) = None) /\
    (((0 <= si < len ss)%Z /\ pattern_hit U (sentence ss si) = Some 0%Z) \/
     (si = 0%Z /\
      forall j, (0 <= j < len ss)%Z ->
                pattern_hit U (sentence ss j) = None)).
Proof.
  intros Hq. unfold find_start.
  change ss with (skipn (Z.to_nat 0) ss) at 2.
  destruct (@start_loop_exhausted U ss _ 0%Z 0%Z eq_refl) as [si [-> H]].
  { pose proof (len_nonneg ss). lia. }
  { exact Hq. }
  exists si. split; [reflexivity|].
  destruct H as [[-> Hnone]|[Hr [Hp Hnone]]].
  - split; [intros j Hj; apply Hnone; lia|]. right. split; [reflexivity|].
    exact Hnone.
  - split; [exact Hnone|]. left. split; [exact Hr|exact Hp].
Qed.

Lemma start_falls_to_last_match_witness :
  exists si,
    find_start latin1 [txt "Today is fine."; txt "Today we go."; txt "Bye."]
    = Ok (si, 0%Z) /\
    (forall j, (si < j < 3)%Z ->
       pattern_hit latin1
         (sentence [txt "Today is fine."; txt "Today we go."; txt "Bye."] j)
       = None) /\
    (((0 <= si < 3)%Z /\
      pattern_hit latin1
        (sentence [txt "Today is fine."; txt "Today we go."; txt "Bye."] si)
      = Some 0%Z) \/
     (si = 0%Z /\
      forall j, (0 <= j < 3)%Z ->
        pattern_hit latin1
          (sentence [txt "Today is fine."; txt "Today we go."; txt "Bye."] j)
        = None)).
Proof.
  apply (@start_falls_to_last_match latin1
           [txt "Today is fine."; txt "Today we go."; txt "Bye."]).
  intros j Hj. change (len [txt "Today is fine."; txt "Today we go."; txt "Bye."])
    with 3%Z in Hj.
  assert (j = 0 \/ j = 1 \/ j = 2)%Z as [-> | [-> | ->]] by lia;
    vm_compute; reflexivity.
Defined.

(* ================================================================== *)
(** * The selection of the stream URL *)

Section StreamSelection.

Variable U : unicode.

Lemma contains_nonempty p s :
  p <> [] -> contains p s = true -> s <> [].
Proof.
  intros Hp H ->. destruct p as [|x p]; [congruence|]. discriminate.
Qed.

Lemma valid_nonempty u : is_valid_m3u8_url u = true -> u <> [].
Proof.
  unfold is_valid_m3u8_url. intros H.
  apply (@contains_nonempty (txt ".m3u8")); [discriminate|].
  destruct (contains (txt "callback=") u &&
            contains (txt "responseFormat=jsonp") u); [discriminate|].
  destruct (contains (txt ".m3u8") u); [reflexivity|discriminate].
Qed.

Lemma valid_found u : is_valid_m3u8_url u = true -> found (Some u) = true.
Proof.
  intros H. apply valid_nonempty in H. destruct u; [congruence|reflexivity].
Qed.

(** The test of the loop is [is_valid_m3u8_url]. *)
Lemma scan_logs_request request_url logs m all :
  scan_logs U (RequestWillBeSent request_url :: logs) m all =
  if is_valid_m3u8_url request_url then
    if is_master U request_url
    then (Some request_url, all ++ [request_url])
    else if is_segment U request_url
    then scan_logs U logs
           (if negb (found m) then Some request_url else m)
           (all ++ [request_url])
    else scan_logs U logs m (all ++ [request_url])
  else scan_logs U logs m all.
Proof.
  cbn [scan_logs]. unfold is_valid_m3u8_url, is_master, is_segment.
  destruct (contains (txt ".m3u8") request_url);
    destruct (contains (txt "callback=") request_url &&
              contains (txt "responseFormat=jsonp") request_url);
    reflexivity.
Qed.

Lemma candidates_request u logs :
  candidates (RequestWillBeSent u :: logs) =
  if is_valid_m3u8_url u then u :: candidates logs else candidates logs.
Proof. reflexivity. Qed.

Lemma candidates_passed logs : candidates (Passed :: logs) = candidates logs.
Proof. reflexivity. Qed.

Lemma in_requests u logs :
  In u (requests logs) <-> In (RequestWillBeSent u) logs.
Proof.
  unfold requests. rewrite in_flat_map. split.
  - intros [[v|] [Hin H]]; [|destruct H].
    destruct H as [->|[]]. exact Hin.
  - intros H. exists (RequestWillBeSent u). split; [exact H|left; auto].
Qed.

Lemma in_candidates u logs :
  In u (candidates logs) <->
  In (RequestWillBeSent u) logs /\ is_valid_m3u8_url u = true.
Proof.
  unfold candidates. rewrite filter_In, in_requests. tauto.
Qed.

Lemma find_absent (A : Type) (f : A -> bool) l :
  (forall x, In x l -> f x = false) -> find f l = None.
Proof.
  induction l as [|x l IH]; intros H; [reflexivity|]. simpl.
  rewrite (H x) by (left; auto). apply IH. intros y Hy. apply H. right. auto.
Qed.

Lemma find_present (A : Type) (f : A -> bool) l x :
  In x l -> f x = true -> exists y, find f l = Some y.
Proof.
  induction l as [|z l IH]; intros Hin Hf; [destruct Hin|]. simpl.
  destruct (f z) eqn:E; [eauto|].
  destruct Hin as [->|Hin]; [congruence|]. apply IH; auto.
Qed.

(** What one batch leaves in [m3u8_url]: its first master playlist;
    without one, the value it had if that was set, else the first
    segment playlist of the batch. *)
Lemma scan_logs_url logs : forall m all,
  fst (scan_logs U logs m all) =
  match find (is_master U) (candidates logs) with
  | Some u => Some u
  | None =>
      if found m then m
      else match find (is_segment U) (candidates logs) with
           | Some u => Some u
           | None => m
           end
  end.
Proof.
  induction logs as [|[u|] logs IH]; intros m all.
  - simpl. destruct (found m); reflexivity.
  - rewrite scan_logs_request, candidates_request.
    destruct (is_valid_m3u8_url u) eqn:Ev; [|apply IH].
    cbn [find]. destruct (is_master U u); [reflexivity|].
    destruct (is_segment U u).
    + rewrite IH. destruct (find (is_master U) (candidates logs));
        [reflexivity|].
      destruct (found m) eqn:Ef; cbn [negb].
      * rewrite Ef. reflexivity.
      * rewrite (@valid_found _ Ev). reflexivity.
    + apply IH.
  - rewrite candidates_passed. apply IH.
Qed.

(** Without a master playlist the batch adds all its stream URLs to
    [all_m3u8_urls]. *)
Lemma scan_logs_all logs : forall m all,
  (forall u, In u (candidates logs) -> is_master U u = false) ->
  snd (scan_logs U logs m all) = all ++ candidates logs.
Proof.
  induction logs as [|[u|] logs IH]; intros m all H.
  - simpl. now rewrite app_nil_r.
  - rewrite scan_logs_request. rewrite candidates_request in *.
    destruct (is_valid_m3u8_url u) eqn:Ev; [|apply IH; exact H].
    rewrite (H u) by (left; auto).
    assert (H' : forall v, In v (candidates logs) -> is_master U v = false).
    { intros v Hv. apply H. right. exact Hv. }
    destruct (is_segment U u); rewrite IH by exact H';
      rewrite <- app_assoc; reflexivity.
  - rewrite candidates_passed in *. apply IH. exact H.
Qed.

(** Batches without a master or segment playlist are passed. *)
Lemma poll_skip rest : forall pre all,
  (forall logs, In logs pre ->
     forall u, In u (candidates logs) -> keyed U u = false) ->
  poll U (pre ++ rest) None all =
  poll U rest None (all ++ concat (map candidates pre)).
Proof.
  induction pre as [|logs pre IH]; intros all H.
  - simpl. now rewrite app_nil_r.
  - cbn [app poll map concat].
    assert (Hm : forall u, In u (candidates logs) -> is_master U u = false).
    { intros u Hu. specialize (H logs (or_introl eq_refl) u Hu).
      apply orb_false_iff in H. tauto. }
    assert (Hs : forall u, In u (candidates logs) -> is_segment U u = false).
    { intros u Hu. specialize (H logs (or_introl eq_refl) u Hu).
      apply orb_false_iff in H. tauto. }
    pose proof (@scan_logs_url logs None all) as H1.
    pose proof (@scan_logs_all logs None all Hm) as H2.
    destruct (scan_logs U logs None all) as [m' all']. cbn [fst snd] in H1, H2.
    rewrite (@find_absent _ _ _ Hm), (@find_absent _ _ _ Hs) in H1.
    cbn [found] in H1. subst m' all'. cbn [found].
    rewrite IH, <- app_assoc; [reflexivity|].
    intros l Hl. apply H. right. exact Hl.
Qed.

(** The loop keeps an invariant [P] of the stream URLs it meets. *)
Lemma scan_logs_keeps (P : str -> Prop) logs : forall m all,
  (forall u, In u (candidates logs) -> P u) ->
  (forall u, m = Some u -> P u) -> Forall P all ->
  (forall u, fst (scan_logs U logs m all) = Some u -> P u) /\
  Forall P (snd (scan_logs U logs m all)).
Proof.
  induction logs as [|[u|] logs IH]; intros m all H Hm Hall.
  - simpl. auto.
  - rewrite scan_logs_request. rewrite candidates_request in H.
    destruct (is_valid_m3u8_url u) eqn:Ev; [|apply IH; auto].
    assert (Hu : P u) by (apply H; left; auto).
    assert (H' : forall v, In v (candidates logs) -> P v).
    { intros v Hv. apply H. right. exact Hv. }
    assert (Hall' : Forall P (all ++ [u])).
    { apply Forall_app. split; [exact Hall|]. constructor; auto. }
    destruct (is_master U u).
    + cbn [fst snd]. split; [|exact Hall']. intros v [= <-]. exact Hu.
    + destruct (is_segment U u); apply IH; auto.
      intros v. destruct (negb (found m)); [|apply Hm].
      intros [= <-]. exact Hu.
  - rewrite candidates_passed in H. apply IH; auto.
Qed.

Lemma poll_keeps (P : str -> Prop) batches : forall m all,
  (forall logs, In logs batches -> forall u, In u (candidates logs) -> P u) ->
  (forall u, m = Some u -> P u) -> Forall P all ->
  (forall u, fst (poll U batches m all) = Some u -> P u) /\
  Forall P (snd (poll U batches m all)).
Proof.
  induction batches as [|logs batches IH]; intros m all H Hm Hall.
  - simpl. auto.
  - cbn [poll].
    destruct (@scan_logs_keeps P logs m all) as [H1 H2]; auto.
    { apply H. left. auto. }
    destruct (scan_logs U logs m all) as [m' all']. cbn [fst snd] in H1, H2.
    destruct (found m'); [cbn [fst snd]; auto|].
    apply IH; auto. intros l Hl. apply H. right. exact Hl.
Qed.

Lemma stream_url_keeps (P : str -> Prop) batches m3u8_matches u :
  (forall logs, In logs batches -> forall v, In v (candidates logs) -> P v) ->
  (forall v, In v m3u8_matches -> is_valid_m3u8_url v = true -> P v) ->
  stream_url U batches m3u8_matches = Some u -> P u.
Proof.
  intros Hb Hp. unfold stream_url.
  destruct (@poll_keeps P batches None []) as [H1 H2]; auto.
  { discriminate. }
  destruct (poll U batches None []) as [m all]. cbn [fst snd] in H1, H2.
  cbv zeta.
  set (m1 := match all with [] => _ | _ :: _ => _ end).
  assert (Hm : forall v, m1 = Some v -> P v).
  { subst m1. intros v. destruct all as [|first all]; [apply H1|].
    destruct (negb (found m)); [|apply H1].
    intros [= <-]. now inversion H2. }
  clearbody m1. destruct (negb (found m1)); [|apply Hm].
  destruct (filter is_valid_m3u8_url m3u8_matches) as [|first l] eqn:E;
    [apply Hm|].
  intros [= <-].
  assert (Hin : In first (filter is_valid_m3u8_url m3u8_matches))
    by (rewrite E; left; auto).
  apply filter_In in Hin. apply Hp; tauto.
Qed.

End StreamSelection.

(** X13 -- Every URL [extract_m3u8_url] hands on went through
    [is_valid_m3u8_url]: the stream URL it settles on is a request URL of
    the network log or a match of the page source, it is valid, and the
    result is that URL cleaned; a URL without ["callback="] and without
    ["responseFormat=jsonp"] is returned as it is. *)
Theorem extracted_url_is_valid (U : unicode) (rebuild : str -> str)
  (batches : list (list log_entry)) (m3u8_matches : list str) (r : str) :
  extract_m3u8_url U rebuild batches m3u8_matches = Some r ->
  exists u,
    stream_url U batches m3u8_matches = Some u /\
    is_valid_m3u8_url u = true /\
    (In u (requests (concat batches)) \/ In u m3u8_matches) /\
    r = clean_m3u8_url rebuild u /\
    (contains (txt "callback=") u = false ->
     contains (txt "responseFormat=jsonp") u = false -> r = u).
Proof.
  unfold extract_m3u8_url. intros H.
  destruct (stream_url U batches m3u8_matches) as [u|] eqn:E;
    [|discriminate].
  destruct (negb (found (Some u))); [discriminate|].
  injection H as <-. exists u. split; [reflexivity|].
  assert (HP : is_valid_m3u8_url u = true /\
               (In u (requests (concat batches)) \/ In u m3u8_matches)).
  { apply (@stream_url_keeps U
             (fun u => is_valid_m3u8_url u = true /\
                       (In u (requests (concat batches)) \/
                        In u m3u8_matches))
             batches m3u8_matches u); [| |exact E].
    - intros logs Hl v Hv. apply in_candidates in Hv.
      split; [tauto|]. left. apply in_requests.
      apply in_concat. exists logs. tauto.
    - intros v Hv Hvalid. auto. }
  split; [tauto|]. split; [tauto|]. split; [reflexivity|].
  intros H1 H2. unfold clean_m3u8_url. rewrite H1, H2. reflexivity.
Qed.

Lemma extracted_url_is_valid_witness :
  exists u,
    stream_url latin1
      [[Passed; RequestWillBeSent (txt "https://cdn.example/a/index.m3u8")]]
      [] = Some u /\
    is_valid_m3u8_url u = true /\
    (In u (requests (concat
       [[Passed; RequestWillBeSent (txt "https://cdn.example/a/index.m3u8")]]))
     \/ In u []) /\
    txt "https://cdn.example/a/index.m3u8" = clean_m3u8_url (fun s => s) u /\
    (contains (txt "callback=") u = false ->
     contains (txt "responseFormat=jsonp") u = false ->
     txt "https://cdn.example/a/index.m3u8" = u).
Proof.
  apply (@extracted_url_is_valid latin1 (fun s => s)
           [[Passed; RequestWillBeSent (txt "https://cdn.example/a/index.m3u8")]]
           [] (txt "https://cdn.example/a/index.m3u8")).
  vm_compute. reflexivity.
Defined.

(** X14 -- The network scan ends with the first batch of the log that
    holds a master or a segment playlist, and in that batch a master
    playlist wins wherever it stands: the stream URL is the first master
    playlist of the batch and, without one, its first segment
    playlist. *)
Theorem master_playlist_preferred (U : unicode)
  (pre : list (list log_entry)) (logs : list log_entry)
  (post : list (list log_entry)) (m3u8_matches : list str) :
  (forall b, In b pre -> forall u, In u (candidates b) -> keyed U u = false) ->
  (exists u, In u (candidates logs) /\ keyed U u = true) ->
  stream_url U (pre ++ logs :: post) m3u8_matches =
  match find (is_master U) (candidates logs) with
  | Some u => Some u
  | None => find (is_segment U) (candidates logs)
  end.
Proof.
  intros Hpre [u [Hu Hk]]. unfold stream_url.
  rewrite (@poll_skip U (logs :: post) pre [] Hpre). cbn [poll].
  pose proof (@scan_logs_url U logs None
                ([] ++ concat (map candidates pre))) as H1.
  destruct (scan_logs U logs None ([] ++ concat (map candidates pre)))
    as [m all]. cbn [fst] in H1. cbn [found] in H1.
  assert (H2 : m = match find (is_master U) (candidates logs) with
                   | Some u => Some u
                   | None => find (is_segment U) (candidates logs)
                   end).
  { rewrite H1. destruct (find (is_master U) (candidates logs));
      [reflexivity|].
    destruct (find (is_segment U) (candidates logs)); reflexivity. }
  rewrite <- H2. clear H1.
  assert (Hm : exists v, m = Some v /\ is_valid_m3u8_url v = true).
  { destruct (find (is_master U) (candidates logs)) as [v|] eqn:Em.
    - exists v. split; [exact H2|]. apply find_some in Em.
      destruct Em as [Em _]. apply in_candidates in Em. tauto.
    - apply orb_true_iff in Hk. destruct Hk as [Hk|Hk].
      + pose proof (@find_none _ _ _ Em u Hu). congruence.
      + destruct (@find_present _ _ _ _ Hu Hk) as [v Ev]. rewrite Ev in H2.
        exists v. split; [exact H2|]. apply find_some in Ev.
        destruct Ev as [Ev _]. apply in_candidates in Ev. tauto. }
  destruct Hm as [v [-> Hv]]. rewrite (@valid_found _ Hv).
  cbv zeta.
  destruct all as [|first all]; rewrite ?(@valid_found _ Hv); cbn [negb];
    rewrite ?(@valid_found _ Hv); cbn [negb]; reflexivity.
Qed.

Lemma master_playlist_preferred_witness :
  stream_url latin1
    ([[RequestWillBeSent (txt "https://cdn.example/a/plain.m3u8")]] ++
     [RequestWillBeSent (txt "https://cdn.example/a/chunklist_b1.m3u8");
      RequestWillBeSent (txt "https://cdn.example/a/Master.m3u8?x=1")] ::
     [[RequestWillBeSent (txt "https://cdn.example/b/index.m3u8")]])
    [] =
  Some (txt "https://cdn.example/a/Master.m3u8?x=1").
Proof.
  apply (@master_playlist_preferred latin1
    [[RequestWillBeSent (txt "https://cdn.example/a/plain.m3u8")]]
    [RequestWillBeSent (txt "https://cdn.example/a/chunklist_b1.m3u8");
     RequestWillBeSent (txt "https://cdn.example/a/Master.m3u8?x=1")]
    [[RequestWillBeSent (txt "https://cdn.example/b/index.m3u8")]]
    []).
  - intros b [<-|[]] u Hu. vm_compute in Hu. destruct Hu as [<-|[]].
    vm_compute. reflexivity.
  - exists (txt "https://cdn.example/a/Master.m3u8?x=1"). split.
    + vm_compute. right. left. reflexivity.
    + vm_compute. reflexivity.
Defined.

(** X15 -- Without a master or segment playlist in the log the order of
    the fallbacks is: the first valid stream URL the log holds, then the
    first valid match of the page source, then the [ValueError]. *)
Theorem stream_url_fallback_order (U : unicode)
  (batches : list (list log_entry)) (m3u8_matches : list str) :
  (forall b, In b batches ->
     forall u, In u (candidates b) -> keyed U u = false) ->
  stream_url U batches m3u8_matches =
  hd_error (concat (map candidates batches) ++
            filter is_valid_m3u8_url m3u8_matches).
Proof.
  intros H. unfold stream_url.
  rewrite <- (app_nil_r batches) at 1.
  rewrite (@poll_skip U [] batches [] H). cbn [poll app found negb].
  destruct (concat (map candidates batches)) as [|first all] eqn:E.
  - cbn [found negb app].
    destruct (filter is_valid_m3u8_url m3u8_matches); reflexivity.
  - assert (Hv : is_valid_m3u8_url first = true).
    { assert (Hin : In first (concat (map candidates batches)))
        by (rewrite E; left; auto).
      apply in_concat in Hin. destruct Hin as [l [Hl Hin]].
      apply in_map_iff in Hl. destruct Hl as [b [<- _]].
      apply in_candidates in Hin. tauto. }
    rewrite (@valid_found _ Hv). reflexivity.
Qed.

Lemma stream_url_fallback_order_witness :
  stream_url latin1
    [[RequestWillBeSent (txt "https://e.example/api?callback=j&responseFormat=jsonp&f=a.m3u8")];
     [Passed; RequestWillBeSent (txt "https://cdn.example/a/plain.m3u8")]]
    [txt "https://cdn.example/page.m3u8"] =
  Some (txt "https://cdn.example/a/plain.m3u8").
Proof.
  apply (@stream_url_fallback_order latin1
    [[RequestWillBeSent (txt "https://e.example/api?callback=j&responseFormat=jsonp&f=a.m3u8")];
     [Passed; RequestWillBeSent (txt "https://cdn.example/a/plain.m3u8")]]
    [txt "https://cdn.example/page.m3u8"]).
  intros b [<-|[<-|[]]] u Hu; vm_compute in Hu.
  - destruct Hu.
  - destruct Hu as [<-|[]]. vm_compute. reflexivity.
Defined.

(* ================================================================== *)
(** * The callers of the cleaner *)

Section Callers.

Local Open Scope Z_scope.

Lemma str_eqb_refl a : str_eqb a a = true.
Proof. now apply str_eqb_eq. Qed.

Lemma put_same (A : Type) k (v : A) d : put k v d k = Some v.
Proof. unfold put. now rewrite str_eqb_refl. Qed.

Lemma put_other (A : Type) k (v : A) d k' : k' <> k -> put k v d k' = d k'.
Proof.
  intros H. unfold put. destruct (str_eqb k' k) eqn:E; [|reflexivity].
  apply str_eqb_eq in E. contradiction.
Qed.

(** The test of the preview changes nothing: it is the first 500
    characters either way. *)
Lemma preview_firstn t : preview t = firstn 500 t.
Proof.
  unfold preview. pose proof (len_nonneg t) as Hn.
  destruct (Z.gtb_spec (len t) 500) as [H|H].
  - unfold py_slice, clamp. cbn [Z.ltb Z.compare].
    replace (Z.min 0 (len t)) with 0 by lia.
    replace (Z.min 500 (len t)) with 500 by lia. reflexivity.
  - symmetry. apply firstn_all2. unfold len in H. lia.
Qed.

End Callers.

Section Jobs.

Variable datetime : Type.
Variable U : unicode.
Variable w : App.world datetime.

Local Open Scope Z_scope.

Lemma failed_outcome id s job0 job e :
  App.url job = App.url job0 -> App.model job = App.model job0 ->
  step_raised w job0 e ->
  exists job',
    App.jobs (App.failed s id job e) id = Some job' /\
    (forall k, k <> id ->
       App.jobs (App.failed s id job e) k = App.jobs s k /\
       App.transcripts (App.failed s id job e) k = App.transcripts s k) /\
    gave_up w id s (App.failed s id job e) job0 job'.
Proof.
  intros _ _ He. eexists. split; [apply put_same|]. split.
  - intros k Hk. split; [apply put_other; exact Hk|reflexivity].
  - split; [reflexivity|]. split; [reflexivity|]. split; [reflexivity|].
    exists e. split; [reflexivity|exact He].
Qed.

Lemma run_transcription_outcome id s job :
  App.jobs s id = Some job ->
  exists s' job',
    App.run_transcription U w id s = Ok s' /\
    App.jobs s' id = Some job' /\
    (forall k, k <> id ->
       App.jobs s' k = App.jobs s k /\
       App.transcripts s' k = App.transcripts s k) /\
    (completed U w id s' job job' \/ gave_up w id s s' job job').
Proof.
  intros Hjob. unfold App.run_transcription. rewrite Hjob. cbv zeta.
  cbn [App.url App.model App.output_folder App.set_started_at
       App.set_status App.set_progress App.set_eta_minutes].
  destruct (App.download_audio w (App.url job) (txt "audio_temp"))
    as [audio|e] eqn:Ed.
  2:{ eexists. edestruct (@failed_outcome id s job) as [job' [H1 [H2 H3]]];
        [| |left; exact Ed|].
      3:{ exists job'. split; [reflexivity|]. split; [exact H1|].
          split; [exact H2|right; exact H3]. }
      all: reflexivity. }
  destruct (App.transcribe_audio w audio (App.model job)) as [raw|e] eqn:Et.
  2:{ eexists. edestruct (@failed_outcome id s job) as [job' [H1 [H2 H3]]];
        [| |right; left; exists audio; exact Et|].
      3:{ exists job'. split; [reflexivity|]. split; [exact H1|].
          split; [exact H2|right; exact H3]. }
      all: reflexivity. }
  destruct (clean_transcript_bounded U raw) as [out [Ec _]]. rewrite Ec.
  set (output_filename := txt "transcript_" ++ _).
  set (made := match App.output_folder job with Some (_ :: _) => _ | _ => _ end).
  assert (Hmade : (exists path, made = Returns path) \/
                  (exists e folder, made = Raises e /\
                                    App.mkdir w folder = Raises e)).
  { subst made. destruct (App.output_folder job) as [[|c f]|]; eauto.
    destruct (App.mkdir w (c :: f)) eqn:Em; eauto. }
  destruct Hmade as [[path ->]|[e [folder [-> Em]]]].
  2:{ eexists. edestruct (@failed_outcome id s job) as [job' [H1 [H2 H3]]];
        [| |right; right; left; exists folder; exact Em|].
      3:{ exists job'. split; [reflexivity|]. split; [exact H1|].
          split; [exact H2|right; exact H3]. }
      all: reflexivity. }
  destruct (App.save_transcript w out path) as [[]|e] eqn:Es.
  2:{ eexists. edestruct (@failed_outcome id s job) as [job' [H1 [H2 H3]]];
        [| |right; right; right; exists out, path; exact Es|].
      3:{ exists job'. split; [reflexivity|]. split; [exact H1|].
          split; [exact H2|right; exact H3]. }
      all: reflexivity. }
  eexists. eexists. split; [reflexivity|]. cbn [App.jobs App.transcripts].
  split; [apply put_same|]. split.
  - intros k Hk. split; apply put_other; exact Hk.
  - left. split; [reflexivity|]. split; [reflexivity|].
    exists audio, raw, out, path.
    split; [exact Ed|]. split; [exact Et|]. split; [exact Ec|].
    split; [exact Es|]. split; [apply put_same|]. split; [reflexivity|].
    cbn [App.transcript_preview App.set_completed_at
         App.set_transcript_preview].
    rewrite preview_firstn. reflexivity.
Qed.

End Jobs.



(** X17 -- What [api_get_transcript] serves after a run that left the job
    complete.  A cleaned transcript that is not empty is served from the
    cache, whatever the file system holds.  An empty one (the cleaner
    returns one for a recording of filler sentences) is not: the handler
    turns to the saved file, and answers 404 "Transcript not found" for
    the complete job when that file is gone. *)
Theorem completed_transcript_is_served (datetime : Type) (U : unicode)
  (w : App.world datetime) (fs : App.files) (id : str)
  (s s' : App.server datetime) (job' : App.TranscriptionJob datetime) :
  App.run_transcription U w id s = Ok s' ->
  App.jobs s' id = Some job' ->
  App.status job' = txt "complete" ->
  exists raw out,
    clean_transcript U raw = Ok out /\
    App.transcripts s' id = Some out /\
    match out with
    | _ :: _ =>
        App.api_get_transcript fs id s' =
        (Returns ([(txt "job_id", id); (txt "transcript", out);
                   (txt "url", App.url job'); (txt "model", App.model job')],
                  200%Z), s')
    | [] =>
        exists path,
          App.transcript_path job' = Some path /\
          (App.path_exists fs path = false ->
           App.api_get_transcript fs id s' =
           (Returns ([(txt "error", txt "Transcript not found")], 404%Z), s'))
    end.
Proof.
  intros Hrun Hjob' Hst.
  destruct (App.jobs s id) as [job|] eqn:Hjob.
  2:{ unfold App.run_transcription in Hrun. rewrite Hjob in Hrun.
      injection Hrun as <-. congruence. }
  destruct (@run_transcription_outcome datetime U w id s job Hjob)
    as [s2 [job2 [H1 [H2 [_ H4]]]]].
  rewrite Hrun in H1. injection H1 as <-.
  rewrite Hjob' in H2. injection H2 as <-.
  destruct H4 as [[_ [_ H]]|[He _]].
  2:{ rewrite Hst in He. vm_compute in He. discriminate. }
  destruct H as [audio [raw [out [path [_ [_ [Hc [_ [Ht [Hp _]]]]]]]]]].
  exists raw, out. split; [exact Hc|]. split; [exact Ht|].
  unfold App.api_get_transcript. rewrite Hjob', Hst, str_eqb_refl, Ht, Hp.
  cbn [negb]. destruct out as [|c out]; [|reflexivity].
  exists path. split; [reflexivity|]. intros Hx.
  destruct path as [|c p]; [reflexivity|]. rewrite Hx. reflexivity.
Qed.

Lemma completed_transcript_is_served_witness :
  exists raw out,
    clean_transcript latin1 raw = Ok out /\
    App.transcripts (demo_done (txt "Thank you. Thanks. Bye."))
      (txt "0123456789ab") = Some out /\
    match out with
    | _ :: _ =>
        App.api_get_transcript no_files (txt "0123456789ab")
          (demo_done (txt "Thank you. Thanks. Bye.")) =
        (Returns ([(txt "job_id", txt "0123456789ab");
                   (txt "transcript", out);
                   (txt "url",
                    App.url (demo_done_job (txt "Thank you. Thanks. Bye.")));
                   (txt "model",
                    App.model (demo_done_job (txt "Thank you. Thanks. Bye.")))],
                  200%Z),
         demo_done (txt "Thank you. Thanks. Bye."))
    | [] =>
        exists path,
          App.transcript_path (demo_done_job (txt "Thank you. Thanks. Bye."))
          = Some path /\
          (App.path_exists no_files path = false ->
           App.api_get_transcript no_files (txt "0123456789ab")
             (demo_done (txt "Thank you. Thanks. Bye.")) =
           (Returns ([(txt "error", txt "Transcript not found")], 404%Z),
            demo_done (txt "Thank you. Thanks. Bye.")))
    end.
Proof.
  apply (@completed_transcript_is_served nat latin1
           (demo_world (txt "Thank you. Thanks. Bye.")) no_files
           (txt "0123456789ab") demo_server
           (demo_done (txt "Thank you. Thanks. Bye."))
           (demo_done_job (txt "Thank you. Thanks. Bye."))).
  - vm_compute. reflexivity.
  - vm_compute. reflexivity.
  - vm_compute. reflexivity.
Defined.

(** ** The calls of [transcribe_podcast] *)




(** X19 -- The sentence split loses nothing but whitespace: it never
    returns an empty list, and the sentences, one after the other and
    without their whitespace characters, are the text without its
    whitespace characters. *)
Theorem split_sentences_keeps_text (U : unicode) (s : str) :
  split_sentences U s <> [] /\
  concat (map (nonspace U) (split_sentences U s)) = nonspace U s.
Proof.
  split.
  - unfold split_sentences, re_split.
    pose proof (pieces_nonempty (scan U false sentence_break None s 0)) as H.
    intros E. rewrite E in H. simpl in H. lia.
  - symmetry. apply split_nonspace.
Qed.

(** X20 -- The order of the cuts: the three phases at the end only move
    the end down, from the number of sentences over the chatter cut and
    the tail trim to [end_index], and the tail trim and the repetition
    check never move it below [start_index]; it lies below only when
    the chatter scan had put it there. *)
Theorem bounds_are_ordered (U : unicode) (ss : list str) :
  exists b,
    find_bounds U ss = Ok b /\
    (end_index b <= end_trimmed b <= end_chatter b)%Z /\
    (end_chatter b <= len ss)%Z /\
    (0 <= start_index b <= len ss)%Z /\
    ((start_index b <= end_chatter b)%Z ->
     (start_index b <= end_index b)%Z) /\
    ((end_chatter b < start_index b)%Z -> end_index b = end_chatter b).
Proof.
  destruct (find_bounds_ok U ss) as [b [E [H1 [H2 [H3 H4]]]]].
  exists b. split; [exact E|]. repeat split; try lia.
Qed.

(* ================================================================== *)
(** * The accented-word pass after the script passes *)

Section AccentedWordInScripts.

Variable U : unicode.

Lemma normalize_script_passes s :
  normalize U s =
  gibberish_passes U (re_sub U true accented_word [] (script_passes U s)).
Proof. reflexivity. Qed.

(** The script passes work character by character. *)
Lemma script_passes_app x y :
  script_passes U (x ++ y) = script_passes U x ++ script_passes U y.
Proof.
  unfold script_passes, script_classes. cbn [fold_left].
  rewrite !(@re_sub_plus_filter U), !filter_app. reflexivity.
Qed.

Lemma script_passes_fixed s : no_script U s -> script_passes U s = s.
Proof.
  intros H. unfold script_passes, script_classes. cbn [fold_left].
  rewrite (@re_sub_plus_absent U true hangul s)
    by (apply no_script_class; simpl; auto).
  rewrite (@re_sub_plus_absent U true cjk s)
    by (apply no_script_class; simpl; auto).
  rewrite (@re_sub_plus_absent U true kana s)
    by (apply no_script_class; simpl; auto).
  rewrite (@re_sub_plus_absent U true cyrillic s)
    by (apply no_script_class; simpl; auto).
  reflexivity.
Qed.

Lemma token_no_script a c b :
  letters_are_no_script U ->
  Forall (fun k => in_cset U true az k = true) a ->
  in_cset U true accented c = true ->
  Forall (fun k => in_cset U true az k = true) b ->
  no_script U (a ++ c :: b).
Proof.
  intros HL Ha Hc Hb. unfold no_script.
  apply Forall_app. split; [|constructor].
  - eapply Forall_impl; [|exact Ha]. intros k Hk. apply HL.
    cbv beta in Hk. rewrite Hk. reflexivity.
  - apply HL. rewrite Hc. apply orb_true_r.
  - eapply Forall_impl; [|exact Hb]. intros k Hk. apply HL.
    cbv beta in Hk. rewrite Hk. reflexivity.
Qed.

End AccentedWordInScripts.

(** ** The Latin-1 tables keep letters and scripts apart *)

Lemma icase1_high lo hi c :
  (c <= 255)%N -> (1040 <= lo)%N -> icase1 lo hi c = false.
Proof.
  intros Hc Hlo. apply not_true_is_false. intros H.
  apply icase1_spec in H. destruct H as [H|[[Hu H]|[Hl H]]]; lia.
Qed.

Lemma icase1_letter_small lo hi c :
  ((lo = 97 /\ hi = 122) \/ (lo = hi /\ 224 <= lo <= 255))%N ->
  icase1 lo hi c = true -> (c <= 255)%N.
Proof.
  intros Hr H. apply icase1_spec in H.
  destruct H as [H|[[Hu H]|[Hl H]]].
  - lia.
  - lia.
  - apply islower1_spec in Hl. lia.
Qed.

Lemma latin1_letters_are_no_script : letters_are_no_script latin1.
Proof.
  intros c H.
  assert (Hc : (c <= 255)%N).
  { apply orb_true_iff in H. destruct H as [H|H];
      unfold in_cset in H; apply existsb_exists in H;
      destruct H as [it [Hin H]].
    - destruct Hin as [<-|[]].
      apply (@icase1_letter_small 97 122 c); [lia|exact H].
    - unfold accented in Hin. apply in_map_iff in Hin.
      destruct Hin as [x [<- Hx]]. cbn [in_item latin1 icase] in H.
      apply (@icase1_letter_small x x c); [|exact H].
      right. simpl in Hx.
      repeat (destruct Hx as [<-|Hx]; [lia|]). destruct Hx. }
  unfold script_classes, hangul, cjk, kana, cyrillic, in_cset.
  cbn [existsb in_item latin1 icase].
  rewrite !icase1_high by lia. reflexivity.
Qed.

(** C10, amended -- Accented-word deletion: in every text the normalizer
    deletes a token made of characters of [[a-z]] (taken under
    re.IGNORECASE) around exactly one character of the accent class,
    when the token stands, once the four script passes have deleted the
    script characters around it, between characters that are no word
    characters or at an end of the text; the normalized text is built
    from what precedes and what follows the token.  The text around the
    token is arbitrary and may hold script characters.  The two
    conditions on the tables (the letters of the token are word
    characters and belong to no script class) hold for Python's.  Tokens
    of another shape, two accented characters among them, are not
    promised to go. *)
Theorem accented_word_deleted (U : unicode) (x a b y : str) (c : N) :
  letters_are_words U ->
  letters_are_no_script U ->
  Forall (fun k => in_cset U true az k = true) a ->
  in_cset U true accented c = true ->
  Forall (fun k => in_cset U true az k = true) b ->
  word_at U (after None (script_passes U x)) = false ->
  word_at U (hd_error (script_passes U y)) = false ->
  normalize U (x ++ (a ++ c :: b) ++ y) =
  gibberish_passes U
    (re_sub U true accented_word [] (script_passes U x) ++
     re_sub U true accented_word [] (script_passes U y)).
Proof.
  intros HW HL Ha Hc Hb Hx Hy.
  rewrite normalize_script_passes.
  rewrite (@script_passes_app U x ((a ++ c :: b) ++ y)).
  rewrite (@script_passes_app U (a ++ c :: b) y).
  rewrite (@script_passes_fixed U (a ++ c :: b))
    by (apply token_no_script; assumption).
  f_equal.
  assert (Hw : shaped U (a ++ c :: b)).
  { exists [], a, c, b. simpl. auto. }
  apply (@scan_before_word U HW (a ++ c :: b) (script_passes U y) Hw Hy
           (script_passes U x) None 0%nat Hx).
  right. reflexivity.
Qed.

(** [accented_word_deleted] at "大家好 café is open". *)
Lemma accented_word_deleted_witness :
  letters_are_words latin1 /\
  letters_are_no_script latin1 /\
  Forall (fun k => in_cset latin1 true az k = true) (txt "caf") /\
  in_cset latin1 true accented 233%N = true /\
  Forall (fun k => in_cset latin1 true az k = true) [] /\
  word_at latin1 (after None (script_passes latin1 (txt "大家好 "))) = false /\
  word_at latin1 (hd_error (script_passes latin1 (txt " is open"))) = false /\
  normalize latin1
    (txt "大家好 " ++ (txt "caf" ++ 233%N :: []) ++ txt " is open") =
  gibberish_passes latin1
    (re_sub latin1 true accented_word []
       (script_passes latin1 (txt "大家好 ")) ++
     re_sub latin1 true accented_word []
       (script_passes latin1 (txt " is open"))).
Proof.
  assert (H2 : Forall (fun k => in_cset latin1 true az k = true) (txt "caf"))
    by (apply Forall_check; vm_compute; reflexivity).
  assert (H3 : in_cset latin1 true accented 233%N = true)
    by (vm_compute; reflexivity).
  assert (H4 : word_at latin1
                 (after None (script_passes latin1 (txt "大家好 "))) = false)
    by (vm_compute; reflexivity).
  assert (H5 : word_at latin1
                 (hd_error (script_passes latin1 (txt " is open"))) = false)
    by (vm_compute; reflexivity).
  split; [exact latin1_letters_are_words|].
  split; [exact latin1_letters_are_no_script|].
  split; [exact H2|]. split; [exact H3|]. split; [exact (Forall_nil _)|].
  split; [exact H4|]. split; [exact H5|].
  apply (@accented_word_deleted latin1 _ _ _ _ _
           latin1_letters_are_words latin1_letters_are_no_script
           H2 H3 (Forall_nil _) H4 H5).
Defined.
